(** * Urbis: a disk-aware spatial index

    Shallow embedding of the C sources (geometry.c, kdtree.c, quadtree.c,
    page.c, disk_manager.c, spatial_index.c) and the properties proved
    about them.

    Modelling conventions, used throughout:
    - a C [double] is carried as the rational it denotes ([Qc]): a finite
      double is a dyadic rational of magnitude at most [DBL_MAX], the
      largest finite binary64 value, and the infinities are [INFINITY] and
      [- INFINITY].  Comparisons of doubles are comparisons of these
      rationals.  Every sum, difference, product and quotient of doubles
      that the code computes rounds as IEEE 754 binary64 does, to nearest
      with ties to even, and overflows to an infinity ([fadd], [fsub],
      [fmul], [fdiv] below, defined through the Standard Library's
      [SpecFloat]); [sqrt] stays a parameter.  The two zeros are one, and a
      comparison orders a NaN as the rational that carries it, where the
      code finds every comparison with a NaN false: statements about
      compared results of arithmetic assume them not to be NaNs
      ([is_nan]);
    - [malloc]/[calloc]/[realloc] always succeed, so the allocation-failure
      exits of the C functions are not represented;
    - an array together with its element count is a list; the spare
      capacity of a growable array is not represented unless the code
      tests it;
    - a pointer into pool-owned storage is the index of the pointee in its
      owning array ([Page*] is an index into [pool.pages], [DiskTrack*] an
      index into [pool.tracks], [SpatialObject*] a page index and a slot);
    - fixed-width unsigned integers are [Z] with the wrap-around written
      out where the code increments them; [size_t] counts are [nat]. *)

From Stdlib Require Import QArith Qcanon Qround Lia Lqa ZArith List Bool SpecFloat.
From stdpp Require Import base list gmap numbers sorting.

Local Open Scope Qc_scope.

(** ** Numbers *)

(** [a < b] on doubles; [a > b] is [Qcltb b a]. *)
Definition Qcltb (a b : Qc) : bool :=
  match a ?= b with Lt => true | _ => false end.

(** [a <= b] on doubles; [a >= b] is [Qcleb b a]. *)
Definition Qcleb (a b : Qc) : bool := negb (Qcltb b a).

Definition Qc_of_Z (z : Z) : Qc := Q2Qc (inject_Z z).
Definition Qc_of_nat (n : nat) : Qc := Qc_of_Z (Z.of_nat n).

(** <float.h>: the largest finite double, (2 - 2^-52) * 2^1023. *)
Definition DBL_MAX : Qc := Qc_of_Z (2 ^ 1024 - 2 ^ 971).

(** *** Double arithmetic

    The value of a double as a rational, and back.  [INFINITY] is 2^1024,
    the least power of two beyond every finite double.  A rational that is
    no dyadic denotes no double; [NAN] is one, and it is what a NaN is
    carried as, so that an operation on a NaN gives a NaN. *)
Definition INFINITY : Qc := Qc_of_Z (2 ^ 1024).
Definition NAN : Qc := Q2Qc (1 # 3).

(** The binary64 value that the rational [d] denotes: sign, 53-bit
    mantissa and exponent, with 2^1024 and beyond read as an infinity. *)
Definition binary64_of (d : Qc) : spec_float :=
  let k := Z.log2 (Zpos (Qden d)) in
  if (Zpos (Qden d) =? 2 ^ k)%Z then binary_normalize 53 1024 (Qnum d) (- k) false
  else S754_nan.

Definition of_binary64 (f : spec_float) : Qc :=
  match f with
  | S754_zero _ => 0
  | S754_infinity s => if s then - INFINITY else INFINITY
  | S754_nan => NAN
  | S754_finite s m e =>
      Q2Qc (inject_Z (if s then Zneg m else Zpos m) * Qpower (2 # 1) e)
  end.

Definition is_nan (d : Qc) : bool :=
  match binary64_of d with
  | S754_nan => true
  | _ => false
  end.

(** [a + b], [a - b], [a * b] and [a / b] on doubles. *)
Definition fadd (a b : Qc) : Qc :=
  of_binary64 (SFadd 53 1024 (binary64_of a) (binary64_of b)).
Definition fsub (a b : Qc) : Qc :=
  of_binary64 (SFsub 53 1024 (binary64_of a) (binary64_of b)).
Definition fmul (a b : Qc) : Qc :=
  of_binary64 (SFmul 53 1024 (binary64_of a) (binary64_of b)).
Definition fdiv (a b : Qc) : Qc :=
  of_binary64 (SFdiv 53 1024 (binary64_of a) (binary64_of b)).

(** The double a decimal literal [n / d] denotes, for integers that are
    doubles themselves: the nearest one. *)
Definition literal (n d : Z) : Qc := fdiv (Qc_of_Z n) (Qc_of_Z d).

(** geometry.c: [#define EPSILON 1e-10]. *)
Definition EPSILON : Qc := literal 1 10000000000.

Definition fabs (a : Qc) : Qc := if Qcltb a 0 then - a else a.
Definition fmin (a b : Qc) : Qc := if Qcltb a b then a else b.
Definition fmax (a b : Qc) : Qc := if Qcltb a b then b else a.

Definition u32_wrap (z : Z) : Z := z mod 2 ^ 32.
Definition u64_wrap (z : Z) : Z := z mod 2 ^ 64.

(** ** geometry.h: basic types *)

Record Point := mkPoint { pt_x : Qc; pt_y : Qc }.

Record MBR := mkMBR { min_x : Qc; min_y : Qc; max_x : Qc; max_y : Qc }.

Inductive GeomType := GEOM_POINT | GEOM_LINESTRING | GEOM_POLYGON.

(** The [geom] union of [SpatialObject] together with its [type] tag. *)
Inductive Geometry :=
| GeomPoint (point : Point)
| GeomLine (points : list Point)
| GeomPolygon (exterior : list Point) (holes : list (list Point)).

Record SpatialObject := mkSpatialObject {
  so_id : Z;
  so_geom : Geometry;
  so_centroid : Point;
  so_mbr : MBR;
  so_properties : list Z
}.

Definition so_type (obj : SpatialObject) : GeomType :=
  match so_geom obj with
  | GeomPoint _ => GEOM_POINT
  | GeomLine _ => GEOM_LINESTRING
  | GeomPolygon _ _ => GEOM_POLYGON
  end.

Inductive GeomError :=
| GEOM_OK
| GEOM_ERR_NULL_PTR
| GEOM_ERR_ALLOC
| GEOM_ERR_INVALID_GEOM
| GEOM_ERR_EMPTY_GEOM
| GEOM_ERR_INDEX_OUT_OF_BOUNDS.

(** ** geometry.c: points and MBRs *)

Definition point_create (x y : Qc) : Point := mkPoint x y.

Definition point_distance_sq (a b : Point) : Qc :=
  let dx := fsub (pt_x b) (pt_x a) in
  let dy := fsub (pt_y b) (pt_y a) in
  fadd (fmul dx dx) (fmul dy dy).

Definition mbr_create (mnx mny mxx mxy : Qc) : MBR := mkMBR mnx mny mxx mxy.

Definition mbr_empty : MBR := mkMBR DBL_MAX DBL_MAX (- DBL_MAX) (- DBL_MAX).

Definition mbr_is_empty (mbr : MBR) : bool :=
  Qcltb (max_x mbr) (min_x mbr) || Qcltb (max_y mbr) (min_y mbr).

Definition mbr_expand_point (mbr : MBR) (p : Point) : MBR :=
  mkMBR (if Qcltb (pt_x p) (min_x mbr) then pt_x p else min_x mbr)
        (if Qcltb (pt_y p) (min_y mbr) then pt_y p else min_y mbr)
        (if Qcltb (max_x mbr) (pt_x p) then pt_x p else max_x mbr)
        (if Qcltb (max_y mbr) (pt_y p) then pt_y p else max_y mbr).

Definition mbr_expand_mbr (mbr other : MBR) : MBR :=
  if mbr_is_empty other then mbr
  else
    mkMBR (if Qcltb (min_x other) (min_x mbr) then min_x other else min_x mbr)
          (if Qcltb (min_y other) (min_y mbr) then min_y other else min_y mbr)
          (if Qcltb (max_x mbr) (max_x other) then max_x other else max_x mbr)
          (if Qcltb (max_y mbr) (max_y other) then max_y other else max_y mbr).

Definition mbr_intersects (a b : MBR) : bool :=
  if mbr_is_empty a || mbr_is_empty b then false
  else negb (Qcltb (max_x a) (min_x b) || Qcltb (max_x b) (min_x a) ||
             Qcltb (max_y a) (min_y b) || Qcltb (max_y b) (min_y a)).

Definition mbr_contains_point (mbr : MBR) (p : Point) : bool :=
  if mbr_is_empty mbr then false
  else Qcleb (min_x mbr) (pt_x p) && Qcleb (pt_x p) (max_x mbr) &&
       Qcleb (min_y mbr) (pt_y p) && Qcleb (pt_y p) (max_y mbr).

Definition mbr_contains_mbr (a b : MBR) : bool :=
  if mbr_is_empty a || mbr_is_empty b then false
  else Qcleb (min_x a) (min_x b) && Qcleb (max_x b) (max_x a) &&
       Qcleb (min_y a) (min_y b) && Qcleb (max_y b) (max_y a).

Definition two : Qc := Qc_of_Z 2.

Definition mbr_centroid (mbr : MBR) : Point :=
  if mbr_is_empty mbr then mkPoint 0 0
  else mkPoint (fdiv (fadd (min_x mbr) (max_x mbr)) two)
               (fdiv (fadd (min_y mbr) (max_y mbr)) two).

Definition mbr_area (mbr : MBR) : Qc :=
  if mbr_is_empty mbr then 0
  else fmul (fsub (max_x mbr) (min_x mbr)) (fsub (max_y mbr) (min_y mbr)).


Definition mbr_union (a b : MBR) : MBR :=
  if mbr_is_empty a then b
  else if mbr_is_empty b then a
  else mkMBR (fmin (min_x a) (min_x b)) (fmin (min_y a) (min_y b))
             (fmax (max_x a) (max_x b)) (fmax (max_y a) (max_y b)).

(** ** geometry.c: linestrings, polygons and derived fields

    [sqrt] is the <math.h> function; it has no rational model, so it is a
    parameter of everything that reaches [point_distance]. *)

Section Geometry.
Variable sqrt : Qc -> Qc.

Definition point_distance (a b : Point) : Qc := sqrt (point_distance_sq a b).

(** Loop of [linestring_centroid] over the segments [(p_i, p_i+1)];
    the accumulator is [(cx, cy, total_length)]. *)
Fixpoint linestring_centroid_loop (pts : list Point) (acc : Qc * Qc * Qc)
  : Qc * Qc * Qc :=
  match pts with
  | p1 :: ((p2 :: _) as rest) =>
      let '(cx, cy, total_length) := acc in
      let seg_length := point_distance p1 p2 in
      let mid_x := fdiv (fadd (pt_x p1) (pt_x p2)) two in
      let mid_y := fdiv (fadd (pt_y p1) (pt_y p2)) two in
      linestring_centroid_loop rest
        (fadd cx (fmul mid_x seg_length), fadd cy (fmul mid_y seg_length),
         fadd total_length seg_length)
  | _ => acc
  end.

(** Returns the error code and the value left in [*centroid]. *)
Definition linestring_centroid (ls : list Point) (centroid : Point)
  : GeomError * Point :=
  match ls with
  | [] => (GEOM_ERR_EMPTY_GEOM, centroid)
  | [p0] => (GEOM_OK, p0)
  | p0 :: _ =>
      let '(cx, cy, total_length) := linestring_centroid_loop ls (0, 0, 0) in
      if Qcltb total_length EPSILON
      then (GEOM_OK, mkPoint (pt_x p0) (pt_y p0))
      else (GEOM_OK, mkPoint (fdiv cx total_length) (fdiv cy total_length))
  end.

Definition linestring_mbr (ls : list Point) (mbr : MBR) : GeomError * MBR :=
  match ls with
  | [] => (GEOM_ERR_EMPTY_GEOM, mbr)
  | _ => (GEOM_OK, fold_left mbr_expand_point ls mbr_empty)
  end.

Definition ring_at (ring : list Point) (i : nat) : Point :=
  nth i ring (mkPoint 0 0).

Definition ring_signed_area (ring : list Point) : Qc :=
  let count := length ring in
  if (count <? 3)%nat then 0
  else
    fdiv
      (fold_left
         (fun area i =>
            let j := ((i + 1) mod count)%nat in
            fsub (fadd area (fmul (pt_x (ring_at ring i)) (pt_y (ring_at ring j))))
                 (fmul (pt_x (ring_at ring j)) (pt_y (ring_at ring i))))
         (seq 0 count) 0)
      two.

Definition ring_centroid (ring : list Point) : Qc * Qc :=
  let count := length ring in
  if (count <? 3)%nat then (0, 0)
  else
    let area := ring_signed_area ring in
    if Qcltb (fabs area) EPSILON then
      let '(cx, cy) :=
        fold_left (fun '(cx, cy) p => (fadd cx (pt_x p), fadd cy (pt_y p)))
                  ring (0, 0) in
      (fdiv cx (Qc_of_nat count), fdiv cy (Qc_of_nat count))
    else
      let '(cx, cy) :=
        fold_left
          (fun '(cx, cy) i =>
             let j := ((i + 1) mod count)%nat in
             let cross := fsub (fmul (pt_x (ring_at ring i)) (pt_y (ring_at ring j)))
                               (fmul (pt_x (ring_at ring j)) (pt_y (ring_at ring i))) in
             (fadd cx (fmul (fadd (pt_x (ring_at ring i)) (pt_x (ring_at ring j))) cross),
              fadd cy (fmul (fadd (pt_y (ring_at ring i)) (pt_y (ring_at ring j))) cross)))
          (seq 0 count) (0, 0) in
      (fdiv cx (fmul (Qc_of_Z 6) area), fdiv cy (fmul (Qc_of_Z 6) area)).

Definition polygon_centroid (exterior : list Point) (centroid : Point)
  : GeomError * Point :=
  if (length exterior <? 3)%nat then (GEOM_ERR_INVALID_GEOM, centroid)
  else let '(cx, cy) := ring_centroid exterior in (GEOM_OK, mkPoint cx cy).

Definition polygon_mbr (exterior : list Point) (mbr : MBR) : GeomError * MBR :=
  match exterior with
  | [] => (GEOM_ERR_EMPTY_GEOM, mbr)
  | _ => (GEOM_OK, fold_left mbr_expand_point exterior mbr_empty)
  end.

Definition set_centroid (obj : SpatialObject) (c : Point) : SpatialObject :=
  mkSpatialObject (so_id obj) (so_geom obj) c (so_mbr obj) (so_properties obj).

Definition set_mbr (obj : SpatialObject) (m : MBR) : SpatialObject :=
  mkSpatialObject (so_id obj) (so_geom obj) (so_centroid obj) m
                  (so_properties obj).

Definition set_id (obj : SpatialObject) (id : Z) : SpatialObject :=
  mkSpatialObject id (so_geom obj) (so_centroid obj) (so_mbr obj)
                  (so_properties obj).

(** Returns the error code and the object as the call leaves it. *)
Definition spatial_object_update_derived (obj : SpatialObject)
  : GeomError * SpatialObject :=
  match so_geom obj with
  | GeomPoint p =>
      (GEOM_OK,
       set_mbr (set_centroid obj p) (mbr_create (pt_x p) (pt_y p) (pt_x p) (pt_y p)))
  | GeomLine ls =>
      match linestring_centroid ls (so_centroid obj) with
      | (GEOM_OK, c) =>
          let '(err, m) := linestring_mbr ls (so_mbr obj) in
          (err, set_mbr (set_centroid obj c) m)
      | (err, _) => (err, obj)
      end
  | GeomPolygon ext _ =>
      match polygon_centroid ext (so_centroid obj) with
      | (GEOM_OK, c) =>
          let '(err, m) := polygon_mbr ext (so_mbr obj) in
          (err, set_mbr (set_centroid obj c) m)
      | (err, _) => (err, obj)
      end
  end.

(** [spatial_object_copy] is a deep copy: in a value model, the identity. *)
Definition spatial_object_copy (src : SpatialObject) : SpatialObject := src.

Definition spatial_object_init_point (id : Z) (p : Point) : SpatialObject :=
  mkSpatialObject id (GeomPoint p) p
                  (mbr_create (pt_x p) (pt_y p) (pt_x p) (pt_y p)) [].

End Geometry.


(** ** kdtree.h *)

(** A [KDNode*]: [KDNull] is the null pointer.  [data] is the [void*]
    payload, [None] when null. *)
Inductive KDNode (D : Type) : Type :=
| KDNull
| KDN (point : Point) (object_id : Z) (data : option D) (split_dim : nat)
      (left right : KDNode D) (bounds : MBR) (subtree_size : nat).
Arguments KDNull {D}.
Arguments KDN {D} _ _ _ _ _ _ _ _.

Record KDTree (D : Type) := mkKDTree {
  kd_root : KDNode D;
  kd_size : nat;
  kd_bounds : MBR
}.
Arguments mkKDTree {D} _ _ _.
Arguments kd_root {D} _.
Arguments kd_size {D} _.
Arguments kd_bounds {D} _.

(** [KDPointData]; one entry of a [KDQueryResult] (the parallel arrays
    [points], [ids], [data]) has the same three fields. *)
Record KDPointData (D : Type) := mkKDPointData {
  kpd_point : Point;
  kpd_object_id : Z;
  kpd_data : option D
}.
Arguments mkKDPointData {D} _ _ _.
Arguments kpd_point {D} _.
Arguments kpd_object_id {D} _.
Arguments kpd_data {D} _.

Inductive KDError :=
| KD_OK
| KD_ERR_NULL_PTR
| KD_ERR_ALLOC
| KD_ERR_EMPTY
| KD_ERR_NOT_FOUND.

(** State of the nearest-neighbour search. *)
Record NNState (D : Type) := mkNNState {
  nn_query : Point;
  nn_best : Point;
  nn_best_id : Z;
  nn_best_data : option D;
  nn_best_dist_sq : Qc
}.
Arguments mkNNState {D} _ _ _ _ _.
Arguments nn_query {D} _.
Arguments nn_best {D} _.
Arguments nn_best_id {D} _.
Arguments nn_best_data {D} _.
Arguments nn_best_dist_sq {D} _.

(** ** kdtree.c *)

Section KDTreeOps.
Context {D : Type}.

Definition KDQueryResult := list (KDPointData D).

Definition compare_by_x (pa pb : KDPointData D) : Z :=
  if Qcltb (pt_x (kpd_point pa)) (pt_x (kpd_point pb)) then (-1)%Z
  else if Qcltb (pt_x (kpd_point pb)) (pt_x (kpd_point pa)) then 1%Z
  else 0%Z.

Definition compare_by_y (pa pb : KDPointData D) : Z :=
  if Qcltb (pt_y (kpd_point pa)) (pt_y (kpd_point pb)) then (-1)%Z
  else if Qcltb (pt_y (kpd_point pb)) (pt_y (kpd_point pa)) then 1%Z
  else 0%Z.

(** <stdlib.h> [qsort], modelled by a stable insertion sort: C leaves the
    order of elements that compare equal unspecified. *)
Fixpoint qsort_insert (cmp : KDPointData D -> KDPointData D -> Z)
  (e : KDPointData D) (l : list (KDPointData D)) : list (KDPointData D) :=
  match l with
  | [] => [e]
  | y :: l' => if (cmp e y <=? 0)%Z then e :: y :: l' else y :: qsort_insert cmp e l'
  end.

Definition qsort (cmp : KDPointData D -> KDPointData D -> Z)
  (l : list (KDPointData D)) : list (KDPointData D) :=
  fold_right (qsort_insert cmp) [] l.

Definition kdnode_create (p : Point) (object_id : Z) (data : option D)
  (split_dim : nat) : KDNode D :=
  KDN p object_id data split_dim KDNull KDNull
      (mbr_create (pt_x p) (pt_y p) (pt_x p) (pt_y p)) 1.

Definition kdnode_update_bounds (node : KDNode D) : KDNode D :=
  match node with
  | KDNull => KDNull
  | KDN p id data dim l r _ _ =>
      let b0 := mbr_create (pt_x p) (pt_y p) (pt_x p) (pt_y p) in
      let '(b1, s1) :=
        match l with
        | KDNull => (b0, 1%nat)
        | KDN _ _ _ _ _ _ lb ls => (mbr_expand_mbr b0 lb, (1 + ls)%nat)
        end in
      let '(b2, s2) :=
        match r with
        | KDNull => (b1, s1)
        | KDN _ _ _ _ _ _ rb rs => (mbr_expand_mbr b1 rb, (s1 + rs)%nat)
        end in
      KDN p id data dim l r b2 s2
  end.

(** [build_tree_recursive(points, count, depth)].  The recursion is on
    [count], which halves at each call; [fuel] bounds the number of nested
    calls and [length points] is always enough (see
    [kdtree_bulk_load]). *)
Fixpoint build_tree_recursive (fuel : nat) (points : list (KDPointData D))
  (depth : nat) : KDNode D :=
  match fuel with
  | O => KDNull
  | S fuel' =>
      let count := length points in
      if (count =? 0)%nat then KDNull
      else
        let dim := (depth mod 2)%nat in
        let sorted :=
          if (dim =? 0)%nat then qsort compare_by_x points
          else qsort compare_by_y points in
        let median := (count / 2)%nat in
        match sorted !! median with
        | None => KDNull
        | Some m =>
            let l := build_tree_recursive fuel' (take median sorted) (depth + 1) in
            let r := build_tree_recursive fuel' (drop (median + 1) sorted)
                                          (depth + 1) in
            kdnode_update_bounds
              (KDN (kpd_point m) (kpd_object_id m) (kpd_data m) dim l r
                   (mbr_create (pt_x (kpd_point m)) (pt_y (kpd_point m))
                               (pt_x (kpd_point m)) (pt_y (kpd_point m))) 1)
        end
  end.

Fixpoint insert_recursive (node : KDNode D) (p : Point) (object_id : Z)
  (data : option D) (depth : nat) : KDNode D :=
  match node with
  | KDNull => kdnode_create p object_id data (depth mod 2)
  | KDN np nid ndata dim l r b sz =>
      let coord := if (dim =? 0)%nat then pt_x p else pt_y p in
      let split := if (dim =? 0)%nat then pt_x np else pt_y np in
      if Qcltb coord split
      then KDN np nid ndata dim (insert_recursive l p object_id data (depth + 1)) r
               (mbr_expand_point b p) (sz + 1)
      else KDN np nid ndata dim l (insert_recursive r p object_id data (depth + 1))
               (mbr_expand_point b p) (sz + 1)
  end.

Fixpoint nearest_recursive (node : KDNode D) (state : NNState D) : NNState D :=
  match node with
  | KDNull => state
  | KDN np nid ndata dim l r _ _ =>
      let dist_sq := point_distance_sq (nn_query state) np in
      let state1 :=
        if Qcltb dist_sq (nn_best_dist_sq state)
        then mkNNState (nn_query state) np nid ndata dist_sq
        else state in
      let coord := if (dim =? 0)%nat then pt_x (nn_query state1)
                   else pt_y (nn_query state1) in
      let split := if (dim =? 0)%nat then pt_x np else pt_y np in
      let diff := fsub coord split in
      if Qcltb diff 0 then
        let state2 := nearest_recursive l state1 in
        if Qcltb (fmul diff diff) (nn_best_dist_sq state2)
        then nearest_recursive r state2 else state2
      else
        let state2 := nearest_recursive r state1 in
        if Qcltb (fmul diff diff) (nn_best_dist_sq state2)
        then nearest_recursive l state2 else state2
  end.


Definition kdresult_add (result : KDQueryResult) (p : Point) (id : Z)
  (data : option D) : KDQueryResult :=
  result ++ [mkKDPointData p id data].

Definition kdresult_clear (result : KDQueryResult) : KDQueryResult := [].

Fixpoint range_query_recursive (node : KDNode D) (range : MBR)
  (result : KDQueryResult) : KDQueryResult :=
  match node with
  | KDNull => result
  | KDN np nid ndata _ l r b _ =>
      if negb (mbr_intersects b range) then result
      else
        let result1 :=
          if mbr_contains_point range np then kdresult_add result np nid ndata
          else result in
        range_query_recursive r range (range_query_recursive l range result1)
  end.

Fixpoint depth_recursive (node : KDNode D) : nat :=
  match node with
  | KDNull => 0
  | KDN _ _ _ _ l r _ _ =>
      let left_depth := depth_recursive l in
      let right_depth := depth_recursive r in
      (1 + (if (right_depth <? left_depth)%nat then left_depth else right_depth))%nat
  end.

Definition kdnode_is_null (node : KDNode D) : bool :=
  match node with KDNull => true | _ => false end.

Fixpoint collect_leaf_bounds (node : KDNode D) (max_size : nat)
  (bounds : list MBR) : list MBR :=
  match node with
  | KDNull => bounds
  | KDN _ _ _ _ l r b sz =>
      if (sz <=? max_size)%nat || (kdnode_is_null l && kdnode_is_null r)
      then bounds ++ [b]
      else collect_leaf_bounds r max_size (collect_leaf_bounds l max_size bounds)
  end.

Definition kdtree_init : KDTree D := mkKDTree KDNull 0 mbr_empty.

Definition kdtree_free (tree : KDTree D) : KDTree D := mkKDTree KDNull 0 mbr_empty.

Definition kdtree_insert (tree : KDTree D) (p : Point) (object_id : Z)
  (data : option D) : KDError * KDTree D :=
  (KD_OK,
   mkKDTree (insert_recursive (kd_root tree) p object_id data 0)
            (kd_size tree + 1)
            (mbr_expand_point (kd_bounds tree) p)).

Definition kdtree_bulk_load (tree : KDTree D) (points : list (KDPointData D))
  : KDError * KDTree D :=
  let count := length points in
  if (count =? 0)%nat then (KD_OK, tree)
  else
    (KD_OK,
     mkKDTree (build_tree_recursive count points 0)
              count
              (fold_left (fun b pd => mbr_expand_point b (kpd_point pd))
                         points mbr_empty)).

(** Returns the error code and the outputs [*nearest], [*object_id],
    [*data]; [None] when the call leaves them unwritten. *)
Definition kdtree_nearest (tree : KDTree D) (query : Point)
  : KDError * option (Point * Z * option D) :=
  match kd_root tree with
  | KDNull => (KD_ERR_EMPTY, None)
  | KDN rp rid rdata _ _ _ _ _ =>
      let state := mkNNState query rp rid rdata DBL_MAX in
      let state' := nearest_recursive (kd_root tree) state in
      (KD_OK, Some (nn_best state', nn_best_id state', nn_best_data state'))
  end.

End KDTreeOps.

(** [DistEntry] of [kdtree_k_nearest]. *)
Record DistEntry := mkDistEntry { de_idx : nat; de_dist_sq : Qc }.

Section KDTreeKNearest.
Context {D : Type}.

(** [distances[j].dist_sq] *)
Definition dist_sq_at (distances : list DistEntry) (j : nat) : Qc :=
  match distances !! j with
  | Some e => de_dist_sq e
  | None => 0
  end.

(** The inner loop [for (j = i + 1; j < all.count; j++)], returning
    [min_idx]. *)
Definition select_min (distances : list DistEntry) (i : nat) : nat :=
  fold_left
    (fun min_idx j =>
       if Qcltb (dist_sq_at distances j) (dist_sq_at distances min_idx)
       then j else min_idx)
    (seq (i + 1) (length distances - (i + 1))) i.

(** [if (min_idx != i) { tmp = d[i]; d[i] = d[min_idx]; d[min_idx] = tmp; }] *)
Definition swap_entries (distances : list DistEntry) (i min_idx : nat)
  : list DistEntry :=
  if (min_idx =? i)%nat then distances
  else
    match distances !! i, distances !! min_idx with
    | Some tmp, Some m => <[min_idx := tmp]> (<[i := m]> distances)
    | _, _ => distances
    end.

(** One iteration of the outer loop of the selection sort. *)
Definition k_nearest_step (all : @KDQueryResult D)
  (st : list DistEntry * @KDQueryResult D) (i : nat)
  : list DistEntry * @KDQueryResult D :=
  let '(distances, result) := st in
  let min_idx := select_min distances i in
  let distances' := swap_entries distances i min_idx in
  match distances' !! i with
  | None => (distances', result)
  | Some e =>
      match all !! de_idx e with
      | None => (distances', result)
      | Some a =>
          (distances',
           kdresult_add result (kpd_point a) (kpd_object_id a) (kpd_data a))
      end
  end.

Definition kdtree_k_nearest (tree : KDTree D) (query : Point) (k : nat)
  (result : @KDQueryResult D) : KDError * @KDQueryResult D :=
  if kdnode_is_null (kd_root tree) then (KD_ERR_EMPTY, result)
  else if (k =? 0)%nat then (KD_OK, result)
  else
    let result0 := kdresult_clear result in
    let all := range_query_recursive (kd_root tree) (kd_bounds tree) [] in
    let distances :=
      imap (fun i a => mkDistEntry i (point_distance_sq query (kpd_point a))) all in
    (KD_OK,
     snd (fold_left (k_nearest_step all) (seq 0 (Nat.min k (length all)))
                    (distances, result0))).


Definition kdtree_partition (tree : KDTree D) (max_points_per_block : nat)
  : KDError * list MBR :=
  (KD_OK, collect_leaf_bounds (kd_root tree) max_points_per_block []).

Definition kdtree_depth (tree : KDTree D) : nat := depth_recursive (kd_root tree).

End KDTreeKNearest.

(** ** quadtree.h *)

Definition QT_MAX_DEPTH : Z := 20.
Definition QT_DEFAULT_CAPACITY : nat := 8.

Record QTItem (D : Type) := mkQTItem {
  qi_id : Z;
  qi_bounds : MBR;
  qi_centroid : Point;
  qi_data : option D
}.
Arguments mkQTItem {D} _ _ _ _.
Arguments qi_id {D} _.
Arguments qi_bounds {D} _.
Arguments qi_centroid {D} _.
Arguments qi_data {D} _.

(** A [QTNode*]; [QTNull] is the null pointer.  [items] holds the first
    [item_count] entries of the C array; the four children are in the order
    of the [Quadrant] enumeration: NW, NE, SW, SE. *)
Inductive QTNode (D : Type) : Type :=
| QTNull
| QTN (bounds : MBR) (items : list (QTItem D)) (item_capacity : nat)
      (nw ne sw se : QTNode D) (depth : Z) (is_leaf : bool).
Arguments QTNull {D}.
Arguments QTN {D} _ _ _ _ _ _ _ _ _.

Record QuadTree (D : Type) := mkQuadTree {
  qt_root : QTNode D;
  qt_total_items : nat;
  qt_node_capacity : nat;
  qt_max_depth : Z
}.
Arguments mkQuadTree {D} _ _ _ _.
Arguments qt_root {D} _.
Arguments qt_total_items {D} _.
Arguments qt_node_capacity {D} _.
Arguments qt_max_depth {D} _.

Inductive QTError :=
| QT_OK
| QT_ERR_NULL_PTR
| QT_ERR_ALLOC
| QT_ERR_BOUNDS
| QT_ERR_NOT_FOUND
| QT_ERR_FULL.

(** ** quadtree.c *)

Section QuadTreeOps.
Context {D : Type}.

Definition QTQueryResult := list (QTItem D).

(** [const double EPSILON = 1e-9] of [mbr_adjacent_or_intersects]. *)
Definition ADJ_EPSILON : Qc := literal 1 1000000000.

Definition mbr_adjacent_or_intersects (a b : MBR) : bool :=
  negb (Qcltb (fadd (max_x a) ADJ_EPSILON) (min_x b) ||
        Qcltb (max_x b) (fsub (min_x a) ADJ_EPSILON) ||
        Qcltb (fadd (max_y a) ADJ_EPSILON) (min_y b) ||
        Qcltb (max_y b) (fsub (min_y a) ADJ_EPSILON)).

Definition qtresult_clear (result : QTQueryResult) : QTQueryResult := [].

Definition qtresult_add (result : QTQueryResult) (item : QTItem D)
  : QTQueryResult := result ++ [item].

Definition qtnode_create (bounds : MBR) (capacity : nat) (depth : Z) : QTNode D :=
  QTN bounds []
      (if (0 <? capacity)%nat then capacity else QT_DEFAULT_CAPACITY)
      QTNull QTNull QTNull QTNull depth true.

(** The test of the redistribution loop of [qtnode_split] for child [q]:
    the child's bounds contain the item and the child has room. *)
Definition split_child_takes (child : QTNode D) (item : QTItem D) : bool :=
  match child with
  | QTNull => false
  | QTN b items cap _ _ _ _ _ _ =>
      mbr_contains_mbr b (qi_bounds item) && (length items <? cap)%nat
  end.

(** [child->items[child->item_count++] = *item] *)
Definition qtnode_push (child : QTNode D) (item : QTItem D) : QTNode D :=
  match child with
  | QTNull => QTNull
  | QTN b items cap nw ne sw se depth leaf =>
      QTN b (items ++ [item]) cap nw ne sw se depth leaf
  end.

(** Body of the redistribution loop for one item: the first child, in
    quadrant order, that takes it; an item no child takes is left where it
    is, in the parent's array. *)
Definition split_redistribute
  (children : QTNode D * QTNode D * QTNode D * QTNode D) (item : QTItem D)
  : QTNode D * QTNode D * QTNode D * QTNode D :=
  let '(c0, c1, c2, c3) := children in
  if split_child_takes c0 item then (qtnode_push c0 item, c1, c2, c3)
  else if split_child_takes c1 item then (c0, qtnode_push c1 item, c2, c3)
  else if split_child_takes c2 item then (c0, c1, qtnode_push c2 item, c3)
  else if split_child_takes c3 item then (c0, c1, c2, qtnode_push c3 item)
  else (c0, c1, c2, c3).

Definition qtnode_split (node : QTNode D) (capacity : nat)
  : QTError * QTNode D :=
  match node with
  | QTNull => (QT_ERR_NULL_PTR, node)
  | QTN b items cap _ _ _ _ depth is_leaf =>
      if negb is_leaf then (QT_ERR_NULL_PTR, node)
      else
        let mid_x := fdiv (fadd (min_x b) (max_x b)) two in
        let mid_y := fdiv (fadd (min_y b) (max_y b)) two in
        let c_nw := qtnode_create (mbr_create (min_x b) mid_y mid_x (max_y b))
                                  capacity (depth + 1) in
        let c_ne := qtnode_create (mbr_create mid_x mid_y (max_x b) (max_y b))
                                  capacity (depth + 1) in
        let c_sw := qtnode_create (mbr_create (min_x b) (min_y b) mid_x mid_y)
                                  capacity (depth + 1) in
        let c_se := qtnode_create (mbr_create mid_x (min_y b) (max_x b) mid_y)
                                  capacity (depth + 1) in
        let '(c0, c1, c2, c3) :=
          fold_left split_redistribute items (c_nw, c_ne, c_sw, c_se) in
        (* node->item_count = 0 *)
        (QT_OK, QTN b [] cap c0 c1 c2 c3 depth false)
  end.

Definition qtnode_contains (child : QTNode D) (item : QTItem D) : bool :=
  match child with
  | QTNull => false
  | QTN b _ _ _ _ _ _ _ _ => mbr_contains_mbr b (qi_bounds item)
  end.

(** [node->items[node->item_count++] = *item], after growing the array by
    [GROWTH_FACTOR] when it is full. *)
Definition qtnode_store (node : QTNode D) (item : QTItem D) : QTNode D :=
  match node with
  | QTNull => QTNull
  | QTN b items cap nw ne sw se depth leaf =>
      QTN b (items ++ [item])
          (if (cap <=? length items)%nat then (cap * 2)%nat else cap)
          nw ne sw se depth leaf
  end.

(** [qtnode_insert].  A leaf that splits calls itself again on the same
    node, so the recursion is not structural; [fuel] bounds the number of
    nested calls and [None] is "out of fuel" ([qtnode_fuel] is enough). *)
Fixpoint qtnode_insert (fuel : nat) (node : QTNode D) (item : QTItem D)
  (node_capacity : nat) (max_depth : Z) : option (QTError * QTNode D) :=
  match fuel with
  | O => None
  | S fuel' =>
      match node with
      | QTNull => Some (QT_ERR_NULL_PTR, node)
      | QTN b items cap nw ne sw se depth is_leaf =>
          if negb (mbr_intersects b (qi_bounds item)) then Some (QT_ERR_BOUNDS, node)
          else if is_leaf then
            if (node_capacity <=? length items)%nat && (depth <? max_depth)%Z then
              match qtnode_split node node_capacity with
              | (QT_OK, node') => qtnode_insert fuel' node' item node_capacity max_depth
              | (err, node') => Some (err, node')
              end
            else Some (QT_OK, qtnode_store node item)
          else if qtnode_contains nw item then
            match qtnode_insert fuel' nw item node_capacity max_depth with
            | Some (err, nw') => Some (err, QTN b items cap nw' ne sw se depth is_leaf)
            | None => None
            end
          else if qtnode_contains ne item then
            match qtnode_insert fuel' ne item node_capacity max_depth with
            | Some (err, ne') => Some (err, QTN b items cap nw ne' sw se depth is_leaf)
            | None => None
            end
          else if qtnode_contains sw item then
            match qtnode_insert fuel' sw item node_capacity max_depth with
            | Some (err, sw') => Some (err, QTN b items cap nw ne sw' se depth is_leaf)
            | None => None
            end
          else if qtnode_contains se item then
            match qtnode_insert fuel' se item node_capacity max_depth with
            | Some (err, se') => Some (err, QTN b items cap nw ne sw se' depth is_leaf)
            | None => None
            end
          else Some (QT_OK, qtnode_store node item)
      end
  end.

(** Number of nested calls [qtnode_insert] can make on [node]: a leaf at
    depth [d] can split at most [max_depth - d] times, each split costing
    the repeated call and the descent into the new child. *)
Fixpoint qtnode_fuel (node : QTNode D) (max_depth : Z) : nat :=
  match node with
  | QTNull => 1
  | QTN _ _ _ nw ne sw se depth is_leaf =>
      if is_leaf then (2 * Z.to_nat (max_depth - depth) + 1)%nat
      else
        (1 + Nat.max (Nat.max (qtnode_fuel nw max_depth) (qtnode_fuel ne max_depth))
                     (Nat.max (qtnode_fuel sw max_depth) (qtnode_fuel se max_depth)))%nat
  end.

Fixpoint qtnode_query_range (node : QTNode D) (range : MBR)
  (result : QTQueryResult) : QTQueryResult :=
  match node with
  | QTNull => result
  | QTN b items _ nw ne sw se _ is_leaf =>
      if negb (mbr_intersects b range) then result
      else
        let result1 :=
          fold_left
            (fun res it =>
               if mbr_intersects (qi_bounds it) range then qtresult_add res it
               else res)
            items result in
        if negb is_leaf then
          qtnode_query_range se range
            (qtnode_query_range sw range
               (qtnode_query_range ne range
                  (qtnode_query_range nw range result1)))
        else result1
  end.

Fixpoint qtnode_query_point (node : QTNode D) (p : Point)
  (result : QTQueryResult) : QTQueryResult :=
  match node with
  | QTNull => result
  | QTN b items _ nw ne sw se _ is_leaf =>
      if negb (mbr_contains_point b p) then result
      else
        let result1 :=
          fold_left
            (fun res it =>
               if mbr_contains_point (qi_bounds it) p then qtresult_add res it
               else res)
            items result in
        if negb is_leaf then
          qtnode_query_point se p
            (qtnode_query_point sw p
               (qtnode_query_point ne p (qtnode_query_point nw p result1)))
        else result1
  end.

Definition first_or {A : Type} (a b : option A) : option A :=
  match a with Some _ => a | None => b end.

Fixpoint qtnode_find (node : QTNode D) (id : Z) : option (QTItem D) :=
  match node with
  | QTNull => None
  | QTN _ items _ nw ne sw se _ is_leaf =>
      match List.find (fun it => (qi_id it =? id)%Z) items with
      | Some it => Some it
      | None =>
          if negb is_leaf then
            first_or (qtnode_find nw id)
              (first_or (qtnode_find ne id)
                 (first_or (qtnode_find sw id) (qtnode_find se id)))
          else None
      end
  end.

(** Index of the first item with the given id. *)
Fixpoint find_item_index (items : list (QTItem D)) (id : Z) : option nat :=
  match items with
  | [] => None
  | it :: rest =>
      if (qi_id it =? id)%Z then Some 0%nat
      else option_map S (find_item_index rest id)
  end.

Fixpoint qtnode_remove (node : QTNode D) (id : Z) : bool * QTNode D :=
  match node with
  | QTNull => (false, node)
  | QTN b items cap nw ne sw se depth is_leaf =>
      match find_item_index items id with
      | Some i =>
          (true, QTN b (take i items ++ drop (i + 1) items) cap nw ne sw se depth is_leaf)
      | None =>
          if negb is_leaf then
            let '(r0, nw') := qtnode_remove nw id in
            if r0 then (true, QTN b items cap nw' ne sw se depth is_leaf)
            else
              let '(r1, ne') := qtnode_remove ne id in
              if r1 then (true, QTN b items cap nw ne' sw se depth is_leaf)
              else
                let '(r2, sw') := qtnode_remove sw id in
                if r2 then (true, QTN b items cap nw ne sw' se depth is_leaf)
                else
                  let '(r3, se') := qtnode_remove se id in
                  if r3 then (true, QTN b items cap nw ne sw se' depth is_leaf)
                  else (false, node)
          else (false, node)
      end
  end.

Fixpoint qtnode_collect_all (node : QTNode D) (result : QTQueryResult)
  : QTQueryResult :=
  match node with
  | QTNull => result
  | QTN _ items _ nw ne sw se _ is_leaf =>
      let result1 := fold_left qtresult_add items result in
      if negb is_leaf then
        qtnode_collect_all se
          (qtnode_collect_all sw
             (qtnode_collect_all ne (qtnode_collect_all nw result1)))
      else result1
  end.

Definition quadtree_init (bounds : MBR) (node_capacity : nat) (max_depth : Z)
  : QTError * QuadTree D :=
  let cap := if (0 <? node_capacity)%nat then node_capacity
             else QT_DEFAULT_CAPACITY in
  let md := if (0 <? max_depth)%Z then max_depth else QT_MAX_DEPTH in
  (QT_OK, mkQuadTree (qtnode_create bounds cap 0) 0 cap md).

(** Returns the new tree; [None] would be the null pointer of a failed
    allocation. *)
Definition quadtree_create (bounds : MBR) (node_capacity : nat) (max_depth : Z)
  : option (QuadTree D) :=
  Some (snd (quadtree_init bounds node_capacity max_depth)).

Definition qtnode_is_null (node : QTNode D) : bool :=
  match node with QTNull => true | _ => false end.

Definition quadtree_insert_with_centroid (qt : QuadTree D) (id : Z)
  (bounds : MBR) (centroid : Point) (data : option D)
  : option (QTError * QuadTree D) :=
  if qtnode_is_null (qt_root qt) then Some (QT_ERR_NULL_PTR, qt)
  else
    let item := mkQTItem id bounds centroid data in
    match qtnode_insert (qtnode_fuel (qt_root qt) (qt_max_depth qt))
                        (qt_root qt) item (qt_node_capacity qt) (qt_max_depth qt) with
    | None => None
    | Some (err, root') =>
        Some (err,
              mkQuadTree root'
                (match err with
                 | QT_OK => (qt_total_items qt + 1)%nat
                 | _ => qt_total_items qt
                 end)
                (qt_node_capacity qt) (qt_max_depth qt))
    end.

Definition quadtree_insert (qt : QuadTree D) (id : Z) (bounds : MBR)
  (data : option D) : option (QTError * QuadTree D) :=
  quadtree_insert_with_centroid qt id bounds (mbr_centroid bounds) data.

Definition quadtree_remove (qt : QuadTree D) (id : Z) : QTError * QuadTree D :=
  if qtnode_is_null (qt_root qt) then (QT_ERR_NULL_PTR, qt)
  else
    let '(removed, root') := qtnode_remove (qt_root qt) id in
    if removed
    then (QT_OK, mkQuadTree root' (qt_total_items qt - 1)
                            (qt_node_capacity qt) (qt_max_depth qt))
    else (QT_ERR_NOT_FOUND, mkQuadTree root' (qt_total_items qt)
                                       (qt_node_capacity qt) (qt_max_depth qt)).

Definition quadtree_query_range (qt : QuadTree D) (range : MBR)
  (result : QTQueryResult) : QTError * QTQueryResult :=
  (QT_OK, qtnode_query_range (qt_root qt) range (qtresult_clear result)).

Definition quadtree_get_all (qt : QuadTree D) (result : QTQueryResult)
  : QTError * QTQueryResult :=
  (QT_OK, qtnode_collect_all (qt_root qt) (qtresult_clear result)).

Definition quadtree_get (qt : QuadTree D) (id : Z) : QTError * option (QTItem D) :=
  match qtnode_find (qt_root qt) id with
  | None => (QT_ERR_NOT_FOUND, None)
  | Some it => (QT_OK, Some it)
  end.

Definition quadtree_find_adjacent_to_region (qt : QuadTree D) (region : MBR)
  (result : QTQueryResult) : QTError * QTQueryResult :=
  let result0 := qtresult_clear result in
  let dx0 := fmul (fsub (max_x region) (min_x region)) (literal 1 100) in
  let dy0 := fmul (fsub (max_y region) (min_y region)) (literal 1 100) in
  let dx := if Qcltb dx0 (literal 1 1000000) then literal 1 1000000 else dx0 in
  let dy := if Qcltb dy0 (literal 1 1000000) then literal 1 1000000 else dy0 in
  let expanded := mbr_create (fsub (min_x region) dx) (fsub (min_y region) dy)
                             (fadd (max_x region) dx) (fadd (max_y region) dy) in
  let all_intersecting := qtnode_query_range (qt_root qt) expanded [] in
  (QT_OK,
   fold_left
     (fun res it =>
        if mbr_adjacent_or_intersects (qi_bounds it) region
        then qtresult_add res it else res)
     all_intersecting result0).

End QuadTreeOps.

(** ** page.h *)

Definition PAGE_SIZE : nat := 4096.
Definition PAGES_PER_TRACK : nat := 16.
Definition MAX_OBJECTS_PER_PAGE : nat := 64.

Definition PAGE_STATUS_FREE : Z := 0.
Definition PAGE_STATUS_ALLOCATED : Z := 1.
Definition PAGE_STATUS_FULL : Z := 2.
Definition PAGE_STATUS_DIRTY : Z := 4.
Definition PAGE_STATUS_PINNED : Z := 8.

(** [Page] with its [PageHeader] inlined.  [pg_objects] is the first
    [header.object_count] entries of the [objects] array, so that
    [header.object_count] is [length pg_objects]. *)
Record Page := mkPage {
  pg_page_id : Z;
  pg_track_id : Z;
  pg_flags : Z;
  pg_extent : MBR;
  pg_centroid : Point;
  pg_checksum : Z;
  pg_objects : list SpatialObject;
  pg_object_capacity : nat;
  pg_in_memory : bool
}.

Definition pg_object_count (page : Page) : nat := length (pg_objects page).

(** [DiskTrack]; [tr_pages] holds [Page*] values, as indices into the pool. *)
Record DiskTrack := mkDiskTrack {
  tr_track_id : Z;
  tr_pages : list nat;
  tr_page_capacity : nat;
  tr_extent : MBR;
  tr_centroid : Point;
  tr_is_full : bool
}.

Record PagePool := mkPagePool {
  pool_pages : list Page;
  pool_tracks : list DiskTrack;
  pool_next_page_id : Z;
  pool_next_track_id : Z
}.

Inductive PageError :=
| PAGE_OK
| PAGE_ERR_NULL_PTR
| PAGE_ERR_ALLOC
| PAGE_ERR_FULL
| PAGE_ERR_NOT_FOUND
| PAGE_ERR_IO
| PAGE_ERR_CORRUPT
| PAGE_ERR_INVALID_ID.

(** ** page.c: pages *)

Definition FNV_OFFSET : Z := 14695981039346656037.
Definition FNV_PRIME : Z := 1099511628211.

Definition fnv1a_hash (bytes : list Z) : Z :=
  fold_left (fun hash b => u64_wrap (Z.lxor hash b * FNV_PRIME)) bytes FNV_OFFSET.

(** The [w] bytes of an unsigned integer, least significant first. *)
Fixpoint le_bytes (w : nat) (v : Z) : list Z :=
  match w with
  | O => []
  | S w' => (v mod 256)%Z :: le_bytes w' (v / 256)%Z
  end.

Definition set_flag (flags flag : Z) : Z := Z.lor flags flag.
Definition clear_flag (flags flag : Z) : Z := Z.land flags (Z.lnot flag).
Definition has_flag (flags flag : Z) : bool := negb (Z.land flags flag =? 0)%Z.

Section PageOps.
(** The object representation of a [double], as a 64-bit unsigned integer;
    only [page_checksum] looks at it. *)
Variable double_bits : Qc -> Z.

Definition page_create (page_id track_id : Z) : Page :=
  mkPage page_id track_id PAGE_STATUS_ALLOCATED mbr_empty (point_create 0 0) 0
         [] MAX_OBJECTS_PER_PAGE true.

Definition page_checksum (page : Page) : Z :=
  let hash0 := fnv1a_hash (le_bytes 4 (pg_page_id page)) in
  let hash1 := Z.lxor hash0 (fnv1a_hash (le_bytes 4 (pg_track_id page))) in
  let hash2 :=
    Z.lxor hash1 (fnv1a_hash (le_bytes 4 (Z.of_nat (pg_object_count page)))) in
  fold_left
    (fun hash obj =>
       Z.lxor
         (Z.lxor hash (fnv1a_hash (le_bytes 8 (so_id obj))))
         (fnv1a_hash (le_bytes 8 (double_bits (pt_x (so_centroid obj))) ++
                      le_bytes 8 (double_bits (pt_y (so_centroid obj))))))
    (pg_objects page) hash2.

Definition page_verify (page : Page) : bool :=
  (pg_checksum page =? page_checksum page)%Z.

Definition page_add_object (page : Page) (obj : SpatialObject) : PageError * Page :=
  if (pg_object_capacity page <=? pg_object_count page)%nat then (PAGE_ERR_FULL, page)
  else
    let objects' := pg_objects page ++ [spatial_object_copy obj] in
    let flags1 := set_flag (pg_flags page) PAGE_STATUS_DIRTY in
    let extent' := mbr_expand_mbr (pg_extent page) (so_mbr obj) in
    let flags2 :=
      if (pg_object_capacity page <=? length objects')%nat
      then set_flag flags1 PAGE_STATUS_FULL else flags1 in
    (PAGE_OK,
     mkPage (pg_page_id page) (pg_track_id page) flags2 extent' (pg_centroid page)
            (pg_checksum page) objects' (pg_object_capacity page)
            (pg_in_memory page)).

Definition page_update_derived (page : Page) : Page :=
  let extent' :=
    fold_left (fun e obj => mbr_expand_mbr e (so_mbr obj)) (pg_objects page)
              mbr_empty in
  let '(cx, cy) :=
    fold_left (fun '(cx, cy) obj =>
                 (fadd cx (pt_x (so_centroid obj)), fadd cy (pt_y (so_centroid obj))))
              (pg_objects page) (0, 0) in
  let centroid' :=
    if (0 <? pg_object_count page)%nat
    then mkPoint (fdiv cx (Qc_of_nat (pg_object_count page)))
                 (fdiv cy (Qc_of_nat (pg_object_count page)))
    else pg_centroid page in
  let page1 :=
    mkPage (pg_page_id page) (pg_track_id page) (pg_flags page) extent' centroid'
           (pg_checksum page) (pg_objects page) (pg_object_capacity page)
           (pg_in_memory page) in
  mkPage (pg_page_id page1) (pg_track_id page1) (pg_flags page1) (pg_extent page1)
         (pg_centroid page1) (page_checksum page1) (pg_objects page1)
         (pg_object_capacity page1) (pg_in_memory page1).

(** Slot of the first object with the given id: the [&page->objects[i]] that
    [page_find_object] returns. *)
Fixpoint find_object_index (objects : list SpatialObject) (object_id : Z)
  : option nat :=
  match objects with
  | [] => None
  | obj :: rest =>
      if (so_id obj =? object_id)%Z then Some 0%nat
      else option_map S (find_object_index rest object_id)
  end.

Definition page_find_object (page : Page) (object_id : Z) : option nat :=
  find_object_index (pg_objects page) object_id.

Definition page_remove_object (page : Page) (object_id : Z) : PageError * Page :=
  match find_object_index (pg_objects page) object_id with
  | Some i =>
      let objects' := take i (pg_objects page) ++ drop (i + 1) (pg_objects page) in
      let flags' :=
        clear_flag (set_flag (pg_flags page) PAGE_STATUS_DIRTY) PAGE_STATUS_FULL in
      (PAGE_OK,
       page_update_derived
         (mkPage (pg_page_id page) (pg_track_id page) flags' (pg_extent page)
                 (pg_centroid page) (pg_checksum page) objects'
                 (pg_object_capacity page) (pg_in_memory page)))
  | None => (PAGE_ERR_NOT_FOUND, page)
  end.

Definition page_is_full (page : Page) : bool :=
  (pg_object_capacity page <=? pg_object_count page)%nat.

(** ** page.c: tracks and the pool

    [track_add_page] and [track_update_derived] take a track and read or
    write pages through the track's pointers; here they take the pool that
    owns both and the indices of the track and of the page. *)

Definition track_create (track_id : Z) : DiskTrack :=
  mkDiskTrack track_id [] PAGES_PER_TRACK mbr_empty (point_create 0 0) false.

Definition track_update_derived_on (pages : list Page) (track : DiskTrack)
  : DiskTrack :=
  let '(extent', cx, cy, valid_pages) :=
    fold_left
      (fun '(e, cx, cy, valid_pages) pi =>
         match pages !! pi with
         | None => (e, cx, cy, valid_pages)
         | Some page =>
             let e' := mbr_expand_mbr e (pg_extent page) in
             if negb (mbr_is_empty (pg_extent page))
             then (e', fadd cx (pt_x (pg_centroid page)),
                   fadd cy (pt_y (pg_centroid page)),
                   (valid_pages + 1)%nat)
             else (e', cx, cy, valid_pages)
         end)
      (tr_pages track) (mbr_empty, 0, 0, 0%nat) in
  mkDiskTrack (tr_track_id track) (tr_pages track) (tr_page_capacity track)
              extent'
              (if (0 <? valid_pages)%nat
               then mkPoint (fdiv cx (Qc_of_nat valid_pages))
                            (fdiv cy (Qc_of_nat valid_pages))
               else tr_centroid track)
              (tr_is_full track).

Definition track_update_derived (pool : PagePool) (ti : nat) : PagePool :=
  mkPagePool (pool_pages pool)
             (alter (track_update_derived_on (pool_pages pool)) ti (pool_tracks pool))
             (pool_next_page_id pool) (pool_next_track_id pool).

Definition set_page_track_id (track_id : Z) (page : Page) : Page :=
  mkPage (pg_page_id page) track_id (pg_flags page) (pg_extent page)
         (pg_centroid page) (pg_checksum page) (pg_objects page)
         (pg_object_capacity page) (pg_in_memory page).

Definition track_add_page (pool : PagePool) (ti pi : nat) : PageError * PagePool :=
  match pool_tracks pool !! ti with
  | None => (PAGE_ERR_NULL_PTR, pool)
  | Some track =>
      if (tr_page_capacity track <=? length (tr_pages track))%nat
      then (PAGE_ERR_FULL, pool)
      else
        let pages' := tr_pages track ++ [pi] in
        let track' :=
          mkDiskTrack (tr_track_id track) pages' (tr_page_capacity track)
                      (tr_extent track) (tr_centroid track)
                      (if (tr_page_capacity track <=? length pages')%nat then true
                       else tr_is_full track) in
        let pool1 :=
          mkPagePool (alter (set_page_track_id (tr_track_id track)) pi (pool_pages pool))
                     (<[ti := track']> (pool_tracks pool))
                     (pool_next_page_id pool) (pool_next_track_id pool) in
        (PAGE_OK, track_update_derived pool1 ti)
  end.

Definition track_has_space (track : DiskTrack) : bool :=
  (length (tr_pages track) <? tr_page_capacity track)%nat.

Definition page_pool_init : PagePool := mkPagePool [] [] 1 1.

(** Index of the first element satisfying [f]. *)
Fixpoint find_index {A : Type} (f : A -> bool) (l : list A) : option nat :=
  match l with
  | [] => None
  | a :: rest => if f a then Some 0%nat else option_map S (find_index f rest)
  end.

Definition page_pool_get (pool : PagePool) (page_id : Z) : option nat :=
  find_index (fun page => (pg_page_id page =? page_id)%Z) (pool_pages pool).

Definition page_pool_get_track (pool : PagePool) (track_id : Z) : option nat :=
  find_index (fun track => (tr_track_id track =? track_id)%Z) (pool_tracks pool).

(** Returns the pool and the new page. *)
Definition page_pool_alloc (pool : PagePool) (track_id : Z) : PagePool * nat :=
  let page := page_create (pool_next_page_id pool) track_id in
  let pi := length (pool_pages pool) in
  let pool1 :=
    mkPagePool (pool_pages pool ++ [page]) (pool_tracks pool)
               (u32_wrap (pool_next_page_id pool + 1)) (pool_next_track_id pool) in
  if (0 <? track_id)%Z then
    match page_pool_get_track pool1 track_id with
    | Some ti => (snd (track_add_page pool1 ti pi), pi)
    | None => (pool1, pi)
    end
  else (pool1, pi).

(** Returns the pool and the new track. *)
Definition page_pool_create_track (pool : PagePool) : PagePool * nat :=
  let track := track_create (pool_next_track_id pool) in
  (mkPagePool (pool_pages pool) (pool_tracks pool ++ [track])
              (pool_next_page_id pool) (u32_wrap (pool_next_track_id pool + 1)),
   length (pool_tracks pool)).



Definition page_pool_total_objects (pool : PagePool) : nat :=
  fold_left (fun n page => (n + pg_object_count page)%nat) (pool_pages pool) 0%nat.

End PageOps.

(** ** page.c: the LRU page cache

    The cache is a web of [PageRef] nodes linked through [next]/[prev], so
    it is modelled at the level of pointers: [pc_refs] is the heap of live
    [PageRef] nodes by address, [calloc] returns the fresh address
    [pc_next_addr], and [free] removes the node from the heap.  The C
    [cache->pool] pointer aliases the pool of the disk manager: the
    operations take that pool as an argument.  The loops that follow
    pointers take [fuel]; reading through a pointer that is not live is
    [Fault]. *)

Record PageRef := mkPageRef {
  ref_page_id : Z;
  ref_access_count : Z;
  ref_last_access : Z;
  ref_next : option nat;
  ref_prev : option nat
}.

Record PageCache := mkPageCache {
  pc_head : option nat;
  pc_tail : option nat;
  pc_hash_table : list (option nat);
  pc_hash_size : nat;
  pc_count : nat;
  pc_capacity : nat;
  pc_refs : gmap nat PageRef;
  pc_next_addr : nat
}.

Inductive Outcome (A : Type) : Type :=
| Done (a : A)
| OutOfFuel
| Fault.
Arguments Done {A} _.
Arguments OutOfFuel {A}.
Arguments Fault {A}.

Definition page_hash (page_id : Z) (hash_size : nat) : nat :=
  Z.to_nat (page_id mod Z.of_nat hash_size).

Definition ref_set_next (v : option nat) (r : PageRef) : PageRef :=
  mkPageRef (ref_page_id r) (ref_access_count r) (ref_last_access r) v (ref_prev r).

Definition ref_set_prev (v : option nat) (r : PageRef) : PageRef :=
  mkPageRef (ref_page_id r) (ref_access_count r) (ref_last_access r) (ref_next r) v.

(** [if (p) p->next = v;] and [if (p) p->prev = v;] *)
Definition store_next (p : option nat) (v : option nat) (refs : gmap nat PageRef)
  : gmap nat PageRef :=
  match p with Some a => alter (ref_set_next v) a refs | None => refs end.

Definition store_prev (p : option nat) (v : option nat) (refs : gmap nat PageRef)
  : gmap nat PageRef :=
  match p with Some a => alter (ref_set_prev v) a refs | None => refs end.

Definition ptr_eqb (a b : option nat) : bool :=
  match a, b with
  | Some x, Some y => (x =? y)%nat
  | None, None => true
  | _, _ => false
  end.

Definition page_cache_init (capacity : nat) : PageError * PageCache :=
  let cap := if (0 <? capacity)%nat then capacity else 64%nat in
  (PAGE_OK, mkPageCache None None (replicate (cap * 2) None) (cap * 2) 0 cap ∅ 1).

(** The lookup loop of [page_cache_get]: [while (ref) { if (ref->page_id ==
    page_id) ...; ref = ref->next; }], returning the node found. *)
Fixpoint cache_lookup (fuel : nat) (refs : gmap nat PageRef) (ref : option nat)
  (page_id : Z) : Outcome (option nat) :=
  match fuel with
  | O => OutOfFuel
  | S fuel' =>
      match ref with
      | None => Done None
      | Some a =>
          match refs !! a with
          | None => Fault
          | Some r =>
              if (ref_page_id r =? page_id)%Z then Done (Some a)
              else cache_lookup fuel' refs (ref_next r) page_id
          end
      end
  end.

(** The loop of [page_cache_evict] that unhooks [victim] from its hash
    chain: [pp] is either the bucket [&hash_table[idx]] ([inl idx]) or the
    [next] field of a node ([inr a]). *)
Fixpoint hash_unhook (fuel : nat) (cache : PageCache) (pp : nat + nat)
  (victim : nat) (victim_next : option nat) : Outcome PageCache :=
  match fuel with
  | O => OutOfFuel
  | S fuel' =>
      let read : Outcome (option nat) :=
        match pp with
        | inl idx =>
            match pc_hash_table cache !! idx with
            | Some v => Done v
            | None => Fault
            end
        | inr a =>
            match pc_refs cache !! a with
            | Some r => Done (ref_next r)
            | None => Fault
            end
        end in
      match read with
      | Done None => Done cache
      | Done (Some cur) =>
          if (cur =? victim)%nat then
            Done
              (match pp with
               | inl idx =>
                   mkPageCache (pc_head cache) (pc_tail cache)
                               (<[idx := victim_next]> (pc_hash_table cache))
                               (pc_hash_size cache) (pc_count cache)
                               (pc_capacity cache) (pc_refs cache)
                               (pc_next_addr cache)
               | inr a =>
                   mkPageCache (pc_head cache) (pc_tail cache) (pc_hash_table cache)
                               (pc_hash_size cache) (pc_count cache)
                               (pc_capacity cache)
                               (alter (ref_set_next victim_next) a (pc_refs cache))
                               (pc_next_addr cache)
               end)
          else hash_unhook fuel' cache (inr cur) victim victim_next
      | OutOfFuel => OutOfFuel
      | Fault => Fault
      end
  end.

Definition page_is_pinned (pool : PagePool) (page : option nat) : bool :=
  match page with
  | None => false
  | Some pi =>
      match pool_pages pool !! pi with
      | Some p => has_flag (pg_flags p) PAGE_STATUS_PINNED
      | None => false
      end
  end.

(** [page_cache_evict]: the loop [while (evicted < count && cache->tail)].
    Each iteration starts from [victim = cache->tail]. *)
Fixpoint page_cache_evict_loop (fuel : nat) (cache : PageCache) (pool : PagePool)
  (count evicted : nat) : Outcome PageCache :=
  match fuel with
  | O => OutOfFuel
  | S fuel' =>
      if negb (evicted <? count)%nat then Done cache
      else
        match pc_tail cache with
        | None => Done cache
        | Some victim =>
            match pc_refs cache !! victim with
            | None => Fault
            | Some v =>
                let page := page_pool_get pool (ref_page_id v) in
                if page_is_pinned pool page then
                  (* victim = victim->prev; continue; *)
                  page_cache_evict_loop fuel' cache pool count evicted
                else
                  let refs1 := store_next (ref_prev v) (ref_next v) (pc_refs cache) in
                  let refs2 := store_prev (ref_next v) (ref_prev v) refs1 in
                  let head' := if ptr_eqb (Some victim) (pc_head cache)
                               then ref_next v else pc_head cache in
                  let tail' := ref_prev v in
                  let cache1 :=
                    mkPageCache head' tail' (pc_hash_table cache)
                                (pc_hash_size cache) (pc_count cache)
                                (pc_capacity cache) refs2 (pc_next_addr cache) in
                  let idx := page_hash (ref_page_id v) (pc_hash_size cache) in
                  match hash_unhook fuel' cache1 (inl idx) victim (ref_next v) with
                  | Done cache2 =>
                      let cache3 :=
                        mkPageCache (pc_head cache2) (pc_tail cache2)
                                    (pc_hash_table cache2) (pc_hash_size cache2)
                                    (pc_count cache2 - 1) (pc_capacity cache2)
                                    (delete victim (pc_refs cache2))
                                    (pc_next_addr cache2) in
                      page_cache_evict_loop fuel' cache3 pool count (evicted + 1)
                  | OutOfFuel => OutOfFuel
                  | Fault => Fault
                  end
            end
        end
  end.

Definition page_cache_evict (fuel : nat) (cache : PageCache) (pool : PagePool)
  (count : nat) : Outcome (PageError * PageCache) :=
  match page_cache_evict_loop fuel cache pool count 0 with
  | Done cache' => Done (PAGE_OK, cache')
  | OutOfFuel => OutOfFuel
  | Fault => Fault
  end.

(** [page_cache_get]; [now] is the value [get_timestamp()] returns during
    the call.  Returns the cache and the [Page*] result. *)
Definition page_cache_get (fuel : nat) (cache : PageCache) (pool : PagePool)
  (page_id : Z) (now : Z) : Outcome (PageCache * option nat) :=
  let idx := page_hash page_id (pc_hash_size cache) in
  match pc_hash_table cache !! idx with
  | None => Fault
  | Some bucket =>
      match cache_lookup fuel (pc_refs cache) bucket page_id with
      | OutOfFuel => OutOfFuel
      | Fault => Fault
      | Done (Some a) =>
          match pc_refs cache !! a with
          | None => Fault
          | Some r =>
              let cache1 :=
                if negb (ptr_eqb (Some a) (pc_head cache)) then
                  let refs1 := store_next (ref_prev r) (ref_next r) (pc_refs cache) in
                  let refs2 := store_prev (ref_next r) (ref_prev r) refs1 in
                  let tail' := if ptr_eqb (Some a) (pc_tail cache)
                               then ref_prev r else pc_tail cache in
                  let refs3 :=
                    alter (fun r => ref_set_next (pc_head cache) (ref_set_prev None r))
                          a refs2 in
                  let refs4 := store_prev (pc_head cache) (Some a) refs3 in
                  mkPageCache (Some a) tail' (pc_hash_table cache)
                              (pc_hash_size cache) (pc_count cache)
                              (pc_capacity cache) refs4 (pc_next_addr cache)
                else cache in
              let refs5 :=
                alter (fun r => mkPageRef (ref_page_id r)
                                          (u32_wrap (ref_access_count r + 1)) now
                                          (ref_next r) (ref_prev r))
                      a (pc_refs cache1) in
              Done (mkPageCache (pc_head cache1) (pc_tail cache1)
                                (pc_hash_table cache1) (pc_hash_size cache1)
                                (pc_count cache1) (pc_capacity cache1) refs5
                                (pc_next_addr cache1),
                    page_pool_get pool page_id)
          end
      | Done None =>
          match page_pool_get pool page_id with
          | None => Done (cache, None)
          | Some page =>
              let evicted :=
                if (pc_capacity cache <=? pc_count cache)%nat
                then page_cache_evict fuel cache pool 1
                else Done (PAGE_OK, cache) in
              match evicted with
              | OutOfFuel => OutOfFuel
              | Fault => Fault
              | Done (_, cache1) =>
                  let a := pc_next_addr cache1 in
                  (* ref->next = cache->hash_table[idx] is overwritten by
                     ref->next = cache->head just below *)
                  let ref := mkPageRef page_id 1 now (pc_head cache1) None in
                  let refs1 := <[a := ref]> (pc_refs cache1) in
                  let refs2 := store_prev (pc_head cache1) (Some a) refs1 in
                  Done (mkPageCache (Some a)
                                    (match pc_tail cache1 with
                                     | None => Some a
                                     | Some t => Some t
                                     end)
                                    (<[idx := Some a]> (pc_hash_table cache1))
                                    (pc_hash_size cache1) (pc_count cache1 + 1)
                                    (pc_capacity cache1) refs2 (S a),
                        Some page)
              end
          end
      end
  end.

Definition alter_page_flags (f : Z -> Z) (page : Page) : Page :=
  mkPage (pg_page_id page) (pg_track_id page) (f (pg_flags page)) (pg_extent page)
         (pg_centroid page) (pg_checksum page) (pg_objects page)
         (pg_object_capacity page) (pg_in_memory page).

Definition pool_alter_page (f : Page -> Page) (pi : nat) (pool : PagePool)
  : PagePool :=
  mkPagePool (alter f pi (pool_pages pool)) (pool_tracks pool)
             (pool_next_page_id pool) (pool_next_track_id pool).

Definition page_cache_pin (pool : PagePool) (page_id : Z) : PageError * PagePool :=
  match page_pool_get pool page_id with
  | None => (PAGE_ERR_NOT_FOUND, pool)
  | Some pi =>
      (PAGE_OK,
       pool_alter_page (alter_page_flags (fun fl => set_flag fl PAGE_STATUS_PINNED))
                       pi pool)
  end.

Definition page_cache_unpin (pool : PagePool) (page_id : Z) : PageError * PagePool :=
  match page_pool_get pool page_id with
  | None => (PAGE_ERR_NOT_FOUND, pool)
  | Some pi =>
      (PAGE_OK,
       pool_alter_page (alter_page_flags (fun fl => clear_flag fl PAGE_STATUS_PINNED))
                       pi pool)
  end.

Definition page_cache_mark_dirty (pool : PagePool) (page_id : Z)
  : PageError * PagePool :=
  match page_pool_get pool page_id with
  | None => (PAGE_ERR_NOT_FOUND, pool)
  | Some pi =>
      (PAGE_OK,
       pool_alter_page (alter_page_flags (fun fl => set_flag fl PAGE_STATUS_DIRTY))
                       pi pool)
  end.

Definition page_cache_flush (pool : PagePool) : PageError * PagePool :=
  (PAGE_OK,
   mkPagePool
     (map (fun page =>
             if has_flag (pg_flags page) PAGE_STATUS_DIRTY
             then alter_page_flags (fun fl => clear_flag fl PAGE_STATUS_DIRTY) page
             else page)
          (pool_pages pool))
     (pool_tracks pool) (pool_next_page_id pool) (pool_next_track_id pool)).

(** ** disk_manager.h *)

Definition DM_DEFAULT_CACHE_SIZE : nat := 128.

Inductive AllocationStrategy :=
| ALLOC_NEAREST_TRACK
| ALLOC_NEW_TRACK
| ALLOC_BEST_FIT
| ALLOC_SEQUENTIAL.

Record DiskManagerConfig := mkDiskManagerConfig {
  dmc_cache_size : nat;
  dmc_page_size : nat;
  dmc_pages_per_track : nat;
  dmc_strategy : AllocationStrategy;
  dmc_use_mmap : bool;
  dmc_sync_on_write : bool
}.

(** The fields of [DiskFileHeader] that are touched outside file I/O. *)
Record DiskFileHeader := mkDiskFileHeader {
  fh_page_count : Z;
  fh_track_count : Z;
  fh_bounds : MBR
}.

(** [DiskManager] without its file handle, mapping and I/O statistics: no
    file is open in what follows.  [dm_allocation_tree] carries [Page*]
    payloads. *)
Record DiskManager := mkDiskManager {
  dm_config : DiskManagerConfig;
  dm_header : DiskFileHeader;
  dm_pool : PagePool;
  dm_cache : PageCache;
  dm_allocation_tree : KDTree nat;
  dm_is_open : bool;
  dm_is_dirty : bool
}.

Inductive DMError :=
| DM_OK
| DM_ERR_NULL_PTR
| DM_ERR_ALLOC
| DM_ERR_IO
| DM_ERR_NOT_FOUND
| DM_ERR_FULL
| DM_ERR_CORRUPT
| DM_ERR_VERSION
| DM_ERR_NOT_OPEN.

(** ** disk_manager.c *)

Section DiskManagerOps.
Variable sqrt : Qc -> Qc.

Definition disk_manager_default_config : DiskManagerConfig :=
  mkDiskManagerConfig DM_DEFAULT_CACHE_SIZE PAGE_SIZE PAGES_PER_TRACK
                      ALLOC_BEST_FIT false false.

Definition disk_manager_init (config : option DiskManagerConfig)
  : DMError * DiskManager :=
  let cfg := match config with
             | Some c => c
             | None => disk_manager_default_config
             end in
  (DM_OK,
   mkDiskManager cfg (mkDiskFileHeader 0 0 (mkMBR 0 0 0 0)) page_pool_init
                 (snd (page_cache_init (dmc_cache_size cfg))) kdtree_init
                 false false).

Definition dm_set_pool (dm : DiskManager) (pool : PagePool) : DiskManager :=
  mkDiskManager (dm_config dm) (dm_header dm) pool (dm_cache dm)
                (dm_allocation_tree dm) (dm_is_open dm) (dm_is_dirty dm).

Definition dm_set_allocation_tree (dm : DiskManager) (t : KDTree nat)
  : DiskManager :=
  mkDiskManager (dm_config dm) (dm_header dm) (dm_pool dm) (dm_cache dm) t
                (dm_is_open dm) (dm_is_dirty dm).

(** The two scanning strategies keep [(best, best_value)] over the tracks
    in pool order. *)
Definition best_track_scan (score : DiskTrack -> Qc) (tracks : list DiskTrack)
  : option nat :=
  fst
    (fold_left
       (fun '(best, best_value) '(ti, track) =>
          if negb (track_has_space track) then (best, best_value)
          else
            let v := score track in
            if Qcltb v best_value then (Some ti, v) else (best, best_value))
       (imap (fun ti track => (ti, track)) tracks) (None, DBL_MAX)).

Definition disk_manager_find_best_track (dm : DiskManager) (centroid : Point)
  : option nat :=
  let tracks := pool_tracks (dm_pool dm) in
  match dmc_strategy (dm_config dm) with
  | ALLOC_NEAREST_TRACK =>
      best_track_scan (fun track => point_distance sqrt centroid (tr_centroid track))
                      tracks
  | ALLOC_BEST_FIT =>
      best_track_scan
        (fun track =>
           let expanded := mbr_expand_point (tr_extent track) centroid in
           fsub (mbr_area expanded) (mbr_area (tr_extent track)))
        tracks
  | ALLOC_SEQUENTIAL =>
      if (0 <? length tracks)%nat then
        match tracks !! (length tracks - 1)%nat with
        | Some last => if track_has_space last then Some (length tracks - 1)%nat
                       else None
        | None => None
        end
      else None
  | ALLOC_NEW_TRACK => None
  end.

(** Returns the manager and the new track. *)
Definition disk_manager_create_track (dm : DiskManager) : DiskManager * nat :=
  let '(pool', ti) := page_pool_create_track (dm_pool dm) in
  (mkDiskManager (dm_config dm)
                 (mkDiskFileHeader (fh_page_count (dm_header dm))
                                   (u32_wrap (fh_track_count (dm_header dm) + 1))
                                   (fh_bounds (dm_header dm)))
                 pool' (dm_cache dm) (dm_allocation_tree dm) (dm_is_open dm) true,
   ti).

(** [update_allocation_tree]: the page's centroid goes into the tree with
    the page as payload. *)
Definition update_allocation_tree (dm : DiskManager) (pi : nat)
  : KDError * DiskManager :=
  match pool_pages (dm_pool dm) !! pi with
  | None => (KD_ERR_NULL_PTR, dm)
  | Some page =>
      let '(err, t) := kdtree_insert (dm_allocation_tree dm) (pg_centroid page)
                                     (pg_page_id page) (Some pi) in
      (err, dm_set_allocation_tree dm t)
  end.

Definition set_page_centroid (c : Point) (page : Page) : Page :=
  mkPage (pg_page_id page) (pg_track_id page) (pg_flags page) (pg_extent page) c
         (pg_checksum page) (pg_objects page) (pg_object_capacity page)
         (pg_in_memory page).

(** Returns the manager and the new page. *)
Definition disk_manager_alloc_page (dm : DiskManager) (centroid : Point)
  : DiskManager * nat :=
  let found := disk_manager_find_best_track dm centroid in
  let usable :=
    match found with
    | Some ti =>
        match pool_tracks (dm_pool dm) !! ti with
        | Some track => if track_has_space track then Some ti else None
        | None => None
        end
    | None => None
    end in
  let '(dm1, ti) :=
    match usable with
    | Some ti => (dm, ti)
    | None => disk_manager_create_track dm
    end in
  let track_id :=
    match pool_tracks (dm_pool dm1) !! ti with
    | Some track => tr_track_id track
    | None => 0%Z
    end in
  let '(pool2, pi) := page_pool_alloc (dm_pool dm1) track_id in
  let pool3 := pool_alter_page (set_page_centroid centroid) pi pool2 in
  let pool4 := snd (track_add_page pool3 ti pi) in
  let dm4 := dm_set_pool dm1 pool4 in
  let dm5 := snd (update_allocation_tree dm4 pi) in
  (mkDiskManager (dm_config dm5)
                 (mkDiskFileHeader (u32_wrap (fh_page_count (dm_header dm5) + 1))
                                   (fh_track_count (dm_header dm5))
                                   (mbr_expand_point (fh_bounds (dm_header dm5))
                                                     centroid))
                 (dm_pool dm5) (dm_cache dm5) (dm_allocation_tree dm5)
                 (dm_is_open dm5) true,
   pi).

Definition disk_manager_rebuild_allocation_tree (dm : DiskManager)
  : DMError * DiskManager :=
  (DM_OK,
   dm_set_allocation_tree dm
     (fold_left
        (fun t '(pi, page) =>
           if (0 <? pg_object_count page)%nat
           then snd (kdtree_insert t (pg_centroid page) (pg_page_id page) (Some pi))
           else t)
        (imap (fun pi page => (pi, page)) (pool_pages (dm_pool dm)))
        kdtree_init)).

(** The loop of [disk_manager_estimate_seeks], with [(seeks, last_track)]
    as its state. *)
Definition estimate_seeks_step (pool : PagePool) (st : Z * Z) (page_id : Z)
  : Z * Z :=
  let '(seeks, last_track) := st in
  match page_pool_get pool page_id with
  | None => (seeks, last_track)
  | Some pi =>
      match pool_pages pool !! pi with
      | None => (seeks, last_track)
      | Some page =>
          ((if negb (pg_track_id page =? last_track)%Z && negb (last_track =? 0)%Z
            then u64_wrap (seeks + 1) else seeks),
           pg_track_id page)
      end
  end.

Definition disk_manager_estimate_seeks (dm : DiskManager) (page_ids : list Z)
  : Z :=
  if (length page_ids =? 0)%nat then 0%Z
  else fst (fold_left (estimate_seeks_step (dm_pool dm)) page_ids (0%Z, 0%Z)).

End DiskManagerOps.

(** ** spatial_index.h *)

Definition SI_DEFAULT_BLOCK_SIZE : nat := 1024.
Definition SI_DEFAULT_PAGE_CAPACITY : nat := 64.

Record SpatialIndexConfig := mkSpatialIndexConfig {
  sic_block_size : nat;
  sic_page_capacity : nat;
  sic_cache_size : nat;
  sic_build_quadtree : bool;
  sic_persist : bool
}.

(** [track] is a [DiskTrack*]. *)
Record SpatialBlock := mkSpatialBlock {
  sb_block_id : Z;
  sb_bounds : MBR;
  sb_centroid : Point;
  sb_track : option nat;
  sb_object_count : nat
}.

(** A [SpatialObject*] into a page of the pool: the page and the slot. *)
Definition ObjPtr : Type := nat * nat.

(** [SpatialQueryResult]: [sr_objects] is the first [count] entries of the
    [objects] array. *)
Record SpatialQueryResult := mkSpatialQueryResult {
  sr_objects : list ObjPtr;
  sr_pages_accessed : nat
}.

Record AdjacentPagesResult := mkAdjacentPagesResult {
  ap_pages : list (option nat);
  ap_track_ids : list Z
}.

(** [block_tree] carries [SpatialObject*] payloads, [page_tree] carries
    [Page*] payloads. *)
Record SpatialIndex := mkSpatialIndex {
  si_config : SpatialIndexConfig;
  si_block_tree : KDTree ObjPtr;
  si_page_tree : option (QuadTree nat);
  si_disk : DiskManager;
  si_blocks : list SpatialBlock;
  si_next_object_id : Z;
  si_next_block_id : Z;
  si_is_built : bool;
  si_bounds : MBR
}.

Inductive SIError :=
| SI_OK
| SI_ERR_NULL_PTR
| SI_ERR_ALLOC
| SI_ERR_NOT_BUILT
| SI_ERR_NOT_FOUND
| SI_ERR_FULL
| SI_ERR_IO
| SI_ERR_INVALID.

(** ** spatial_index.c *)

Definition spatial_result_init (capacity : nat) : SIError * SpatialQueryResult :=
  (SI_OK, mkSpatialQueryResult [] 0).

Definition spatial_result_clear (result : SpatialQueryResult) : SpatialQueryResult :=
  mkSpatialQueryResult [] 0.

Definition spatial_result_add (result : SpatialQueryResult) (obj : ObjPtr)
  : SpatialQueryResult :=
  mkSpatialQueryResult (sr_objects result ++ [obj]) (sr_pages_accessed result).

Definition spatial_index_default_config : SpatialIndexConfig :=
  mkSpatialIndexConfig SI_DEFAULT_BLOCK_SIZE SI_DEFAULT_PAGE_CAPACITY
                       DM_DEFAULT_CACHE_SIZE true false.

Definition si_set_disk (idx : SpatialIndex) (disk : DiskManager) : SpatialIndex :=
  mkSpatialIndex (si_config idx) (si_block_tree idx) (si_page_tree idx) disk
                 (si_blocks idx) (si_next_object_id idx) (si_next_block_id idx)
                 (si_is_built idx) (si_bounds idx).

Definition si_set_page_tree (idx : SpatialIndex) (t : option (QuadTree nat))
  : SpatialIndex :=
  mkSpatialIndex (si_config idx) (si_block_tree idx) t (si_disk idx)
                 (si_blocks idx) (si_next_object_id idx) (si_next_block_id idx)
                 (si_is_built idx) (si_bounds idx).

Definition si_set_is_built (idx : SpatialIndex) (b : bool) : SpatialIndex :=
  mkSpatialIndex (si_config idx) (si_block_tree idx) (si_page_tree idx)
                 (si_disk idx) (si_blocks idx) (si_next_object_id idx)
                 (si_next_block_id idx) b (si_bounds idx).

Definition si_pages (idx : SpatialIndex) : list Page :=
  pool_pages (dm_pool (si_disk idx)).

Definition find_page_for_object (idx : SpatialIndex) (object_id : Z)
  : option nat :=
  find_index (fun page => bool_decide (is_Some (page_find_object page object_id)))
             (si_pages idx).

Definition spatial_index_init (config : option SpatialIndexConfig)
  : SIError * SpatialIndex :=
  let cfg := match config with
             | Some c => c
             | None => spatial_index_default_config
             end in
  let dm_config :=
    mkDiskManagerConfig (sic_cache_size cfg)
                        (dmc_page_size disk_manager_default_config)
                        (dmc_pages_per_track disk_manager_default_config)
                        (dmc_strategy disk_manager_default_config)
                        (dmc_use_mmap disk_manager_default_config)
                        (dmc_sync_on_write disk_manager_default_config) in
  (SI_OK,
   mkSpatialIndex cfg kdtree_init None (snd (disk_manager_init (Some dm_config)))
                  [] 1 1 false mbr_empty).





Definition spatial_index_query_knn (idx : SpatialIndex) (p : Point) (k : nat)
  (result : SpatialQueryResult) : SIError * SpatialQueryResult :=
  if (k =? 0)%nat then (SI_OK, result)
  else
    let result0 := spatial_result_clear result in
    match kdtree_k_nearest (si_block_tree idx) p k [] with
    | (KD_OK, kd_result) =>
        (SI_OK,
         fold_left
           (fun res e =>
              match kpd_data e with
              | Some obj => spatial_result_add res obj
              | None => res
              end)
           kd_result result0)
    | (_, _) => (SI_ERR_NOT_FOUND, result0)
    end.

(** The object a stored pointer designates. *)
Definition deref_object (idx : SpatialIndex) (ptr : ObjPtr) : option SpatialObject :=
  match si_pages idx !! fst ptr with
  | Some page => pg_objects page !! snd ptr
  | None => None
  end.

Definition spatial_index_get (idx : SpatialIndex) (object_id : Z) : option ObjPtr :=
  match find_page_for_object idx object_id with
  | None => None
  | Some pi =>
      match si_pages idx !! pi with
      | None => None
      | Some page =>
          match page_find_object page object_id with
          | Some j => Some (pi, j)
          | None => None
          end
      end
  end.

Section SpatialIndexOps.
Variable sqrt : Qc -> Qc.
Variable double_bits : Qc -> Z.

(** Returns the index and the page chosen. *)
Definition get_page_for_insert (idx : SpatialIndex) (obj : SpatialObject)
  : SpatialIndex * nat :=
  let alloc :=
    let '(disk', pi) := disk_manager_alloc_page sqrt (si_disk idx) (so_centroid obj) in
    (si_set_disk idx disk', pi) in
  if (0 <? kd_size (dm_allocation_tree (si_disk idx)))%nat then
    match kdtree_nearest (dm_allocation_tree (si_disk idx)) (so_centroid obj) with
    | (KD_OK, Some (_, _, Some pi)) =>
        match si_pages idx !! pi with
        | Some page => if negb (page_is_full page) then (idx, pi) else alloc
        | None => alloc
        end
    | _ => alloc
    end
  else alloc.

Definition si_alter_page (f : Page -> Page) (pi : nat) (idx : SpatialIndex)
  : SpatialIndex :=
  si_set_disk idx (dm_set_pool (si_disk idx) (pool_alter_page f pi (dm_pool (si_disk idx)))).

(** [page_add_object(page, obj)] on a page of the pool. *)
Definition si_page_add_object (idx : SpatialIndex) (pi : nat) (obj : SpatialObject)
  : PageError * SpatialIndex :=
  match si_pages idx !! pi with
  | None => (PAGE_ERR_NULL_PTR, idx)
  | Some page =>
      let '(err, page') := page_add_object page obj in
      (err, si_alter_page (fun _ => page') pi idx)
  end.

(** The tail of [spatial_index_insert], once the object is in [page]. *)
Definition insert_finish (idx : SpatialIndex) (pi : nat) (obj : SpatialObject)
  : SpatialIndex :=
  let idx1 := si_alter_page (page_update_derived double_bits) pi idx in
  let idx2 :=
    si_set_disk idx1 (snd (disk_manager_rebuild_allocation_tree (si_disk idx1))) in
  mkSpatialIndex (si_config idx2) (si_block_tree idx2) (si_page_tree idx2)
                 (si_disk idx2) (si_blocks idx2) (si_next_object_id idx2)
                 (si_next_block_id idx2) false
                 (mbr_expand_mbr (si_bounds idx2) (so_mbr obj)).

(** Returns the error code, the index and the caller's object, which the
    call updates in place. *)
Definition spatial_index_insert (idx : SpatialIndex) (obj : SpatialObject)
  : SIError * SpatialIndex * SpatialObject :=
  let '(idx1, obj1) :=
    if (so_id obj =? 0)%Z
    then (mkSpatialIndex (si_config idx) (si_block_tree idx) (si_page_tree idx)
                         (si_disk idx) (si_blocks idx)
                         (u64_wrap (si_next_object_id idx + 1))
                         (si_next_block_id idx) (si_is_built idx) (si_bounds idx),
          set_id obj (si_next_object_id idx))
    else (idx, obj) in
  let obj2 := snd (spatial_object_update_derived sqrt obj1) in
  let '(idx2, pi) := get_page_for_insert idx1 obj2 in
  match si_page_add_object idx2 pi obj2 with
  | (PAGE_OK, idx3) => (SI_OK, insert_finish idx3 pi obj2, obj2)
  | (_, idx3) =>
      let '(disk4, pi') := disk_manager_alloc_page sqrt (si_disk idx3) (so_centroid obj2) in
      let idx4 := si_set_disk idx3 disk4 in
      match si_page_add_object idx4 pi' obj2 with
      | (PAGE_OK, idx5) => (SI_OK, insert_finish idx5 pi' obj2, obj2)
      | (_, idx5) => (SI_ERR_FULL, idx5, obj2)
      end
  end.

(** Returns the error code, the index and the caller's array. *)
Fixpoint spatial_index_bulk_insert (idx : SpatialIndex) (objects : list SpatialObject)
  : SIError * SpatialIndex * list SpatialObject :=
  match objects with
  | [] => (SI_OK, idx, [])
  | obj :: rest =>
      match spatial_index_insert idx obj with
      | (SI_OK, idx', obj') =>
          let '(err, idx'', rest') := spatial_index_bulk_insert idx' rest in
          (err, idx'', obj' :: rest')
      | (err, idx', obj') => (err, idx', obj' :: rest)
      end
  end.

Definition spatial_index_remove (idx : SpatialIndex) (object_id : Z)
  : SIError * SpatialIndex :=
  match find_page_for_object idx object_id with
  | None => (SI_ERR_NOT_FOUND, idx)
  | Some pi =>
      match si_pages idx !! pi with
      | None => (SI_ERR_NOT_FOUND, idx)
      | Some page =>
          match page_remove_object double_bits page object_id with
          | (PAGE_OK, page') =>
              let idx1 := si_alter_page (fun _ => page') pi idx in
              let idx2 := si_alter_page (page_update_derived double_bits) pi idx1 in
              let idx3 :=
                si_set_disk idx2
                  (snd (disk_manager_rebuild_allocation_tree (si_disk idx2))) in
              (SI_OK, si_set_is_built idx3 false)
          | (_, _) => (SI_ERR_NOT_FOUND, idx)
          end
      end
  end.

Definition create_block (idx : SpatialIndex) (bounds : MBR) : SpatialIndex :=
  let '(disk', ti) := disk_manager_create_track (si_disk idx) in
  let block := mkSpatialBlock (si_next_block_id idx) bounds (mbr_centroid bounds)
                              (Some ti) 0 in
  mkSpatialIndex (si_config idx) (si_block_tree idx) (si_page_tree idx) disk'
                 (si_blocks idx ++ [block]) (si_next_object_id idx)
                 (u32_wrap (si_next_block_id idx + 1)) (si_is_built idx)
                 (si_bounds idx).

(** [None] is "out of fuel" in a quadtree insertion. *)
Definition build_page_quadtree (idx : SpatialIndex) : option (SIError * SpatialIndex) :=
  if negb (sic_build_quadtree (si_config idx)) then Some (SI_OK, idx)
  else
    let idx1 := si_set_page_tree idx None in
    if (length (si_pages idx1) =? 0)%nat then Some (SI_OK, idx1)
    else
      match quadtree_create (si_bounds idx1) 8 QT_MAX_DEPTH with
      | None => Some (SI_ERR_ALLOC, idx1)
      | Some qt0 =>
          let filled :=
            fold_left
              (fun oqt '(pi, page) =>
                 match oqt with
                 | None => None
                 | Some qt =>
                     if (0 <? pg_object_count page)%nat then
                       option_map snd
                         (quadtree_insert_with_centroid qt (pg_page_id page)
                            (pg_extent page) (pg_centroid page) (Some pi))
                     else Some qt
                 end)
              (imap (fun pi page => (pi, page)) (si_pages idx1)) (Some qt0) in
          match filled with
          | None => None
          | Some qt => Some (SI_OK, si_set_page_tree idx1 (Some qt))
          end
      end.

(** The [points] array that [spatial_index_build] collects: one entry per
    stored object, pages in pool order. *)
Definition collect_points (pages : list Page) : list (KDPointData ObjPtr) :=
  concat
    (imap (fun pi page =>
             imap (fun j obj =>
                     mkKDPointData (so_centroid obj) (so_id obj) (Some (pi, j)))
                  (pg_objects page))
          pages).

Definition spatial_index_build (idx : SpatialIndex) : option (SIError * SpatialIndex) :=
  let total_objects := page_pool_total_objects (dm_pool (si_disk idx)) in
  if (total_objects =? 0)%nat then Some (SI_OK, si_set_is_built idx true)
  else
    let points := collect_points (si_pages idx) in
    let '(_, tree) := kdtree_bulk_load (kdtree_init (D := ObjPtr)) points in
    let '(_, block_bounds) := kdtree_partition tree (sic_block_size (si_config idx)) in
    let idx1 :=
      mkSpatialIndex (si_config idx) tree (si_page_tree idx) (si_disk idx) []
                     (si_next_object_id idx) (si_next_block_id idx)
                     (si_is_built idx) (si_bounds idx) in
    let idx2 := fold_left create_block block_bounds idx1 in
    match build_page_quadtree idx2 with
    | None => None
    | Some (SI_OK, idx3) => Some (SI_OK, si_set_is_built idx3 true)
    | Some (err, idx3) => Some (err, idx3)
    end.

Definition spatial_index_find_adjacent_pages (idx : SpatialIndex) (region : MBR)
  : option (SIError * SpatialIndex * AdjacentPagesResult) :=
  let empty := mkAdjacentPagesResult [] [] in
  let built :=
    match si_page_tree idx with
    | None => build_page_quadtree idx
    | Some _ => Some (SI_OK, idx)
    end in
  match built with
  | None => None
  | Some (SI_OK, idx1) =>
      match si_page_tree idx1 with
      | None => Some (SI_ERR_NOT_BUILT, idx1, empty)
      | Some qt =>
          let '(_, qt_result) := quadtree_find_adjacent_to_region qt region [] in
          if (length qt_result =? 0)%nat then Some (SI_OK, idx1, empty)
          else
            Some (SI_OK, idx1,
                  mkAdjacentPagesResult
                    (map qi_data qt_result)
                    (map (fun it =>
                            match qi_data it with
                            | Some pi =>
                                match si_pages idx1 !! pi with
                                | Some page => pg_track_id page
                                | None => 0%Z
                                end
                            | None => 0%Z
                            end)
                         qt_result))
      end
  | Some (err, idx1) => Some (err, idx1, empty)
  end.

End SpatialIndexOps.

(** ** page.c: serialization

    [page_serialize] and [page_deserialize] move object representations
    with [memcpy].  This part of the model therefore carries every scalar
    as the unsigned integer that its bytes spell, least significant byte
    first: a [uint32_t] or the [GeomType] enumeration as a 32-bit value, a
    [uint64_t] or a [double] as a 64-bit value.  A buffer is the list of
    its bytes and [buffer_size] is its length. *)

Record PointBits := mkPointBits { pb_x : Z; pb_y : Z }.

Record MBRBits := mkMBRBits {
  mb_min_x : Z; mb_min_y : Z; mb_max_x : Z; mb_max_y : Z
}.

Record PageHeaderBits := mkPageHeaderBits {
  hb_page_id : Z;
  hb_track_id : Z;
  hb_object_count : Z;
  hb_flags : Z;
  hb_extent : MBRBits;
  hb_centroid : PointBits;
  hb_checksum : Z
}.

(** The four fields of a [SpatialObject] that the page format stores;
    [ob_rest] stands for the rest of the structure (geometry payload and
    properties), which neither function touches. *)
Record ObjectBits := mkObjectBits {
  ob_id : Z;
  ob_type : Z;
  ob_centroid : PointBits;
  ob_mbr : MBRBits;
  ob_rest : list Z
}.

(** [pi_objects] is the whole [objects] array of the page
    ([object_capacity] slots), not only its first [object_count] entries. *)
Record PageImage := mkPageImage {
  pi_header : PageHeaderBits;
  pi_objects : list ObjectBits;
  pi_in_memory : bool
}.

(** The value that bytes spell, least significant first. *)
Definition le_value (bytes : list Z) : Z :=
  fold_right (fun b acc => (b + 256 * acc)%Z) 0%Z bytes.

(** [memcpy(buffer + offset, src, length src)] *)
Definition memcpy_to (buffer : list Z) (offset : nat) (src : list Z) : list Z :=
  take offset buffer ++ src ++ drop (offset + length src) buffer.

(** The [n] bytes at [buffer + offset]. *)
Definition bytes_at (buffer : list Z) (offset n : nat) : list Z :=
  take n (drop offset buffer).

Definition point_bytes (p : PointBits) : list Z :=
  le_bytes 8 (pb_x p) ++ le_bytes 8 (pb_y p).

Definition mbr_bytes (m : MBRBits) : list Z :=
  le_bytes 8 (mb_min_x m) ++ le_bytes 8 (mb_min_y m) ++
  le_bytes 8 (mb_max_x m) ++ le_bytes 8 (mb_max_y m).

(** The object representation of a [PageHeader]: 72 bytes, no padding. *)
Definition header_bytes (h : PageHeaderBits) : list Z :=
  le_bytes 4 (hb_page_id h) ++ le_bytes 4 (hb_track_id h) ++
  le_bytes 4 (hb_object_count h) ++ le_bytes 4 (hb_flags h) ++
  mbr_bytes (hb_extent h) ++ point_bytes (hb_centroid h) ++
  le_bytes 8 (hb_checksum h).

Definition sizeof_PageHeader : nat := 72.

Definition point_of_bytes (buffer : list Z) (offset : nat) : PointBits :=
  mkPointBits (le_value (bytes_at buffer offset 8))
              (le_value (bytes_at buffer (offset + 8) 8)).

Definition mbr_of_bytes (buffer : list Z) (offset : nat) : MBRBits :=
  mkMBRBits (le_value (bytes_at buffer offset 8))
            (le_value (bytes_at buffer (offset + 8) 8))
            (le_value (bytes_at buffer (offset + 16) 8))
            (le_value (bytes_at buffer (offset + 24) 8)).

Definition header_of_bytes (buffer : list Z) : PageHeaderBits :=
  mkPageHeaderBits (le_value (bytes_at buffer 0 4))
                   (le_value (bytes_at buffer 4 4))
                   (le_value (bytes_at buffer 8 4))
                   (le_value (bytes_at buffer 12 4))
                   (mbr_of_bytes buffer 16)
                   (point_of_bytes buffer 48)
                   (le_value (bytes_at buffer 64 8)).

(** One iteration of the loop of [page_serialize]; the state is the buffer
    and [offset]. *)
Definition serialize_object (st : list Z * nat) (obj : ObjectBits)
  : list Z * nat :=
  let '(buffer, offset) := st in
  let buffer1 := memcpy_to buffer offset (le_bytes 8 (ob_id obj)) in
  let offset1 := (offset + 8)%nat in
  let buffer2 := memcpy_to buffer1 offset1 (le_bytes 4 (ob_type obj)) in
  let offset2 := (offset1 + 4)%nat in
  let buffer3 := memcpy_to buffer2 offset2 (point_bytes (ob_centroid obj)) in
  let offset3 := (offset2 + 16)%nat in
  let buffer4 := memcpy_to buffer3 offset3 (mbr_bytes (ob_mbr obj)) in
  (buffer4, (offset3 + 32)%nat).

(** Returns the error code and the buffer as the call leaves it. *)
Definition page_serialize (page : PageImage) (buffer : list Z)
  : PageError * list Z :=
  if (length buffer <? PAGE_SIZE)%nat then (PAGE_ERR_ALLOC, buffer)
  else
    let buffer0 := replicate (length buffer) 0%Z in
    let buffer1 := memcpy_to buffer0 0 (header_bytes (pi_header page)) in
    (PAGE_OK,
     fst (fold_left serialize_object
                    (take (Z.to_nat (hb_object_count (pi_header page)))
                          (pi_objects page))
                    (buffer1, sizeof_PageHeader))).

(** One iteration of the loop of [page_deserialize] on [objects[i]]; the
    state is the [objects] array and [offset]. *)
Definition deserialize_object (buffer : list Z)
  (st : list ObjectBits * nat) (i : nat) : list ObjectBits * nat :=
  let '(objects, offset) := st in
  (alter
     (fun obj =>
        mkObjectBits (le_value (bytes_at buffer offset 8))
                     (le_value (bytes_at buffer (offset + 8) 4))
                     (point_of_bytes buffer (offset + 8 + 4))
                     (mbr_of_bytes buffer (offset + 8 + 4 + 16))
                     (ob_rest obj))
     i objects,
   (offset + 8 + 4 + 16 + 32)%nat).

(** Returns the error code and the page as the call leaves it. *)
Definition page_deserialize (page : PageImage) (buffer : list Z)
  : PageError * PageImage :=
  if (length buffer <? PAGE_SIZE)%nat then (PAGE_ERR_CORRUPT, page)
  else
    let header := header_of_bytes buffer in
    if (Z.of_nat MAX_OBJECTS_PER_PAGE <? hb_object_count header)%Z
    then (PAGE_ERR_CORRUPT, mkPageImage header (pi_objects page) (pi_in_memory page))
    else
      let objects' :=
        fst (fold_left (deserialize_object buffer)
                       (seq 0 (Z.to_nat (hb_object_count header)))
                       (pi_objects page, sizeof_PageHeader)) in
      (PAGE_OK, mkPageImage header objects' true).


(** ** quadtree.c: point queries, update and clear *)

Section QuadTreeMore.
Context {D : Type}.

Definition quadtree_query_point (qt : QuadTree D) (p : Point)
  (result : @QTQueryResult D) : QTError * @QTQueryResult D :=
  (QT_OK, qtnode_query_point (qt_root qt) p (qtresult_clear result)).

(** Returns the error code, the tree and the result; [None] is "out of
    fuel" in the insertion. *)
Definition quadtree_update (qt : QuadTree D) (id : Z) (new_bounds : MBR)
  : option (QTError * QuadTree D) :=
  match qtnode_find (qt_root qt) id with
  | None => Some (QT_ERR_NOT_FOUND, qt)
  | Some item =>
      let data := qi_data item in
      match quadtree_remove qt id with
      | (QT_OK, qt1) => quadtree_insert qt1 id new_bounds data
      | (err, qt1) => Some (err, qt1)
      end
  end.

Definition quadtree_clear (qt : QuadTree D) : QuadTree D :=
  match qt_root qt with
  | QTNull => qt
  | QTN b _ _ _ _ _ _ _ _ =>
      snd (quadtree_init b (qt_node_capacity qt) (qt_max_depth qt))
  end.

Definition quadtree_find_adjacent (qt : QuadTree D) (id : Z)
  (result : @QTQueryResult D) : QTError * @QTQueryResult D :=
  match qtnode_find (qt_root qt) id with
  | None => (QT_ERR_NOT_FOUND, result)
  | Some item => quadtree_find_adjacent_to_region qt (qi_bounds item) result
  end.

End QuadTreeMore.

(** ** spatial_index.c: update *)

Section SpatialIndexMore.
Variable sqrt : Qc -> Qc.
Variable double_bits : Qc -> Z.

(** The copy [obj_copy] of the caller's object is local to the call. *)
Definition spatial_index_update (idx : SpatialIndex) (object_id : Z)
  (new_obj : SpatialObject) : SIError * SpatialIndex :=
  match spatial_index_remove double_bits idx object_id with
  | (SI_OK, idx1) =>
      let obj_copy := set_id (spatial_object_copy new_obj) object_id in
      let '(err, idx2, _) := spatial_index_insert sqrt double_bits idx1 obj_copy in
      (err, idx2)
  | (err, idx1) => (err, idx1)
  end.

End SpatialIndexMore.
(** * Vocabulary of the properties *)

(** ** Track transitions *)

(** The count as the specification words it: scan the tracks in order,
    starting from [last]; a page whose track differs from a non-zero
    [last] is one transition. *)
Fixpoint track_transitions (last : Z) (tracks : list Z) : Z :=
  match tracks with
  | [] => 0
  | t :: rest =>
      ((if negb (t =? last)%Z && negb (last =? 0)%Z then 1 else 0)
       + track_transitions t rest)%Z
  end.

(** The track of the page a page id resolves to. *)
Definition resolved_track (pool : PagePool) (page_id : Z) : option Z :=
  match page_pool_get pool page_id with
  | Some pi => option_map pg_track_id (pool_pages pool !! pi)
  | None => None
  end.

(** ** Derived fields of a page *)

(** The MBR-union of a list of MBRs, with [mbr_union] of geometry.c. *)
Definition mbr_union_all (l : list MBR) : MBR := fold_left mbr_union l mbr_empty.



(** The sum of a list of doubles in double arithmetic: from 0, in list
    order, every addition rounded. *)
Definition double_sum (l : list Qc) : Qc := fold_left fadd l 0.

(** The mean of the centroids of a list of objects in double arithmetic:
    the sum of each coordinate in list order, divided by the count. *)
Definition centroid_double_mean (objects : list SpatialObject) : Point :=
  mkPoint (fdiv (double_sum (map (fun obj => pt_x (so_centroid obj)) objects))
                (Qc_of_nat (length objects)))
          (fdiv (double_sum (map (fun obj => pt_y (so_centroid obj)) objects))
                (Qc_of_nat (length objects))).

(** A double that is neither an infinity nor a NaN. *)
Definition finite (c : Qc) : Prop := - DBL_MAX <= c /\ c <= DBL_MAX.


(** A non-empty rectangle with finite corners. *)
Definition mbr_wf (m : MBR) : Prop :=
  mbr_is_empty m = false /\
  finite (min_x m) /\ finite (min_y m) /\ finite (max_x m) /\ finite (max_y m).

(** The invariant on the derived fields of a page that holds objects. *)
Definition page_derived_ok (page : Page) : Prop :=
  (0 < pg_object_count page)%nat ->
  pg_extent page = mbr_union_all (map so_mbr (pg_objects page)) /\
  pg_centroid page = centroid_double_mean (pg_objects page).

(** ** The objects an index stores *)

Definition stored_objects (idx : SpatialIndex) : list SpatialObject :=
  concat (map pg_objects (si_pages idx)).

(** The pointers to all stored objects: pages in pool order, slots in
    order. *)
Definition stored_pointers (idx : SpatialIndex) : list ObjPtr :=
  concat (imap (fun pi page => imap (fun j _ => (pi, j)) (pg_objects page))
               (si_pages idx)).

(** ** Runs of public operations *)

Inductive Op :=
| OpInsert (obj : SpatialObject)
| OpBulkInsert (objects : list SpatialObject)
| OpRemove (object_id : Z)
| OpBuild
| OpQueryRange (range : MBR)
| OpQueryPoint (p : Point)
| OpQueryKnn (p : Point) (k : nat)
| OpFindAdjacentPages (region : MBR).

Section Runs.
Variable sqrt : Qc -> Qc.
Variable double_bits : Qc -> Z.

(** The index after one public operation; [None] is "out of fuel". *)
Definition run_op (idx : SpatialIndex) (op : Op) : option SpatialIndex :=
  match op with
  | OpInsert obj => Some (snd (fst (spatial_index_insert sqrt double_bits idx obj)))
  | OpBulkInsert objects =>
      Some (snd (fst (spatial_index_bulk_insert sqrt double_bits idx objects)))
  | OpRemove object_id => Some (snd (spatial_index_remove double_bits idx object_id))
  | OpBuild => option_map snd (spatial_index_build idx)
  | OpQueryRange _ | OpQueryPoint _ | OpQueryKnn _ _ => Some idx
  | OpFindAdjacentPages region =>
      option_map (fun r => snd (fst r)) (spatial_index_find_adjacent_pages idx region)
  end.

Fixpoint run_ops (idx : SpatialIndex) (ops : list Op) : option SpatialIndex :=
  match ops with
  | [] => Some idx
  | op :: rest =>
      match run_op idx op with
      | Some idx' => run_ops idx' rest
      | None => None
      end
  end.

(** The MBR an inserted object has once [spatial_index_insert] has
    recomputed its derived fields. *)
Definition inserted_mbr (obj : SpatialObject) : MBR :=
  so_mbr (snd (spatial_object_update_derived sqrt obj)).

(** The MBRs of the objects an operation inserts. *)
Definition op_inserted_mbrs (op : Op) : list MBR :=
  match op with
  | OpInsert obj => [inserted_mbr obj]
  | OpBulkInsert objects => map inserted_mbr objects
  | _ => []
  end.

(** The objects an operation hands to [spatial_index_insert]. *)
Definition op_objects (op : Op) : list SpatialObject :=
  match op with
  | OpInsert obj => [obj]
  | OpBulkInsert objects => objects
  | _ => []
  end.

(** An operation inserts only objects with a non-empty, finite MBR. *)
Definition op_valid (op : Op) : Prop :=
  Forall mbr_wf (op_inserted_mbrs op).

End Runs.

(** ** Instances for concrete runs

    The concrete runs below fix the two parameters of the model.  They
    insert point objects under the default best-fit strategy, for which
    [sqrt] is never called; [double_bits] only feeds page checksums. *)

Definition example_sqrt (a : Qc) : Qc := Qc_of_Z (Z.sqrt (Qfloor a)).

Definition example_double_bits (a : Qc) : Z := u64_wrap (Qfloor a).

Definition example_point (x y : Z) : SpatialObject :=
  spatial_object_init_point 0 (mkPoint (Qc_of_Z x) (Qc_of_Z y)).

Definition example_run (ops : list Op) : option SpatialIndex :=
  run_ops example_sqrt example_double_bits (snd (spatial_index_init None)) ops.

(** A quadtree over the square (0,0)-(100,100) with node capacity 2, and
    three items: the first lies across the centre of the square, the other
    two inside one quadrant each. *)
Definition example_box (x0 y0 x1 y1 : Z) : MBR :=
  mbr_create (Qc_of_Z x0) (Qc_of_Z y0) (Qc_of_Z x1) (Qc_of_Z y1).

Definition example_quadtree : QuadTree nat :=
  snd (quadtree_init (example_box 0 0 100 100) 2 10).

(** A pool of two pages, with ids 1 and 2, and a cache of capacity 1 that
    holds page 1, which is then pinned. *)
Definition example_pool : PagePool :=
  fst (page_pool_alloc (fst (page_pool_alloc page_pool_init 0)) 0).

Definition example_pool_pinned : PagePool := snd (page_cache_pin example_pool 1).

Definition example_cache : PageCache :=
  match page_cache_get 8 (snd (page_cache_init 1)) example_pool 1 0 with
  | Done (cache, _) => cache
  | _ => snd (page_cache_init 1)
  end.

(** ** Page images *)

Definition is_u32 (v : Z) : Prop := (0 <= v < 2 ^ 32)%Z.
Definition is_u64 (v : Z) : Prop := (0 <= v < 2 ^ 64)%Z.

Definition point_bits_wf (p : PointBits) : Prop := is_u64 (pb_x p) /\ is_u64 (pb_y p).

Definition mbr_bits_wf (m : MBRBits) : Prop :=
  is_u64 (mb_min_x m) /\ is_u64 (mb_min_y m) /\
  is_u64 (mb_max_x m) /\ is_u64 (mb_max_y m).

Definition header_bits_wf (h : PageHeaderBits) : Prop :=
  is_u32 (hb_page_id h) /\ is_u32 (hb_track_id h) /\
  is_u32 (hb_object_count h) /\ is_u32 (hb_flags h) /\
  mbr_bits_wf (hb_extent h) /\ point_bits_wf (hb_centroid h) /\
  is_u64 (hb_checksum h).

Definition object_bits_wf (obj : ObjectBits) : Prop :=
  is_u64 (ob_id obj) /\ is_u32 (ob_type obj) /\
  point_bits_wf (ob_centroid obj) /\ mbr_bits_wf (ob_mbr obj).

(** Every field holds a value of its C type, and the [objects] array has
    the slots the header counts. *)
Definition page_image_wf (page : PageImage) : Prop :=
  header_bits_wf (pi_header page) /\
  Forall object_bits_wf (pi_objects page) /\
  (Z.to_nat (hb_object_count (pi_header page)) <= length (pi_objects page))%nat.

(** The 60 bytes [page_serialize] writes for one object. *)
Definition object_bytes (obj : ObjectBits) : list Z :=
  le_bytes 8 (ob_id obj) ++ le_bytes 4 (ob_type obj) ++
  point_bytes (ob_centroid obj) ++ mbr_bytes (ob_mbr obj).

(** Two objects agree on the fields the page format stores. *)
Definition same_object_header (a b : ObjectBits) : Prop :=
  ob_id a = ob_id b /\ ob_type a = ob_type b /\
  ob_centroid a = ob_centroid b /\ ob_mbr a = ob_mbr b.

(** The fields [page_deserialize] reads for [objects[i]]. *)
Definition decoded_object (buffer : list Z) (i : nat) (obj : ObjectBits)
  : ObjectBits :=
  let offset := (sizeof_PageHeader + 60 * i)%nat in
  mkObjectBits (le_value (bytes_at buffer offset 8))
               (le_value (bytes_at buffer (offset + 8) 4))
               (point_of_bytes buffer (offset + 8 + 4))
               (mbr_of_bytes buffer (offset + 8 + 4 + 16))
               (ob_rest obj).

(** [u] is a non-empty rectangle that contains [m]. *)
Definition mbr_covers (u m : MBR) : Prop :=
  mbr_is_empty u = false /\
  min_x u <= min_x m /\ min_y u <= min_y m /\
  max_x m <= max_x u /\ max_y m <= max_y u.



(** A page as [page_create] leaves it, as far as its objects go. *)
Definition page_fresh (p : Page) : Prop :=
  pg_objects p = [] /\ pg_object_capacity p = MAX_OBJECTS_PER_PAGE.

(** [pages'] is [pages] with one fresh page appended, which is page [pi]. *)
Definition pages_grown (pages pages' : list Page) (pi : nat) : Prop :=
  pi = length pages /\ exists p, pages' = pages ++ [p] /\ page_fresh p.

(** The invariant of a stored page: its objects have non-empty, finite
    MBRs, and its derived fields agree with them. *)
Definition page_ok (p : Page) : Prop :=
  Forall (fun obj => mbr_wf (so_mbr obj)) (pg_objects p) /\ page_derived_ok p.

(** ** K-d trees *)

(** The entries of a subtree, in the order [range_query_recursive] visits
    them. *)
Fixpoint kd_entries {D : Type} (node : KDNode D) : list (KDPointData D) :=
  match node with
  | KDNull => []
  | KDN p id data _ l r _ _ => mkKDPointData p id data :: kd_entries l ++ kd_entries r
  end.

(** No node of the subtree is pruned or filtered out by a range query on
    [range]. *)
Fixpoint kd_covered {D : Type} (range : MBR) (node : KDNode D) : Prop :=
  match node with
  | KDNull => True
  | KDN p _ _ _ l r b _ =>
      mbr_intersects b range = true /\ mbr_contains_point range p = true /\
      kd_covered range l /\ kd_covered range r
  end.

(** [b] is a non-empty rectangle inside [range]. *)
Definition mbr_inside (range b : MBR) : Prop :=
  mbr_is_empty b = false /\ mbr_covers range b.

(** [p] lies in the closed rectangle [b]. *)
Definition point_in (b : MBR) (p : Point) : Prop :=
  min_x b <= pt_x p /\ pt_x p <= max_x b /\ min_y b <= pt_y p /\ pt_y p <= max_y b.

(** ** Nearest neighbours *)

(** The first [i] entries of [distances] are in non-decreasing order of
    distance, and no later entry is closer than any of them: the state of
    the selection sort of [kdtree_k_nearest] after [i] rounds. *)
Definition prefix_min (i : nat) (distances : list DistEntry) : Prop :=
  forall a b x y, (a < i)%nat -> (a <= b)%nat ->
    distances !! a = Some x -> distances !! b = Some y ->
    de_dist_sq x <= de_dist_sq y.

(** The index that ends up at position [j] when positions [i] and [m] are
    exchanged. *)
Definition swapped (i m j : nat) : nat :=
  if (j =? i)%nat then m else if (j =? m)%nat then i else j.

(** The squared distance from [p] to the centroid of the object [ptr]
    designates, as the code computes it in double arithmetic. *)
Definition centroid_dist_sq (idx : SpatialIndex) (p : Point) (ptr : ObjPtr) : Qc :=
  match deref_object idx ptr with
  | Some obj => point_distance_sq p (so_centroid obj)
  | None => 0
  end.

(** The squared distance between two points in exact arithmetic, and that
    from [p] to the centroid of the object [ptr] designates. *)
Definition exact_distance_sq (a b : Point) : Qc :=
  (pt_x b - pt_x a) * (pt_x b - pt_x a) + (pt_y b - pt_y a) * (pt_y b - pt_y a).

Definition centroid_exact_dist_sq (idx : SpatialIndex) (p : Point) (ptr : ObjPtr)
  : Qc :=
  match deref_object idx ptr with
  | Some obj => exact_distance_sq p (so_centroid obj)
  | None => 0
  end.

(** The pointer a k-d tree entry carries. *)
Definition entry_pointer (a : KDPointData ObjPtr) : ObjPtr :=
  match kpd_data a with Some ptr => ptr | None => (0%nat, 0%nat) end.

(** The first [k] entries of [sorted] are in non-decreasing order of
    squared distance to [q], and no later entry is closer to [q] than any
    of them.  Squared distances order points as distances do. *)
Definition nearest_first {D : Type} (q : Point) (k : nat)
  (sorted : list (KDPointData D)) : Prop :=
  forall i j x y, (i < k)%nat -> (i <= j)%nat ->
    sorted !! i = Some x -> sorted !! j = Some y ->
    point_distance_sq q (kpd_point x) <= point_distance_sq q (kpd_point y).

(** ** Concrete inputs *)

(** A pool of three pages, with ids 1, 2, 3 on tracks 1, 1, 2, in a disk
    manager with the default configuration. *)
Definition example_seek_pool : PagePool :=
  fst (page_pool_alloc
         (fst (page_pool_alloc (fst (page_pool_alloc page_pool_init 1)) 1)) 2).

Definition example_seek_dm : DiskManager :=
  dm_set_pool (snd (disk_manager_init None)) example_seek_pool.

(** A page image with two slots of which the header counts one, a
    destination page with two blank slots, and a zeroed buffer of one
    page.  The doubles are 1.0 and 2.0. *)
Definition example_object_bits : ObjectBits :=
  mkObjectBits 7 1 (mkPointBits 4607182418800017408 4611686018427387904)
               (mkMBRBits 4607182418800017408 4611686018427387904
                          4607182418800017408 4611686018427387904)
               [1; 2; 3]%Z.

Definition example_blank_bits : ObjectBits :=
  mkObjectBits 0 0 (mkPointBits 0 0) (mkMBRBits 0 0 0 0) [].

Definition example_page_image : PageImage :=
  mkPageImage
    (mkPageHeaderBits 3 1 1 1
       (mkMBRBits 4607182418800017408 4611686018427387904
                  4607182418800017408 4611686018427387904)
       (mkPointBits 4607182418800017408 4611686018427387904) 99)
    [example_object_bits; example_blank_bits] true.

Definition example_dest_image : PageImage :=
  mkPageImage (mkPageHeaderBits 0 0 0 0 (mkMBRBits 0 0 0 0) (mkPointBits 0 0) 0)
              [example_blank_bits; example_blank_bits] false.

Definition example_buffer : list Z := replicate PAGE_SIZE 0%Z.

(** A run that inserts, removes, bulk-inserts, builds and queries. *)
Definition example_ops : list Op :=
  [OpInsert (example_point 0 0); OpInsert (example_point 10 10); OpRemove 2;
   OpBulkInsert [example_point 3 4; example_point 5 1]; OpBuild;
   OpQueryRange (example_box 0 0 4 4)].

(** Five points on the diagonal, the index that holds them, the same
    index once built, and a query point between the first two. *)
Definition example_points : list Op :=
  [OpInsert (example_point 0 0); OpInsert (example_point 1 1);
   OpInsert (example_point 2 2); OpInsert (example_point 10 10);
   OpInsert (example_point 20 20)].

Definition example_index : SpatialIndex :=
  match example_run example_points with
  | Some idx => idx
  | None => snd (spatial_index_init None)
  end.

Definition example_built_index : SpatialIndex :=
  match spatial_index_build example_index with
  | Some (_, idx) => idx
  | None => example_index
  end.

Definition example_query : Point := mkPoint (Q2Qc (1 # 2)) (Q2Qc (1 # 2)).

(** The points (0, 1) and (0.6, 0.8), the latter with the doubles that the
    literals [0.6] and [0.8] denote; the index that holds them, and the
    same index once built. *)
Definition example_tie_points : list Op :=
  [OpInsert (spatial_object_init_point 0 (mkPoint 0 1));
   OpInsert (spatial_object_init_point 0 (mkPoint (literal 6 10) (literal 8 10)))].

Definition example_tie_index : SpatialIndex :=
  match example_run example_tie_points with
  | Some idx => idx
  | None => snd (spatial_index_init None)
  end.

Definition example_tie_built_index : SpatialIndex :=
  match spatial_index_build example_tie_index with
  | Some (_, idx) => idx
  | None => example_tie_index
  end.



(** ** K-d trees built by the code *)




(** ** Quadtrees *)

(** The items of a subtree, in the order [qtnode_collect_all] visits
    them. *)
Fixpoint qt_items {D : Type} (node : QTNode D) : list (QTItem D) :=
  match node with
  | QTNull => []
  | QTN _ items _ nw ne sw se _ is_leaf =>
      items ++ (if is_leaf then []
                else qt_items nw ++ qt_items ne ++ qt_items sw ++ qt_items se)
  end.

(** [l] without its first item of the given id. *)
Fixpoint remove_first_id {D : Type} (id : Z) (l : list (QTItem D))
  : list (QTItem D) :=
  match l with
  | [] => []
  | it :: rest => if (qi_id it =? id)%Z then rest else it :: remove_first_id id rest
  end.

Definition qtnode_bounds {D : Type} (node : QTNode D) : MBR :=
  match node with
  | QTNull => mbr_empty
  | QTN b _ _ _ _ _ _ _ _ => b
  end.

(** [item] lies inside each of the rectangles [bs]. *)
Definition item_inside {D : Type} (bs : list MBR) (item : QTItem D) : Prop :=
  Forall (fun b => mbr_contains_mbr b (qi_bounds item) = true) bs.

(** Every item of the subtree lies inside the bounds of the node that
    holds it and of every node above that one; [outer] lists the bounds of
    the nodes above the root of the subtree. *)
Fixpoint qt_contained {D : Type} (outer : list MBR) (node : QTNode D) : Prop :=
  match node with
  | QTNull => True
  | QTN b items _ nw ne sw se _ is_leaf =>
      (forall it, it ∈ items -> item_inside (b :: outer) it) /\
      (is_leaf = false ->
       qt_contained (b :: outer) nw /\ qt_contained (b :: outer) ne /\
       qt_contained (b :: outer) sw /\ qt_contained (b :: outer) se)
  end.

(** The tree after [quadtree_insert] of each of [items] in order, ignoring
    the error codes; [None] is "out of fuel". *)
Definition qt_insert_all {D : Type} (qt : QuadTree D) (items : list (QTItem D))
  : option (QuadTree D) :=
  fold_left
    (fun oqt it =>
       match oqt with
       | None => None
       | Some qt =>
           option_map snd
             (quadtree_insert_with_centroid qt (qi_id it) (qi_bounds it)
                                            (qi_centroid it) (qi_data it))
       end)
    items (Some qt).

(** Three items inside the square (0,0)-(100,100); the third insertion
    into [example_quadtree] splits the root. *)
Definition example_qt_item (id x0 y0 x1 y1 : Z) : QTItem nat :=
  mkQTItem id (example_box x0 y0 x1 y1) (mbr_centroid (example_box x0 y0 x1 y1))
           (Some (Z.to_nat id)).

Definition example_qt_items : list (QTItem nat) :=
  [example_qt_item 1 10 10 20 20; example_qt_item 2 60 60 70 70;
   example_qt_item 3 30 30 45 45].

Definition example_quadtree_filled : QuadTree nat :=
  match qt_insert_all example_quadtree example_qt_items with
  | Some qt => qt
  | None => example_quadtree
  end.

(** ** Runs of pool operations *)

Inductive PoolOp :=
| PoolAlloc (track_id : Z)
| PoolCreateTrack.

(** The pool after a sequence of [page_pool_alloc] and
    [page_pool_create_track] calls on a fresh pool. *)
Definition pool_run (ops : list PoolOp) : PagePool :=
  fold_left
    (fun pool op =>
       match op with
       | PoolAlloc track_id => fst (page_pool_alloc pool track_id)
       | PoolCreateTrack => fst (page_pool_create_track pool)
       end)
    ops page_pool_init.

(** What an id resolves to when ids were handed out from 1 to [n] in
    allocation order. *)
Definition resolve_id (n : nat) (id : Z) : option nat :=
  if ((1 <=? id) && (id <=? Z.of_nat n))%Z then Some (Z.to_nat (id - 1)) else None.

(** ** Choosing a track *)

(** The value by which [disk_manager_find_best_track] ranks a track under
    the two strategies that scan the tracks: the distance from the track's
    centroid, or the growth in area of the track's extent, both as the
    code computes them in double arithmetic. *)
Definition track_score (sqrt : Qc -> Qc) (strategy : AllocationStrategy)
  (centroid : Point) (track : DiskTrack) : Qc :=
  match strategy with
  | ALLOC_NEAREST_TRACK => point_distance sqrt centroid (tr_centroid track)
  | _ => fsub (mbr_area (mbr_expand_point (tr_extent track) centroid))
              (mbr_area (tr_extent track))
  end.

(** ** Runs of page allocations *)

(** The disk manager after allocating one page per centroid, starting from
    a fresh manager. *)
Definition dm_alloc_run (sqrt : Qc -> Qc) (config : option DiskManagerConfig)
  (centroids : list Point) : DiskManager :=
  fold_left (fun dm c => fst (disk_manager_alloc_page sqrt dm c)) centroids
            (snd (disk_manager_init config)).

(** Every element listed twice in a row. *)
Definition twice {A : Type} (l : list A) : list A :=
  concat (map (fun a => [a; a]) l).

(** Track ids count from 1 in creation order; every track lists each of its
    pages twice in a row, within its capacity of [PAGES_PER_TRACK] slots;
    and every page of the pool is listed by exactly one track. *)
Definition pool_tracked (pool : PagePool) : Prop :=
  map tr_track_id (pool_tracks pool)
  = map Z.of_nat (seq 1 (length (pool_tracks pool))) /\
  pool_next_track_id pool = Z.of_nat (length (pool_tracks pool) + 1) /\
  Forall (fun track =>
            tr_page_capacity track = PAGES_PER_TRACK /\
            (length (tr_pages track) <= PAGES_PER_TRACK)%nat /\
            exists ps, tr_pages track = twice ps)
         (pool_tracks pool) /\
  concat (map tr_pages (pool_tracks pool))
  ≡ₚ twice (seq 0 (length (pool_pages pool))) /\
  (length (pool_tracks pool) <= length (pool_pages pool))%nat.

(** Three centroids near the origin. *)
Definition example_centroids : list Point :=
  [mkPoint 0 0; mkPoint 1 1; mkPoint 2 0].

(** A disk manager under the default best-fit strategy whose pool holds
    three tracks with room, and a point that the extents of the second and
    of the third contain. *)
Definition example_track (id : Z) (extent : MBR) : DiskTrack :=
  mkDiskTrack id [] PAGES_PER_TRACK extent (mbr_centroid extent) false.

Definition example_tracks_dm : DiskManager :=
  dm_set_pool (snd (disk_manager_init None))
              (mkPagePool []
                 [example_track 1 (example_box 0 0 10 10);
                  example_track 2 (example_box 10 0 14 10);
                  example_track 3 (example_box 11 4 13 6)]
                 1 4).

Definition example_target : Point := mkPoint (Qc_of_Z 12) (Qc_of_Z 5).
(** * Properties *)

(** ** Order on doubles *)

Lemma Qcltb_spec (a b : Qc) : reflect (a < b) (Qcltb a b).
Proof.
  unfold Qcltb. destruct (a ?= b) eqn:E; constructor; rewrite Qclt_alt; congruence.
Qed.

Lemma Qcltb_true (a b : Qc) : Qcltb a b = true <-> a < b.
Proof. destruct (Qcltb_spec a b); split; intros; try done. Qed.

Lemma Qcltb_false (a b : Qc) : Qcltb a b = false <-> b <= a.
Proof.
  destruct (Qcltb_spec a b) as [H|H]; split; intros H'; try done.
  - unfold Qclt, Qcle in *. lra.
  - unfold Qclt, Qcle in *. lra.
Qed.

Lemma Qcleb_true (a b : Qc) : Qcleb a b = true <-> a <= b.
Proof. unfold Qcleb. rewrite negb_true_iff. apply Qcltb_false. Qed.

Lemma Qcltb_irrefl (a : Qc) : Qcltb a a = false.
Proof. apply Qcltb_false. unfold Qcle. lra. Qed.

(** Case analysis on every comparison in sight, then linear arithmetic on
    the underlying rationals. *)
Ltac qc_cases :=
  repeat match goal with
         | H : context [Qcltb ?a ?b] |- _ => destruct (Qcltb_spec a b)
         | |- context [Qcltb ?a ?b] => destruct (Qcltb_spec a b)
         end.

Ltac qc_order :=
  unfold Qclt, Qcle in *;
  first [ lra | apply Qc_is_canon; lra | exfalso; lra ].

(** Splits a [Forall] over a list given by its elements. *)
Ltac forall_list :=
  repeat (first [apply List.Forall_nil | apply List.Forall_cons]).


(** ** C6: the seek estimator counts track transitions *)

Lemma find_index_Some {A : Type} (f : A -> bool) (l : list A) (i : nat) :
  find_index f l = Some i -> exists a, l !! i = Some a /\ f a = true.
Proof.
  revert i. induction l as [|a l IH]; intros i H; simpl in H; [done|].
  destruct (f a) eqn:Ef.
  - inversion H; subst. exists a. done.
  - destruct (find_index f l) as [j|] eqn:Ej; simpl in H; [|done].
    inversion H; subst. destruct (IH j eq_refl) as (b & Hb & Hf).
    exists b. done.
Qed.

Lemma track_transitions_bounds (last : Z) (tracks : list Z) :
  (0 <= track_transitions last tracks <= Z.of_nat (length tracks))%Z.
Proof.
  revert last. induction tracks as [|t rest IH]; intros last; simpl; [lia|].
  specialize (IH t). destruct (negb (t =? last)%Z && negb (last =? 0)%Z); lia.
Qed.

Lemma track_transitions_from_zero (tracks : list Z) :
  tracks <> [] ->
  (track_transitions 0 tracks <= Z.of_nat (length tracks) - 1)%Z.
Proof.
  destruct tracks as [|t rest]; [done|]. intros _. simpl.
  pose proof (track_transitions_bounds t rest).
  rewrite andb_false_r. lia.
Qed.

Lemma estimate_seeks_loop (pool : PagePool) (page_ids : list Z) (tracks : list Z)
  (seeks last : Z) :
  Forall2 (fun id t => resolved_track pool id = Some t) page_ids tracks ->
  (0 <= seeks)%Z ->
  (seeks + Z.of_nat (length page_ids) < 2 ^ 64)%Z ->
  fst (fold_left (estimate_seeks_step pool) page_ids (seeks, last))
  = (seeks + track_transitions last tracks)%Z.
Proof.
  intros HF. revert seeks last.
  induction HF as [|id t ids ts Hid HF IH]; intros seeks last Hs Hlen; simpl.
  - lia.
  - destruct (estimate_seeks_step pool (seeks, last) id) as [seeks' last'] eqn:E.
    unfold estimate_seeks_step in E. unfold resolved_track in Hid.
    destruct (page_pool_get pool id) as [pi|]; [|done].
    destruct (pool_pages pool !! pi) as [page|]; [|done].
    simpl in Hid. inversion Hid; subst. simpl in Hlen.
    destruct (negb (pg_track_id page =? last)%Z && negb (last =? 0)%Z);
      inversion E; subst.
    + unfold u64_wrap. rewrite Z.mod_small by lia.
      rewrite IH; rewrite ?Z.mod_small by lia; lia.
    + rewrite IH by lia. lia.
Qed.

(** C6.  For a list of page ids that all resolve to pages of the pool,
    [disk_manager_estimate_seeks] returns the number of track transitions
    of the list in its given order (start from [last = 0]; a page counts
    iff its track differs from [last] and [last] is not 0; then [last]
    becomes its track), and for a non-empty list the result is at most
    [count - 1].  [count] is a [size_t], hence below [2^64]. *)
Theorem estimate_seeks_counts_transitions
  (dm : DiskManager) (page_ids : list Z) (tracks : list Z) :
  Forall2 (fun id t => resolved_track (dm_pool dm) id = Some t) page_ids tracks ->
  (Z.of_nat (length page_ids) < 2 ^ 64)%Z ->
  disk_manager_estimate_seeks dm page_ids = track_transitions 0 tracks /\
  (page_ids <> [] ->
   (disk_manager_estimate_seeks dm page_ids <= Z.of_nat (length page_ids) - 1)%Z).
Proof.
  intros HF Hlen.
  assert (Heq : disk_manager_estimate_seeks dm page_ids = track_transitions 0 tracks).
  { unfold disk_manager_estimate_seeks.
    destruct page_ids as [|id ids].
    - inversion HF; subst. done.
    - replace (length (id :: ids) =? 0)%nat with false by done.
      rewrite (estimate_seeks_loop _ _ tracks) by (done || lia). lia. }
  split; [done|]. intros Hne. rewrite Heq.
  assert (Hl := HF). apply Forall2_length in Hl. rewrite Hl.
  apply track_transitions_from_zero.
  intros ->. inversion HF; subst. done.
Qed.

(** The estimator on pages 1, 2, 3, 1 of a pool whose pages lie on tracks
    1, 1, 2: two transitions. *)
Lemma estimate_seeks_counts_transitions_witness :
  Forall2 (fun id t => resolved_track (dm_pool example_seek_dm) id = Some t)
          [1; 2; 3; 1]%Z [1; 1; 2; 1]%Z /\
  disk_manager_estimate_seeks example_seek_dm [1; 2; 3; 1]%Z
  = track_transitions 0 [1; 1; 2; 1]%Z /\
  ([1; 2; 3; 1]%Z <> [] ->
   (disk_manager_estimate_seeks example_seek_dm [1; 2; 3; 1]%Z
    <= Z.of_nat (length [1; 2; 3; 1]%Z) - 1)%Z).
Proof.
  assert (H : Forall2 (fun id t => resolved_track (dm_pool example_seek_dm) id = Some t)
                [1; 2; 3; 1]%Z [1; 1; 2; 1]%Z).
  { repeat constructor. }
  split; [exact H|].
  apply (estimate_seeks_counts_transitions example_seek_dm _ _ H).
  simpl. lia.
Defined.

(** ** C10: [query_knn] with [k = 0] *)

(** C10.  With [k = 0], [spatial_index_query_knn] returns success and the
    caller's result exactly as it was, entries and count included; with
    [k > 0] the call starts from the cleared result, so that nothing of the
    previous contents survives. *)
Theorem query_knn_zero_keeps_result
  (idx : SpatialIndex) (p : Point) (result : SpatialQueryResult) :
  spatial_index_query_knn idx p 0 result = (SI_OK, result) /\
  forall k : nat,
    spatial_index_query_knn idx p (S k) result
    = spatial_index_query_knn idx p (S k) (spatial_result_clear result).
Proof. split; [reflexivity | intros k; reflexivity]. Qed.

(** ** C7: [query_knn] and the built state *)

(** C7, as the code has it.  [spatial_index_query_knn] never looks at
    [is_built] and never returns [SI_ERR_NOT_BUILT]: with [k = 0] it
    succeeds and leaves the result alone; with [k > 0] it fails with
    [SI_ERR_NOT_FOUND] and an emptied result when the block k-d tree is
    empty, and succeeds otherwise, whatever [is_built] says. *)
Theorem query_knn_ignores_is_built
  (idx : SpatialIndex) (p : Point) (k : nat) (result : SpatialQueryResult)
  (b : bool) :
  spatial_index_query_knn (si_set_is_built idx b) p k result
  = spatial_index_query_knn idx p k result /\
  fst (spatial_index_query_knn idx p k result) <> SI_ERR_NOT_BUILT /\
  match k, kd_root (si_block_tree idx) with
  | O, _ => spatial_index_query_knn idx p k result = (SI_OK, result)
  | S _, KDNull =>
      spatial_index_query_knn idx p k result
      = (SI_ERR_NOT_FOUND, spatial_result_clear result)
  | S _, KDN _ _ _ _ _ _ _ _ =>
      fst (spatial_index_query_knn idx p k result) = SI_OK
  end.
Proof.
  split; [reflexivity|].
  destruct k as [|k].
  - split; [discriminate | reflexivity].
  - unfold spatial_index_query_knn. simpl (S k =? 0)%nat. cbv iota.
    unfold kdtree_k_nearest.
    destruct (kd_root (si_block_tree idx)); simpl; split; done.
Qed.

(** C7 as stated fails: after insert, build, insert the index is not built,
    yet a 1-nearest query succeeds and returns an object. *)
Lemma query_knn_unbuilt_counterexample :
  exists idx : SpatialIndex,
    example_run [OpInsert (example_point 0 0); OpBuild;
                 OpInsert (example_point 5 5)] = Some idx /\
    si_is_built idx = false /\
    spatial_index_query_knn idx (mkPoint 0 0) 1 (mkSpatialQueryResult [] 0)
    = (SI_OK, mkSpatialQueryResult [(0, 0)%nat] 0).
Proof. eexists. split; [vm_compute; reflexivity|]. split; vm_compute; reflexivity. Qed.

(** ** C1: a split of a quadtree leaf *)

(** C1 on the code: three insertions that all report success, the third of
    which splits the root.  The item lying across the centre is in the tree
    before the split and in no node after it, while [total_items] still
    counts it. *)
Theorem quadtree_split_drops_straddling_item :
  exists qt1 qt2 qt3 : QuadTree nat,
    quadtree_insert example_quadtree 1 (example_box 40 40 60 60) None
    = Some (QT_OK, qt1) /\
    quadtree_insert qt1 2 (example_box 10 10 20 20) None = Some (QT_OK, qt2) /\
    quadtree_insert qt2 3 (example_box 70 70 80 80) None = Some (QT_OK, qt3) /\
    map qi_id (snd (quadtree_get_all qt2 [])) = [1; 2]%Z /\
    map qi_id (snd (quadtree_get_all qt3 [])) = [3; 2]%Z /\
    quadtree_get qt3 1 = (QT_ERR_NOT_FOUND, None) /\
    qt_total_items qt3 = 3%nat.
Proof.
  do 3 eexists.
  split; [vm_compute; reflexivity|].
  split; [vm_compute; reflexivity|].
  split; [vm_compute; reflexivity|].
  repeat split; vm_compute; reflexivity.
Qed.

(** ** C9: eviction from the LRU cache *)

(** As long as the page of the LRU tail is pinned, an iteration of the
    eviction loop changes nothing, so no amount of fuel lets it finish. *)
Lemma evict_loop_pinned_tail (cache : PageCache) (pool : PagePool)
  (victim : nat) (v : PageRef) (count evicted fuel : nat) :
  pc_tail cache = Some victim ->
  pc_refs cache !! victim = Some v ->
  page_is_pinned pool (page_pool_get pool (ref_page_id v)) = true ->
  (evicted < count)%nat ->
  page_cache_evict_loop fuel cache pool count evicted = OutOfFuel.
Proof.
  intros Ht Hv Hp Hlt. induction fuel as [|fuel IH]; simpl; [done|].
  replace (evicted <? count)%nat with true by (symmetry; apply Nat.ltb_lt; done).
  simpl. rewrite Ht, Hv, Hp. exact IH.
Qed.

Lemma example_cache_holds_page_1 :
  page_cache_get 8 (snd (page_cache_init 1)) example_pool 1 0
  = Done (example_cache, Some 0%nat) /\
  pc_count example_cache = 1%nat /\ pc_capacity example_cache = 1%nat.
Proof. repeat split; vm_compute; reflexivity. Qed.

(** C9 on the code: the cache of capacity 1 holds page 1, page 1 is pinned,
    and page 2 is requested.  The miss calls the eviction, whose loop
    re-reads the pinned tail for ever: the call returns for no amount of
    fuel. *)
Theorem page_cache_get_pinned_tail_never_returns (fuel : nat) (now : Z) :
  page_cache_get fuel example_cache example_pool_pinned 2 now = OutOfFuel.
Proof.
  unfold page_cache_get.
  replace (pc_hash_table example_cache
             !! page_hash 2 (pc_hash_size example_cache))
    with (Some (@None nat)) by (vm_compute; reflexivity).
  destruct fuel as [|fuel]; [reflexivity|].
  cbn [cache_lookup].
  replace (page_pool_get example_pool_pinned 2) with (Some 1%nat)
    by (vm_compute; reflexivity).
  replace (pc_capacity example_cache <=? pc_count example_cache)%nat with true
    by (vm_compute; reflexivity).
  unfold page_cache_evict.
  rewrite (evict_loop_pinned_tail example_cache example_pool_pinned 1
             (mkPageRef 1 1 0 None None) 1 0 (S fuel));
    [reflexivity | vm_compute; reflexivity .. | lia].
Qed.

(** ** C8: serialization round trip *)

Lemma length_le_bytes (w : nat) (v : Z) : length (le_bytes w v) = w.
Proof. revert v. induction w as [|w IH]; intros v; simpl; [done|]. by rewrite IH. Qed.

Lemma le_value_le_bytes (w : nat) (v : Z) :
  (0 <= v < 256 ^ Z.of_nat w)%Z -> le_value (le_bytes w v) = v.
Proof.
  revert v. induction w as [|w IH]; intros v Hv.
  - simpl in *. lia.
  - cbn [le_bytes le_value fold_right]. fold (le_value (le_bytes w (v / 256))).
    rewrite IH.
    + pose proof (Z.div_mod v 256). lia.
    + rewrite Nat2Z.inj_succ, Z.pow_succ_r in Hv by lia.
      split; [apply Z.div_pos; lia | apply Z.div_lt_upper_bound; lia].
Qed.

Lemma le_value_u32 (v : Z) : is_u32 v -> le_value (le_bytes 4 v) = v.
Proof. intros H. apply le_value_le_bytes. unfold is_u32 in H. simpl. lia. Qed.

Lemma le_value_u64 (v : Z) : is_u64 v -> le_value (le_bytes 8 v) = v.
Proof. intros H. apply le_value_le_bytes. unfold is_u64 in H. simpl. lia. Qed.

#[local] Arguments le_bytes : simpl never.
#[local] Arguments le_value : simpl never.
#[local] Arguments bytes_at : simpl never.

Lemma memcpy_to_app (pre rest src : list Z) :
  memcpy_to (pre ++ rest) (length pre) src = pre ++ src ++ drop (length src) rest.
Proof.
  unfold memcpy_to. rewrite take_app_length.
  by rewrite drop_app_add'.
Qed.

Lemma bytes_at_here (w : nat) (v : Z) (l : list Z) :
  bytes_at (le_bytes w v ++ l) 0 w = le_bytes w v.
Proof.
  unfold bytes_at. rewrite drop_0.
  rewrite <- (length_le_bytes w v) at 1. by rewrite take_app_length.
Qed.

Lemma bytes_at_skip (w : nat) (v : Z) (l : list Z) (off n : nat) :
  (w <= off)%nat ->
  bytes_at (le_bytes w v ++ l) off n = bytes_at l (off - w) n.
Proof.
  intros H. unfold bytes_at. f_equal.
  replace off with (w + (off - w))%nat at 1 by lia.
  rewrite <- (length_le_bytes w v) at 1. by rewrite drop_app_add'.
Qed.

Lemma bytes_at_app (pre l : list Z) (k n : nat) :
  bytes_at (pre ++ l) (length pre + k) n = bytes_at l k n.
Proof. unfold bytes_at. by rewrite drop_app_add'. Qed.

Lemma length_point_bytes (p : PointBits) : length (point_bytes p) = 16%nat.
Proof. unfold point_bytes. rewrite !length_app, !length_le_bytes. done. Qed.

Lemma length_mbr_bytes (m : MBRBits) : length (mbr_bytes m) = 32%nat.
Proof. unfold mbr_bytes. rewrite !length_app, !length_le_bytes. done. Qed.

Lemma length_header_bytes (h : PageHeaderBits) :
  length (header_bytes h) = sizeof_PageHeader.
Proof.
  unfold header_bytes.
  rewrite !length_app, !length_le_bytes, length_mbr_bytes, length_point_bytes. done.
Qed.

Lemma length_object_bytes (obj : ObjectBits) : length (object_bytes obj) = 60%nat.
Proof.
  unfold object_bytes.
  rewrite !length_app, !length_le_bytes, length_mbr_bytes, length_point_bytes. done.
Qed.

(** Reading the fields back, one after the other, from where they were
    written. *)
Ltac read_fields :=
  repeat first
    [ rewrite bytes_at_here
    | rewrite bytes_at_skip by (cbn; lia) ];
  cbn [Nat.sub].

Lemma header_of_header_bytes (h : PageHeaderBits) (l : list Z) :
  header_bits_wf h -> header_of_bytes (header_bytes h ++ l) = h.
Proof.
  intros (H1 & H2 & H3 & H4 & (H5 & H6 & H7 & H8) & (H9 & H10) & H11).
  unfold header_of_bytes, mbr_of_bytes, point_of_bytes, header_bytes, mbr_bytes,
    point_bytes.
  rewrite <- !app_assoc. cbn [Nat.add].
  read_fields.
  rewrite !le_value_u32, !le_value_u64 by done.
  by destruct h as [a b c d [e1 e2 e3 e4] [c1 c2] k].
Qed.

Lemma memcpy_to_at (pre rest src : list Z) (off : nat) :
  off = length pre ->
  memcpy_to (pre ++ rest) off src = pre ++ src ++ drop (length src) rest.
Proof. intros ->. apply memcpy_to_app. Qed.

Lemma serialize_object_app (pre rest : list Z) (obj : ObjectBits) :
  serialize_object (pre ++ rest, length pre) obj
  = (pre ++ object_bytes obj ++ drop 60 rest, (length pre + 60)%nat).
Proof.
  unfold serialize_object, object_bytes.
  pose proof (length_le_bytes 8 (ob_id obj)) as L1.
  pose proof (length_le_bytes 4 (ob_type obj)) as L2.
  pose proof (length_point_bytes (ob_centroid obj)) as L3.
  pose proof (length_mbr_bytes (ob_mbr obj)) as L4.
  set (b1 := le_bytes 8 (ob_id obj)) in *.
  set (b2 := le_bytes 4 (ob_type obj)) in *.
  set (b3 := point_bytes (ob_centroid obj)) in *.
  set (b4 := mbr_bytes (ob_mbr obj)) in *.
  rewrite (memcpy_to_at pre rest b1) by done.
  rewrite (app_assoc pre b1).
  rewrite (memcpy_to_at (pre ++ b1) _ b2) by (rewrite length_app; lia).
  rewrite (app_assoc (pre ++ b1) b2).
  rewrite (memcpy_to_at ((pre ++ b1) ++ b2) _ b3) by (rewrite !length_app; lia).
  rewrite (app_assoc ((pre ++ b1) ++ b2) b3).
  rewrite (memcpy_to_at (((pre ++ b1) ++ b2) ++ b3) _ b4)
    by (rewrite !length_app; lia).
  rewrite L1, L2, L3, L4, !drop_drop, <- !app_assoc.
  f_equal. lia.
Qed.

Lemma length_concat_object_bytes (objs : list ObjectBits) :
  length (concat (map object_bytes objs)) = (60 * length objs)%nat.
Proof.
  induction objs as [|o objs IH]; [done|].
  cbn [map concat]. rewrite length_app, length_object_bytes, IH. simpl. lia.
Qed.

Lemma serialize_fold (objs : list ObjectBits) (pre rest : list Z) :
  fst (fold_left serialize_object objs (pre ++ rest, length pre))
  = pre ++ concat (map object_bytes objs) ++ drop (60 * length objs) rest.
Proof.
  revert pre rest. induction objs as [|o objs IH]; intros pre rest.
  - simpl. by rewrite drop_0.
  - cbn [fold_left]. rewrite serialize_object_app.
    rewrite (app_assoc pre).
    replace (length pre + 60)%nat with (length (pre ++ object_bytes o))
      by (rewrite length_app, length_object_bytes; done).
    rewrite IH. rewrite drop_drop. cbn [map concat length].
    rewrite <- !app_assoc. do 4 f_equal. lia.
Qed.

(** What [page_serialize] leaves in the buffer: the header, the object
    records, and zeros. *)
Lemma page_serialize_buffer (page : PageImage) (buffer : list Z) :
  (PAGE_SIZE <= length buffer)%nat ->
  page_serialize page buffer
  = (PAGE_OK,
     header_bytes (pi_header page)
     ++ concat (map object_bytes
                    (take (Z.to_nat (hb_object_count (pi_header page)))
                          (pi_objects page)))
     ++ drop (60 * length (take (Z.to_nat (hb_object_count (pi_header page)))
                                (pi_objects page)))
             (drop sizeof_PageHeader (replicate (length buffer) 0%Z))).
Proof.
  intros Hlen. unfold page_serialize.
  replace (length buffer <? PAGE_SIZE)%nat with false
    by (symmetry; apply Nat.ltb_ge; done).
  f_equal.
  pose proof (memcpy_to_app [] (replicate (length buffer) 0%Z)
                            (header_bytes (pi_header page))) as Hm.
  cbn [length app] in Hm. rewrite Hm, length_header_bytes.
  rewrite <- (serialize_fold _ (header_bytes (pi_header page))).
  by rewrite length_header_bytes.
Qed.

Lemma deserialize_fold (buffer : list Z) (n : nat) (objs : list ObjectBits) :
  snd (fold_left (deserialize_object buffer) (seq 0 n) (objs, sizeof_PageHeader))
  = (sizeof_PageHeader + 60 * n)%nat /\
  forall i : nat,
    fst (fold_left (deserialize_object buffer) (seq 0 n) (objs, sizeof_PageHeader))
      !! i
    = if (i <? n)%nat then decoded_object buffer i <$> objs !! i else objs !! i.
Proof.
  induction n as [|n [IH1 IH2]].
  - split; [reflexivity|]. intros i. done.
  - rewrite seq_S, fold_left_app. cbn [fold_left Nat.add].
    destruct (fold_left (deserialize_object buffer) (seq 0 n)
                        (objs, sizeof_PageHeader)) as [objs' off] eqn:E.
    cbn [fst snd] in *. subst off. unfold deserialize_object. cbn [fst snd].
    split; [lia|]. intros i.
    destruct (decide (i = n)) as [->|Hne].
    + rewrite list_lookup_alter_eq, IH2.
      replace (n <? n)%nat with false by (symmetry; apply Nat.ltb_ge; lia).
      replace (n <? S n)%nat with true by (symmetry; apply Nat.ltb_lt; lia).
      destruct (objs !! n); done.
    + rewrite list_lookup_alter_ne by done. rewrite IH2.
      destruct (Nat.ltb_spec i n), (Nat.ltb_spec i (S n)); try done; lia.
Qed.

Lemma decoded_object_of_bytes (h : list Z) (objs : list ObjectBits) (tail : list Z)
  (i : nat) (obj dst : ObjectBits) :
  length h = sizeof_PageHeader ->
  objs !! i = Some obj ->
  object_bits_wf obj ->
  same_object_header
    (decoded_object (h ++ concat (map object_bytes objs) ++ tail) i dst) obj.
Proof.
  intros Hh Hi (H1 & H2 & (H3 & H4) & (H5 & H6 & H7 & H8)).
  rewrite <- (take_drop_middle objs i obj Hi).
  rewrite map_app, concat_app. cbn [map concat].
  rewrite <- !app_assoc, (app_assoc h).
  assert (Hoff : (sizeof_PageHeader + 60 * i)%nat
                 = length (h ++ concat (map object_bytes (take i objs)))).
  { rewrite length_app, length_concat_object_bytes, length_take, Hh.
    apply lookup_lt_Some in Hi. lia. }
  unfold decoded_object, same_object_header, point_of_bytes, mbr_of_bytes.
  cbn [ob_id ob_type ob_centroid ob_mbr]. rewrite Hoff.
  rewrite <- !(Nat.add_assoc (length _)).
  replace (length (h ++ concat (map object_bytes (take i objs))))
    with (length (h ++ concat (map object_bytes (take i objs))) + 0)%nat at 1 by lia.
  rewrite !bytes_at_app.
  unfold object_bytes, point_bytes, mbr_bytes. rewrite <- !app_assoc.
  cbn [Nat.add]. read_fields.
  rewrite !le_value_u32, !le_value_u64 by done.
  by destruct obj as [a b [c1 c2] [e1 e2 e3 e4] r].
Qed.

(** C8.  Serializing a page whose [object_count] is at most
    [MAX_OBJECTS_PER_PAGE] and deserializing the buffer gives back the page
    header, field for field, and for each of its objects, in order, the id,
    the type, the centroid and the MBR.  The page is well-typed, the buffer
    has room for a page, and the page deserialized into has the slots. *)
Theorem page_serialize_roundtrip (page dest : PageImage) (buffer : list Z) :
  page_image_wf page ->
  (hb_object_count (pi_header page) <= Z.of_nat MAX_OBJECTS_PER_PAGE)%Z ->
  (PAGE_SIZE <= length buffer)%nat ->
  (Z.to_nat (hb_object_count (pi_header page)) <= length (pi_objects dest))%nat ->
  exists (buffer' : list Z) (page' : PageImage),
    page_serialize page buffer = (PAGE_OK, buffer') /\
    page_deserialize dest buffer' = (PAGE_OK, page') /\
    pi_header page' = pi_header page /\
    forall (i : nat) (obj : ObjectBits),
      (i < Z.to_nat (hb_object_count (pi_header page)))%nat ->
      pi_objects page !! i = Some obj ->
      exists obj' : ObjectBits,
        pi_objects page' !! i = Some obj' /\ same_object_header obj' obj.
Proof.
  intros (Hh & Hobjs & Hslots) Hmax Hbuf Hdest.
  rewrite (page_serialize_buffer page buffer Hbuf).
  set (n := Z.to_nat (hb_object_count (pi_header page))) in *.
  set (objs := take n (pi_objects page)).
  assert (Hn : (n <= 64)%nat) by (unfold MAX_OBJECTS_PER_PAGE in Hmax; lia).
  assert (Hlo : length objs = n) by (unfold objs; rewrite length_take; lia).
  rewrite Hlo.
  set (tail := drop (60 * n) (drop sizeof_PageHeader (replicate (length buffer) 0%Z))).
  set (buffer' := header_bytes (pi_header page) ++ concat (map object_bytes objs) ++ tail).
  assert (Hlen : length buffer' = length buffer).
  { unfold buffer', tail.
    rewrite !length_app, length_header_bytes, length_concat_object_bytes, Hlo,
      !length_drop, length_replicate.
    unfold sizeof_PageHeader, PAGE_SIZE in *. lia. }
  assert (Hhdr : header_of_bytes buffer' = pi_header page)
    by (apply header_of_header_bytes; done).
  exists buffer'. eexists. split; [reflexivity|].
  unfold page_deserialize. rewrite Hlen.
  replace (length buffer <? PAGE_SIZE)%nat with false
    by (symmetry; apply Nat.ltb_ge; done).
  rewrite Hhdr.
  replace (Z.of_nat MAX_OBJECTS_PER_PAGE <? hb_object_count (pi_header page))%Z
    with false by (symmetry; apply Z.ltb_ge; done).
  split; [reflexivity|]. split; [reflexivity|].
  intros i obj Hi Hobj. cbn [pi_objects]. fold n.
  destruct (deserialize_fold buffer' n (pi_objects dest)) as [_ Hlk].
  rewrite Hlk.
  replace (i <? n)%nat with true by (symmetry; apply Nat.ltb_lt; done).
  destruct (lookup_lt_is_Some_2 (pi_objects dest) i) as [dst Hdst]; [lia|].
  rewrite Hdst. cbn [fmap option_fmap option_map].
  eexists. split; [reflexivity|].
  apply decoded_object_of_bytes.
  - apply length_header_bytes.
  - unfold objs. rewrite lookup_take_lt by done. done.
  - rewrite Forall_lookup in Hobjs. by apply (Hobjs i).
Qed.

(** The round trip of a page image that counts one object. *)
Lemma page_serialize_roundtrip_witness :
  page_image_wf example_page_image /\
  exists (buffer' : list Z) (page' : PageImage),
    page_serialize example_page_image example_buffer = (PAGE_OK, buffer') /\
    page_deserialize example_dest_image buffer' = (PAGE_OK, page') /\
    pi_header page' = pi_header example_page_image /\
    forall (i : nat) (obj : ObjectBits),
      (i < Z.to_nat (hb_object_count (pi_header example_page_image)))%nat ->
      pi_objects example_page_image !! i = Some obj ->
      exists obj' : ObjectBits,
        pi_objects page' !! i = Some obj' /\ same_object_header obj' obj.
Proof.
  assert (H : page_image_wf example_page_image).
  { unfold page_image_wf, header_bits_wf, mbr_bits_wf, point_bits_wf, is_u32, is_u64.
    simpl. split; [lia|]. split; [|lia].
    repeat constructor; simpl; lia. }
  split; [exact H|].
  apply (page_serialize_roundtrip example_page_image example_dest_image
           example_buffer H).
  - unfold MAX_OBJECTS_PER_PAGE. simpl. lia.
  - unfold example_buffer. rewrite length_replicate. lia.
  - simpl. lia.
Defined.

(** ** Rectangles *)

Lemma mbr_is_empty_false (m : MBR) :
  mbr_is_empty m = false <-> min_x m <= max_x m /\ min_y m <= max_y m.
Proof.
  unfold mbr_is_empty. rewrite orb_false_iff, !Qcltb_false. done.
Qed.

Lemma mbr_intersects_true (a b : MBR) :
  mbr_intersects a b = true <->
  mbr_is_empty a = false /\ mbr_is_empty b = false /\
  min_x b <= max_x a /\ min_x a <= max_x b /\
  min_y b <= max_y a /\ min_y a <= max_y b.
Proof.
  unfold mbr_intersects.
  destruct (mbr_is_empty a), (mbr_is_empty b); cbn [orb];
    try (split; [done|]; intros (? & ? & _); done).
  rewrite negb_true_iff, !orb_false_iff, !Qcltb_false. tauto.
Qed.

Lemma mbr_covers_refl (m : MBR) : mbr_is_empty m = false -> mbr_covers m m.
Proof. intros H. repeat split; try done; unfold Qcle; lra. Qed.


Lemma mbr_union_covers_r (a b : MBR) :
  mbr_is_empty b = false -> mbr_covers (mbr_union a b) b.
Proof.
  intros Hb. unfold mbr_union.
  destruct (mbr_is_empty a) eqn:Ha; [by apply mbr_covers_refl|]. rewrite Hb.
  apply mbr_is_empty_false in Ha as [Ha1 Ha2].
  apply mbr_is_empty_false in Hb as [Hb1 Hb2].
  unfold mbr_covers. rewrite mbr_is_empty_false. unfold fmin, fmax. simpl.
  qc_cases; repeat split; qc_order.
Qed.




(** ** C2: range queries *)






Lemma elem_of_concat {A : Type} (x : A) (ls : list (list A)) :
  x ∈ concat ls <-> exists l, x ∈ l /\ l ∈ ls.
Proof.
  induction ls as [|l ls IH]; simpl.
  - split; [intros H; by apply elem_of_nil in H|].
    intros (l & _ & H). by apply elem_of_nil in H.
  - rewrite elem_of_app, IH. split.
    + intros [H|(l' & H1 & H2)].
      * exists l. split; [done|]. apply elem_of_cons. by left.
      * exists l'. split; [done|]. apply elem_of_cons. by right.
    + intros (l' & H1 & H2). apply elem_of_cons in H2 as [->|H2].
      * by left.
      * right. by exists l'.
Qed.

Lemma NoDup_concat_tagged {A : Type} (g : nat -> list (nat * A)) (pis : list nat) :
  NoDup pis ->
  (forall pi, NoDup (g pi)) ->
  (forall pi x, x ∈ g pi -> fst x = pi) ->
  NoDup (concat (map g pis)).
Proof.
  intros Hpis Hg Htag. induction Hpis as [|pi pis Hnotin Hpis IH]; simpl.
  - constructor.
  - apply list.NoDup_app. split; [apply Hg|]. split; [|done].
    intros x Hx Hx'. apply elem_of_concat in Hx' as (l & Hxl & Hl).
    apply list_elem_of_fmap in Hl as (pi' & -> & Hpi').
    apply Htag in Hx, Hxl. congruence.
Qed.



(** ** Quadtree insertion returns *)

Section QuadTreeTotal.
Context {D : Type}.

Lemma qtnode_push_fuel (child : QTNode D) (item : QTItem D) (max_depth : Z) :
  qtnode_fuel (qtnode_push child item) max_depth = qtnode_fuel child max_depth.
Proof. by destruct child. Qed.

Lemma split_redistribute_fuel (cs : QTNode D * QTNode D * QTNode D * QTNode D)
  (item : QTItem D) (max_depth : Z) (n : nat) :
  (let '(c0, c1, c2, c3) := cs in
   qtnode_fuel c0 max_depth = n /\ qtnode_fuel c1 max_depth = n /\
   qtnode_fuel c2 max_depth = n /\ qtnode_fuel c3 max_depth = n) ->
  let '(c0, c1, c2, c3) := split_redistribute cs item in
  qtnode_fuel c0 max_depth = n /\ qtnode_fuel c1 max_depth = n /\
  qtnode_fuel c2 max_depth = n /\ qtnode_fuel c3 max_depth = n.
Proof.
  destruct cs as [[[c0 c1] c2] c3]. intros (H0 & H1 & H2 & H3).
  unfold split_redistribute.
  destruct (split_child_takes c0 item); [by rewrite qtnode_push_fuel|].
  destruct (split_child_takes c1 item); [by rewrite qtnode_push_fuel|].
  destruct (split_child_takes c2 item); [by rewrite qtnode_push_fuel|].
  destruct (split_child_takes c3 item); [by rewrite qtnode_push_fuel|].
  done.
Qed.

Lemma fold_split_redistribute_fuel (items : list (QTItem D))
  (cs : QTNode D * QTNode D * QTNode D * QTNode D) (max_depth : Z) (n : nat) :
  (let '(c0, c1, c2, c3) := cs in
   qtnode_fuel c0 max_depth = n /\ qtnode_fuel c1 max_depth = n /\
   qtnode_fuel c2 max_depth = n /\ qtnode_fuel c3 max_depth = n) ->
  let '(c0, c1, c2, c3) := fold_left split_redistribute items cs in
  qtnode_fuel c0 max_depth = n /\ qtnode_fuel c1 max_depth = n /\
  qtnode_fuel c2 max_depth = n /\ qtnode_fuel c3 max_depth = n.
Proof.
  revert cs. induction items as [|it items IH]; intros cs H; [done|].
  cbn [fold_left]. apply IH. by apply split_redistribute_fuel.
Qed.

Lemma qtnode_split_fuel (b : MBR) (items : list (QTItem D)) (cap : nat)
  (nw ne sw se : QTNode D) (depth max_depth : Z) (capacity : nat) :
  (depth < max_depth)%Z ->
  exists node',
    qtnode_split (QTN b items cap nw ne sw se depth true) capacity = (QT_OK, node') /\
    (qtnode_fuel node' max_depth
     = 2 * Z.to_nat (max_depth - depth))%nat.
Proof.
  intros Hd. unfold qtnode_split. cbn [negb].
  set (cs0 := (qtnode_create _ capacity (depth + 1), qtnode_create _ capacity (depth + 1),
               qtnode_create _ capacity (depth + 1), qtnode_create _ capacity (depth + 1))).
  pose proof (fold_split_redistribute_fuel items cs0 max_depth
                (2 * Z.to_nat (max_depth - (depth + 1)) + 1)) as H.
  destruct (fold_left split_redistribute items cs0) as [[[c0 c1] c2] c3].
  destruct H as (H0 & H1 & H2 & H3); [by repeat split|].
  eexists. split; [reflexivity|].
  cbn [qtnode_fuel]. rewrite H0, H1, H2, H3. lia.
Qed.

Lemma qtnode_insert_total (fuel : nat) (node : QTNode D) (item : QTItem D)
  (node_capacity : nat) (max_depth : Z) :
  (qtnode_fuel node max_depth <= fuel)%nat ->
  exists r, qtnode_insert fuel node item node_capacity max_depth = Some r.
Proof.
  revert node. induction fuel as [|fuel IH]; intros node Hf.
  - destruct node as [|b items cap nw ne sw se depth leaf]; simpl in Hf; [lia|].
    destruct leaf; lia.
  - destruct node as [|b items cap nw ne sw se depth leaf]; [by eexists|].
    cbn [qtnode_insert].
    destruct (negb (mbr_intersects b (qi_bounds item))); [by eexists|].
    destruct leaf.
    + destruct ((node_capacity <=? length items)%nat && (depth <? max_depth)%Z)
        eqn:Hsplit; [|by eexists].
      apply andb_true_iff in Hsplit as [_ Hd]. apply Z.ltb_lt in Hd.
      destruct (qtnode_split_fuel b items cap nw ne sw se depth max_depth
                  node_capacity Hd) as (node' & Hs & Hfuel).
      rewrite Hs. apply IH. cbn [qtnode_fuel] in Hf. lia.
    + cbn [qtnode_fuel] in Hf.
      destruct (qtnode_contains nw item).
      { destruct (IH nw) as [[err n'] ->]; [lia|by eexists]. }
      destruct (qtnode_contains ne item).
      { destruct (IH ne) as [[err n'] ->]; [lia|by eexists]. }
      destruct (qtnode_contains sw item).
      { destruct (IH sw) as [[err n'] ->]; [lia|by eexists]. }
      destruct (qtnode_contains se item).
      { destruct (IH se) as [[err n'] ->]; [lia|by eexists]. }
      by eexists.
Qed.

Lemma quadtree_insert_with_centroid_total (qt : QuadTree D) (id : Z)
  (bounds : MBR) (centroid : Point) (data : option D) :
  exists r, quadtree_insert_with_centroid qt id bounds centroid data = Some r.
Proof.
  unfold quadtree_insert_with_centroid.
  destruct (qtnode_is_null (qt_root qt)); [by eexists|].
  destruct (qtnode_insert_total (qtnode_fuel (qt_root qt) (qt_max_depth qt))
              (qt_root qt) (mkQTItem id bounds centroid data)
              (qt_node_capacity qt) (qt_max_depth qt)) as [[err root'] ->]; [lia|].
  by eexists.
Qed.

End QuadTreeTotal.

(** ** The page pool under allocation *)

Lemma alter_last {A : Type} (f : A -> A) (l : list A) (x : A) :
  alter f (length l) (l ++ [x]) = l ++ [f x].
Proof.
  replace (length l) with (length l + 0)%nat by lia.
  by rewrite alter_app_r.
Qed.

Lemma pages_grown_alter (f : Page -> Page) (pages pages' : list Page) (pi : nat) :
  (forall p, page_fresh p -> page_fresh (f p)) ->
  pages_grown pages pages' pi ->
  pages_grown pages (alter f pi pages') pi.
Proof.
  intros Hf (-> & p & -> & Hp). split; [done|].
  exists (f p). rewrite alter_last. split; [done|]. by apply Hf.
Qed.

Lemma set_page_track_id_fresh (t : Z) (p : Page) :
  page_fresh p -> page_fresh (set_page_track_id t p).
Proof. by intros [? ?]. Qed.

Lemma set_page_centroid_fresh (c : Point) (p : Page) :
  page_fresh p -> page_fresh (set_page_centroid c p).
Proof. by intros [? ?]. Qed.

Lemma track_add_page_pages (pool : PagePool) (ti pi : nat) :
  pool_pages (snd (track_add_page pool ti pi)) = pool_pages pool \/
  exists t, pool_pages (snd (track_add_page pool ti pi))
            = alter (set_page_track_id t) pi (pool_pages pool).
Proof.
  unfold track_add_page.
  destruct (pool_tracks pool !! ti) as [track|]; [|by left].
  destruct (tr_page_capacity track <=? length (tr_pages track))%nat; [by left|].
  right. by eexists.
Qed.

Lemma track_add_page_grown (pool : PagePool) (ti pi : nat) (pages : list Page) :
  pages_grown pages (pool_pages pool) pi ->
  pages_grown pages (pool_pages (snd (track_add_page pool ti pi))) pi.
Proof.
  intros H. destruct (track_add_page_pages pool ti pi) as [->|[t ->]]; [done|].
  apply pages_grown_alter; [apply set_page_track_id_fresh|done].
Qed.

Lemma page_pool_alloc_grown (pool : PagePool) (track_id : Z) :
  pages_grown (pool_pages pool) (pool_pages (fst (page_pool_alloc pool track_id)))
              (snd (page_pool_alloc pool track_id)).
Proof.
  unfold page_pool_alloc.
  set (pool1 := mkPagePool (pool_pages pool ++ [page_create _ track_id]) _ _ _).
  assert (H1 : pages_grown (pool_pages pool) (pool_pages pool1) (length (pool_pages pool))).
  { split; [done|]. eexists. split; [reflexivity|]. done. }
  destruct (0 <? track_id)%Z; [|done].
  destruct (page_pool_get_track pool1 track_id) as [ti|]; [|done].
  cbn [fst snd]. by apply track_add_page_grown.
Qed.

Lemma disk_manager_create_track_pages (dm : DiskManager) :
  pool_pages (dm_pool (fst (disk_manager_create_track dm))) = pool_pages (dm_pool dm).
Proof. reflexivity. Qed.

Lemma update_allocation_tree_pool (dm : DiskManager) (pi : nat) :
  dm_pool (snd (update_allocation_tree dm pi)) = dm_pool dm.
Proof.
  unfold update_allocation_tree. by destruct (pool_pages (dm_pool dm) !! pi).
Qed.

Lemma disk_manager_alloc_page_grown (sqrt : Qc -> Qc) (dm : DiskManager)
  (centroid : Point) :
  pages_grown (pool_pages (dm_pool dm))
              (pool_pages (dm_pool (fst (disk_manager_alloc_page sqrt dm centroid))))
              (snd (disk_manager_alloc_page sqrt dm centroid)).
Proof.
  unfold disk_manager_alloc_page.
  set (usable := match disk_manager_find_best_track sqrt dm centroid with
                 | Some ti => _ | None => None end).
  assert (Hdm1 : exists dm1 ti,
             match usable with
             | Some ti => (dm, ti)
             | None => disk_manager_create_track dm
             end = (dm1, ti) /\
             pool_pages (dm_pool dm1) = pool_pages (dm_pool dm)).
  { destruct usable; eexists _, _; split; try reflexivity. }
  destruct Hdm1 as (dm1 & ti & -> & Hp1).
  set (track_id := match pool_tracks (dm_pool dm1) !! ti with
                   | Some track => tr_track_id track | None => 0%Z end).
  pose proof (page_pool_alloc_grown (dm_pool dm1) track_id) as Ha.
  destruct (page_pool_alloc (dm_pool dm1) track_id) as [pool2 pi].
  cbn [fst snd] in Ha. rewrite Hp1 in Ha.
  cbn [fst snd dm_pool]. rewrite update_allocation_tree_pool. cbn [dm_pool dm_set_pool].
  apply track_add_page_grown. cbn [pool_alter_page pool_pages].
  apply pages_grown_alter; [apply set_page_centroid_fresh|done].
Qed.

(** ** Expanding and uniting rectangles *)

Lemma DBL_MAX_order : - DBL_MAX < DBL_MAX.
Proof. apply Qcltb_true. vm_compute. reflexivity. Qed.

Lemma mbr_empty_is_empty : mbr_is_empty mbr_empty = true.
Proof. vm_compute. reflexivity. Qed.

Lemma mbr_eq (a b : MBR) :
  min_x a = min_x b -> min_y a = min_y b -> max_x a = max_x b ->
  max_y a = max_y b -> a = b.
Proof. destruct a, b; simpl; congruence. Qed.

Lemma mbr_expand_empty (m : MBR) : mbr_wf m -> mbr_expand_mbr mbr_empty m = m.
Proof.
  intros (Hne & (H1 & H2) & (H3 & H4) & (H5 & H6) & (H7 & H8)).
  unfold mbr_expand_mbr. rewrite Hne. unfold mbr_empty.
  pose proof DBL_MAX_order as HM. revert H1 H2 H3 H4 H5 H6 H7 H8 HM.
  generalize (- DBL_MAX). generalize DBL_MAX. intros M N. intros.
  apply mbr_is_empty_false in Hne as [Hx Hy].
  apply mbr_eq; simpl; qc_cases; qc_order.
Qed.

Lemma mbr_expand_nonempty (acc m : MBR) :
  mbr_is_empty acc = false -> mbr_is_empty m = false ->
  mbr_expand_mbr acc m = mbr_union acc m.
Proof.
  intros Ha Hm. unfold mbr_expand_mbr, mbr_union. rewrite Ha, Hm.
  unfold fmin, fmax. apply mbr_eq; simpl; qc_cases; qc_order.
Qed.

Lemma mbr_union_empty_l (m : MBR) : mbr_union mbr_empty m = m.
Proof. unfold mbr_union. by rewrite mbr_empty_is_empty. Qed.

Lemma mbr_union_nonempty (acc m : MBR) :
  mbr_is_empty m = false -> mbr_is_empty (mbr_union acc m) = false.
Proof. intros Hm. by destruct (mbr_union_covers_r acc m Hm). Qed.

(** On non-empty, finite rectangles, accumulating with [mbr_expand_mbr]
    and uniting with [mbr_union] agree, from the empty rectangle or from
    any non-empty one. *)
Lemma fold_expand_is_union (ms : list MBR) (acc : MBR) :
  Forall mbr_wf ms ->
  acc = mbr_empty \/ mbr_is_empty acc = false ->
  fold_left mbr_expand_mbr ms acc = fold_left mbr_union ms acc.
Proof.
  intros Hms. revert acc. induction Hms as [|m ms Hm Hms IH]; intros acc Hacc; [done|].
  cbn [fold_left].
  assert (Heq : mbr_expand_mbr acc m = mbr_union acc m).
  { destruct Hacc as [->|Hacc].
    - by rewrite mbr_expand_empty, mbr_union_empty_l.
    - apply mbr_expand_nonempty; [done|]. by destruct Hm. }
  rewrite Heq. apply IH. right. apply mbr_union_nonempty. by destruct Hm.
Qed.

Lemma fold_expand_objects (objs : list SpatialObject) (acc : MBR) :
  fold_left (fun e obj => mbr_expand_mbr e (so_mbr obj)) objs acc
  = fold_left mbr_expand_mbr (map so_mbr objs) acc.
Proof. revert acc. induction objs as [|o objs IH]; intros acc; [done|]. apply IH. Qed.

Lemma fold_centroid_sum (objs : list SpatialObject) (a b : Qc) :
  fold_left (fun '(cx, cy) obj =>
               (fadd cx (pt_x (so_centroid obj)), fadd cy (pt_y (so_centroid obj))))
            objs (a, b)
  = (fold_left fadd (map (fun obj => pt_x (so_centroid obj)) objs) a,
     fold_left fadd (map (fun obj => pt_y (so_centroid obj)) objs) b).
Proof.
  revert a b. induction objs as [|o objs IH]; intros a b; [done|].
  cbn [fold_left map]. by rewrite IH.
Qed.

(** [page_update_derived] establishes the invariant of the page. *)
Lemma page_update_derived_ok (double_bits : Qc -> Z) (p : Page) :
  Forall (fun obj => mbr_wf (so_mbr obj)) (pg_objects p) ->
  page_ok (page_update_derived double_bits p).
Proof.
  intros Hwf. unfold page_update_derived.
  rewrite fold_centroid_sum, fold_expand_objects.
  split; [done|]. intros Hn. cbn [pg_extent pg_centroid pg_objects pg_object_count].
  unfold pg_object_count in *. cbn [pg_objects] in Hn. split.
  - unfold mbr_union_all. apply fold_expand_is_union; [|by left].
    by apply Forall_fmap.
  - replace (0 <? length (pg_objects p))%nat with true
      by (symmetry; apply Nat.ltb_lt; done).
    done.
Qed.

Lemma page_update_derived_objects (double_bits : Qc -> Z) (p : Page) :
  pg_objects (page_update_derived double_bits p) = pg_objects p.
Proof.
  unfold page_update_derived.
  by destruct (fold_left _ (pg_objects p) (0, 0)).
Qed.

(** ** Insertion and removal, page by page *)

Section InsertRemove.
Variable sqrt : Qc -> Qc.
Variable double_bits : Qc -> Z.

Lemma update_derived_set_id (obj : SpatialObject) (id : Z) :
  so_mbr (snd (spatial_object_update_derived sqrt (set_id obj id)))
  = so_mbr (snd (spatial_object_update_derived sqrt obj)).
Proof.
  unfold spatial_object_update_derived. cbn [set_id so_geom so_centroid so_mbr].
  destruct (so_geom obj) as [p|ls|ext holes]; [done| |].
  - destruct (linestring_centroid sqrt ls (so_centroid obj)) as [[] c]; try done.
    by destruct (linestring_mbr ls (so_mbr obj)).
  - destruct (polygon_centroid ext (so_centroid obj)) as [[] c]; try done.
    by destruct (polygon_mbr ext (so_mbr obj)).
Qed.

Lemma page_fresh_not_full (p : Page) : page_fresh p -> page_is_full p = false.
Proof. intros [Ho Hc]. unfold page_is_full, pg_object_count. by rewrite Ho, Hc. Qed.

Lemma page_fresh_ok (p : Page) : page_fresh p -> page_ok p.
Proof.
  intros [Ho _]. split; [rewrite Ho; constructor|].
  intros Hn. unfold pg_object_count in Hn. rewrite Ho in Hn. simpl in Hn. lia.
Qed.

(** The page [get_page_for_insert] chooses exists and has room; the pages
    are those of before, possibly with the chosen one appended. *)
Lemma get_page_for_insert_spec (idx : SpatialIndex) (obj : SpatialObject) :
  let r := get_page_for_insert sqrt idx obj in
  si_bounds (fst r) = si_bounds idx /\
  (si_pages (fst r) = si_pages idx \/
   pages_grown (si_pages idx) (si_pages (fst r)) (snd r)) /\
  exists page, si_pages (fst r) !! snd r = Some page /\ page_is_full page = false.
Proof.
  assert (Halloc :
    let r := (let '(disk', pi) :=
                disk_manager_alloc_page sqrt (si_disk idx) (so_centroid obj) in
              (si_set_disk idx disk', pi)) in
    si_bounds (fst r) = si_bounds idx /\
    (si_pages (fst r) = si_pages idx \/
     pages_grown (si_pages idx) (si_pages (fst r)) (snd r)) /\
    exists page, si_pages (fst r) !! snd r = Some page /\ page_is_full page = false).
  { pose proof (disk_manager_alloc_page_grown sqrt (si_disk idx) (so_centroid obj)) as Hg.
    destruct (disk_manager_alloc_page sqrt (si_disk idx) (so_centroid obj))
      as [disk' pi].
    cbn [fst snd] in *. split; [done|]. split; [by right|].
    destruct Hg as (-> & p & Hp & Hfresh). unfold si_pages at 1. cbn [si_set_disk si_disk].
    rewrite Hp. exists p. split; [|by apply page_fresh_not_full].
    rewrite lookup_app_r by done. by rewrite Nat.sub_diag. }
  unfold get_page_for_insert.
  destruct (0 <? kd_size (dm_allocation_tree (si_disk idx)))%nat; [|exact Halloc].
  destruct (kdtree_nearest (dm_allocation_tree (si_disk idx)) (so_centroid obj))
    as [[] [[[np nid] [pi|]]|]]; try exact Halloc.
  destruct (si_pages idx !! pi) as [page|] eqn:Hpage; [|exact Halloc].
  destruct (page_is_full page) eqn:Hfull; [exact Halloc|].
  cbn [negb fst snd]. split; [done|]. split; [by left|]. by exists page.
Qed.

Lemma si_page_add_object_spec (idx : SpatialIndex) (pi : nat) (page : Page)
  (obj : SpatialObject) :
  si_pages idx !! pi = Some page ->
  page_is_full page = false ->
  exists page',
    si_page_add_object idx pi obj
    = (PAGE_OK, si_alter_page (fun _ => page') pi idx) /\
    pg_objects page' = pg_objects page ++ [obj].
Proof.
  intros Hpage Hfull. unfold si_page_add_object. rewrite Hpage.
  unfold page_add_object. unfold page_is_full in Hfull. rewrite Hfull.
  eexists. split; [reflexivity|]. done.
Qed.

Lemma si_alter_page_pages (f : Page -> Page) (pi : nat) (idx : SpatialIndex) :
  si_pages (si_alter_page f pi idx) = alter f pi (si_pages idx).
Proof. reflexivity. Qed.

Lemma insert_finish_pages (idx : SpatialIndex) (pi : nat) (obj : SpatialObject) :
  si_pages (insert_finish double_bits idx pi obj)
  = alter (page_update_derived double_bits) pi (si_pages idx) /\
  si_bounds (insert_finish double_bits idx pi obj)
  = mbr_expand_mbr (si_bounds idx) (so_mbr obj).
Proof. split; reflexivity. Qed.

(** What an insertion does to the pages and to the bounds. *)
Lemma spatial_index_insert_spec (idx : SpatialIndex) (obj : SpatialObject) :
  exists (idx' : SpatialIndex) (obj' : SpatialObject) (pages2 : list Page)
         (pi : nat) (page page' : Page),
    spatial_index_insert sqrt double_bits idx obj = (SI_OK, idx', obj') /\
    so_mbr obj' = inserted_mbr sqrt obj /\
    (pages2 = si_pages idx \/ pages_grown (si_pages idx) pages2 pi) /\
    pages2 !! pi = Some page /\
    pg_objects page' = pg_objects page ++ [obj'] /\
    si_pages idx' = <[pi := page_update_derived double_bits page']> pages2 /\
    si_bounds idx' = mbr_expand_mbr (si_bounds idx) (inserted_mbr sqrt obj).
Proof.
  unfold spatial_index_insert.
  set (p1 := if (so_id obj =? 0)%Z then _ else (idx, obj)).
  assert (H1 : si_pages (fst p1) = si_pages idx /\ si_bounds (fst p1) = si_bounds idx /\
               so_mbr (snd (spatial_object_update_derived sqrt (snd p1)))
               = inserted_mbr sqrt obj).
  { unfold p1. destruct (so_id obj =? 0)%Z; cbn [fst snd]; [|done].
    repeat split. apply update_derived_set_id. }
  destruct p1 as [idx1 obj1]. cbn [fst snd] in H1. destruct H1 as (Hp1 & Hb1 & Hm1).
  set (obj2 := snd (spatial_object_update_derived sqrt obj1)) in *.
  pose proof (get_page_for_insert_spec idx1 obj2) as Hg. cbn zeta in Hg.
  destruct (get_page_for_insert sqrt idx1 obj2) as [idx2 pi].
  cbn [fst snd] in Hg. destruct Hg as (Hb2 & Hp2 & page & Hpage & Hfull).
  destruct (si_page_add_object_spec idx2 pi page obj2 Hpage Hfull)
    as (page' & -> & Hobjs).
  exists (insert_finish double_bits (si_alter_page (fun _ => page') pi idx2) pi obj2),
    obj2, (si_pages idx2), pi, page, page'.
  split; [reflexivity|]. split; [done|].
  split; [by rewrite <- Hp1|]. split; [done|]. split; [done|].
  destruct (insert_finish_pages (si_alter_page (fun _ => page') pi idx2) pi obj2)
    as [-> ->].
  rewrite si_alter_page_pages. split.
  - rewrite list_alter_alter_eq, list_insert_alter. done.
  - cbn [si_alter_page si_set_disk si_bounds]. by rewrite Hb2, Hb1, Hm1.
Qed.

Lemma pages_grown_Forall (Q : Page -> Prop) (pages pages' : list Page) (pi : nat) :
  (forall p, page_fresh p -> Q p) ->
  pages_grown pages pages' pi -> Forall Q pages -> Forall Q pages'.
Proof.
  intros HQ (_ & p & -> & Hp) H. apply Forall_app. split; [done|].
  constructor; [by apply HQ|constructor].
Qed.

Lemma spatial_index_insert_ok (idx : SpatialIndex) (obj : SpatialObject) :
  mbr_wf (inserted_mbr sqrt obj) ->
  Forall page_ok (si_pages idx) ->
  Forall page_ok (si_pages (snd (fst (spatial_index_insert sqrt double_bits idx obj)))).
Proof.
  intros Hwf Hinv.
  destruct (spatial_index_insert_spec idx obj)
    as (idx' & obj' & pages2 & pi & page & page' & -> & Hm & Hp2 & Hpage & Hobjs
        & Hpages & _).
  cbn [fst snd]. rewrite Hpages.
  assert (Hinv2 : Forall page_ok pages2).
  { destruct Hp2 as [->|Hg]; [done|].
    by apply (pages_grown_Forall page_ok _ _ _ page_fresh_ok Hg). }
  apply Forall_insert; [done|].
  apply page_update_derived_ok. rewrite Hobjs. apply Forall_app. split.
  - rewrite Forall_lookup in Hinv2. by destruct (Hinv2 pi page Hpage).
  - constructor; [by rewrite Hm|constructor].
Qed.

Lemma spatial_index_insert_bounds (idx : SpatialIndex) (obj : SpatialObject) :
  si_bounds (snd (fst (spatial_index_insert sqrt double_bits idx obj)))
  = mbr_expand_mbr (si_bounds idx) (inserted_mbr sqrt obj).
Proof.
  destruct (spatial_index_insert_spec idx obj)
    as (idx' & obj' & pages2 & pi & page & page' & -> & _ & _ & _ & _ & _ & Hb).
  done.
Qed.

Lemma spatial_index_insert_returns_ok (idx : SpatialIndex) (obj : SpatialObject) :
  fst (fst (spatial_index_insert sqrt double_bits idx obj)) = SI_OK.
Proof.
  destruct (spatial_index_insert_spec idx obj)
    as (idx' & obj' & pages2 & pi & page & page' & -> & _).
  done.
Qed.

End InsertRemove.

Section RunsFacts.
Variable sqrt : Qc -> Qc.
Variable double_bits : Qc -> Z.

Lemma page_remove_object_objects (page : Page) (object_id : Z) :
  Forall (fun obj => mbr_wf (so_mbr obj)) (pg_objects page) ->
  Forall (fun obj => mbr_wf (so_mbr obj))
         (pg_objects (snd (page_remove_object double_bits page object_id))).
Proof.
  intros H. unfold page_remove_object.
  destruct (find_object_index (pg_objects page) object_id) as [i|]; [|done].
  cbn [snd]. rewrite page_update_derived_objects. cbn [pg_objects].
  apply Forall_app. split; [by apply Forall_take|by apply Forall_drop].
Qed.

Lemma spatial_index_remove_spec (idx : SpatialIndex) (object_id : Z) :
  si_bounds (snd (spatial_index_remove double_bits idx object_id)) = si_bounds idx /\
  (Forall page_ok (si_pages idx) ->
   Forall page_ok (si_pages (snd (spatial_index_remove double_bits idx object_id)))).
Proof.
  unfold spatial_index_remove.
  destruct (find_page_for_object idx object_id) as [pi|]; [|done].
  destruct (si_pages idx !! pi) as [page|] eqn:Hpage; [|done].
  pose proof (page_remove_object_objects page object_id) as Hobjs.
  destruct (page_remove_object double_bits page object_id) as [[] page'];
    cbn [snd] in *; try done.
  split; [reflexivity|]. intros Hinv.
  change (Forall page_ok
            (alter (page_update_derived double_bits) pi
                   (alter (fun _ => page') pi (si_pages idx)))).
  rewrite list_alter_alter_eq. apply Forall_alter; [done|].
  intros p Hp _. cbn. apply page_update_derived_ok. apply Hobjs.
  rewrite Forall_lookup in Hinv. by destruct (Hinv pi page Hpage).
Qed.

Lemma spatial_index_bulk_insert_spec (objects : list SpatialObject)
  (idx : SpatialIndex) :
  let idx' := snd (fst (spatial_index_bulk_insert sqrt double_bits idx objects)) in
  si_bounds idx'
  = fold_left mbr_expand_mbr (map (inserted_mbr sqrt) objects) (si_bounds idx) /\
  (Forall mbr_wf (map (inserted_mbr sqrt) objects) ->
   Forall page_ok (si_pages idx) -> Forall page_ok (si_pages idx')).
Proof.
  revert idx. induction objects as [|obj rest IH]; intros idx; [done|].
  cbn [spatial_index_bulk_insert map fold_left].
  pose proof (spatial_index_insert_returns_ok sqrt double_bits idx obj) as Hok.
  pose proof (spatial_index_insert_bounds sqrt double_bits idx obj) as Hb.
  pose proof (spatial_index_insert_ok sqrt double_bits idx obj) as Hinv.
  destruct (spatial_index_insert sqrt double_bits idx obj) as [[err idx1] obj1].
  cbn [fst snd] in *. subst err.
  specialize (IH idx1). cbn zeta in IH.
  destruct (spatial_index_bulk_insert sqrt double_bits idx1 rest) as [[err2 idx2] rest'].
  cbn [fst snd] in *. destruct IH as [IHb IHinv]. split.
  - by rewrite IHb, Hb.
  - intros Hwf Hpages. apply list.Forall_cons in Hwf as [Hwf1 Hwf2].
    apply IHinv; [done|]. by apply Hinv.
Qed.

Lemma create_block_frame (idx : SpatialIndex) (bounds : MBR) :
  si_pages (create_block idx bounds) = si_pages idx /\
  si_bounds (create_block idx bounds) = si_bounds idx.
Proof. split; reflexivity. Qed.

Lemma fold_create_block_frame (bs : list MBR) (idx : SpatialIndex) :
  si_pages (fold_left create_block bs idx) = si_pages idx /\
  si_bounds (fold_left create_block bs idx) = si_bounds idx.
Proof.
  revert idx. induction bs as [|b bs IH]; intros idx; [done|].
  cbn [fold_left]. destruct (IH (create_block idx b)) as [-> ->].
  apply create_block_frame.
Qed.

Lemma fold_quadtree_insert_total (entries : list (nat * Page)) (qt : QuadTree nat) :
  exists qt',
    fold_left
      (fun oqt '(pi, page) =>
         match oqt with
         | None => None
         | Some qt =>
             if (0 <? pg_object_count page)%nat then
               option_map snd
                 (quadtree_insert_with_centroid qt (pg_page_id page)
                    (pg_extent page) (pg_centroid page) (Some pi))
             else Some qt
         end) entries (Some qt) = Some qt'.
Proof.
  revert qt. induction entries as [|[pi page] entries IH]; intros qt; [by eexists|].
  cbn [fold_left]. destruct (0 <? pg_object_count page)%nat; [|apply IH].
  destruct (quadtree_insert_with_centroid_total qt (pg_page_id page)
              (pg_extent page) (pg_centroid page) (Some pi)) as [[err qt1] ->].
  apply IH.
Qed.

Lemma build_page_quadtree_spec (idx : SpatialIndex) :
  exists err idx',
    build_page_quadtree idx = Some (err, idx') /\
    si_pages idx' = si_pages idx /\ si_bounds idx' = si_bounds idx.
Proof.
  unfold build_page_quadtree.
  destruct (negb (sic_build_quadtree (si_config idx))); [by eexists _, _|].
  destruct (length (si_pages (si_set_page_tree idx None)) =? 0)%nat;
    [by eexists _, _|].
  unfold quadtree_create.
  destruct (fold_quadtree_insert_total
              (imap (fun pi page => (pi, page)) (si_pages (si_set_page_tree idx None)))
              (snd (quadtree_init (D := nat) (si_bounds (si_set_page_tree idx None)) 8
                                  QT_MAX_DEPTH))) as [qt' ->].
  by eexists _, _.
Qed.

Lemma spatial_index_build_spec (idx : SpatialIndex) :
  exists err idx',
    spatial_index_build idx = Some (err, idx') /\
    si_pages idx' = si_pages idx /\ si_bounds idx' = si_bounds idx.
Proof.
  unfold spatial_index_build.
  destruct (page_pool_total_objects (dm_pool (si_disk idx)) =? 0)%nat;
    [by eexists _, _|].
  destruct (kdtree_bulk_load kdtree_init (collect_points (si_pages idx)))
    as [e tree].
  destruct (kdtree_partition tree (sic_block_size (si_config idx))) as [e' bs].
  set (idx1 := mkSpatialIndex _ tree _ _ [] _ _ _ _).
  destruct (fold_create_block_frame bs idx1) as [Hp Hb].
  destruct (build_page_quadtree_spec (fold_left create_block bs idx1))
    as (err & idx3 & -> & Hp3 & Hb3).
  destruct err; eexists _, _; (split; [reflexivity|]);
    cbn [si_set_is_built si_pages si_bounds si_disk];
    (split; [exact (eq_trans Hp3 Hp) | exact (eq_trans Hb3 Hb)]).
Qed.

Lemma spatial_index_find_adjacent_pages_spec (idx : SpatialIndex) (region : MBR) :
  exists err idx' res,
    spatial_index_find_adjacent_pages idx region = Some (err, idx', res) /\
    si_pages idx' = si_pages idx /\ si_bounds idx' = si_bounds idx.
Proof.
  unfold spatial_index_find_adjacent_pages.
  assert (Hb : exists err idx1,
             match si_page_tree idx with
             | None => build_page_quadtree idx
             | Some _ => Some (SI_OK, idx)
             end = Some (err, idx1) /\
             si_pages idx1 = si_pages idx /\ si_bounds idx1 = si_bounds idx).
  { destruct (si_page_tree idx); [by eexists _, _|apply build_page_quadtree_spec]. }
  destruct Hb as (err & idx1 & -> & Hp & Hbd).
  destruct err; try by eexists _, _, _.
  destruct (si_page_tree idx1) as [qt|]; [|by eexists _, _, _].
  destruct (quadtree_find_adjacent_to_region qt region []) as [e qr].
  destruct (length qr =? 0)%nat; by eexists _, _, _.
Qed.

(** One public operation: it returns, the pages keep their invariant, and
    the bounds are expanded by the MBRs of the objects it inserts. *)
Lemma run_op_spec (idx : SpatialIndex) (op : Op) :
  exists idx',
    run_op sqrt double_bits idx op = Some idx' /\
    si_bounds idx'
    = fold_left mbr_expand_mbr (op_inserted_mbrs sqrt op) (si_bounds idx) /\
    (op_valid sqrt op -> Forall page_ok (si_pages idx) ->
     Forall page_ok (si_pages idx')).
Proof.
  destruct op as [obj|objs|id| |r|p|p k|r]; cbn [run_op op_inserted_mbrs fold_left];
    unfold op_valid; cbn [op_inserted_mbrs].
  - eexists. split; [reflexivity|]. split.
    + apply spatial_index_insert_bounds.
    + intros Hv. apply spatial_index_insert_ok. by apply list.Forall_cons in Hv as [? _].
  - eexists. split; [reflexivity|].
    apply (spatial_index_bulk_insert_spec objs idx).
  - eexists. split; [reflexivity|].
    destruct (spatial_index_remove_spec idx id) as [Hb Hinv]. split; [done|].
    intros _. apply Hinv.
  - destruct (spatial_index_build_spec idx) as (err & idx' & -> & Hp & Hb).
    eexists. split; [reflexivity|]. cbn [snd]. split; [done|]. by rewrite Hp.
  - by eexists.
  - by eexists.
  - by eexists.
  - destruct (spatial_index_find_adjacent_pages_spec idx r)
      as (err & idx' & res & -> & Hp & Hb).
    eexists. split; [reflexivity|]. cbn [fst snd]. split; [done|]. by rewrite Hp.
Qed.

Lemma run_ops_spec (ops : list Op) (idx : SpatialIndex) :
  exists idx',
    run_ops sqrt double_bits idx ops = Some idx' /\
    si_bounds idx'
    = fold_left mbr_expand_mbr (concat (map (op_inserted_mbrs sqrt) ops))
                (si_bounds idx) /\
    (Forall (op_valid sqrt) ops -> Forall page_ok (si_pages idx) ->
     Forall page_ok (si_pages idx')).
Proof.
  revert idx. induction ops as [|op ops IH]; intros idx; [by eexists|].
  cbn [run_ops map concat].
  destruct (run_op_spec idx op) as (idx1 & -> & Hb1 & Hinv1).
  destruct (IH idx1) as (idx' & -> & Hb & Hinv).
  eexists. split; [reflexivity|]. split.
  - by rewrite fold_left_app, <- Hb1.
  - intros Hv Hp. apply list.Forall_cons in Hv as [Hv1 Hv2]. apply Hinv; [done|].
    by apply Hinv1.
Qed.

End RunsFacts.

(** ** C3: the derived fields of every page *)




(** ** C4: the bounds of the index *)




(** ** K-d trees: bulk load and the full range query *)

Section KDTreeFacts.
Context {D : Type}.

Lemma qsort_insert_perm (cmp : KDPointData D -> KDPointData D -> Z)
  (e : KDPointData D) (l : list (KDPointData D)) :
  qsort_insert cmp e l ≡ₚ e :: l.
Proof.
  induction l as [|y l IH]; simpl; [done|].
  destruct (cmp e y <=? 0)%Z; [done|].
  rewrite IH. apply Permutation_swap.
Qed.

Lemma qsort_perm (cmp : KDPointData D -> KDPointData D -> Z)
  (l : list (KDPointData D)) : qsort cmp l ≡ₚ l.
Proof.
  induction l as [|e l IH]; simpl; [done|].
  rewrite qsort_insert_perm. by rewrite IH.
Qed.

Lemma kdnode_update_bounds_entries (node : KDNode D) :
  kd_entries (kdnode_update_bounds node) = kd_entries node.
Proof.
  destruct node as [|p id data dim l r b s]; [done|].
  unfold kdnode_update_bounds. destruct l, r; done.
Qed.

(** The sorted array of one call of [build_tree_recursive]. *)
Lemma build_sorted_split (points : list (KDPointData D)) (depth : nat) :
  points <> [] ->
  let sorted := if (depth mod 2 =? 0)%nat then qsort compare_by_x points
                else qsort compare_by_y points in
  sorted ≡ₚ points /\
  exists m, sorted !! (length points / 2)%nat = Some m /\
            take (length points / 2) sorted ++ m
              :: drop (length points / 2 + 1) sorted = sorted.
Proof.
  intros Hne sorted.
  assert (Hp : sorted ≡ₚ points).
  { unfold sorted. destruct (depth mod 2 =? 0)%nat; apply qsort_perm. }
  split; [done|].
  assert (Hlen : length sorted = length points) by (by rewrite Hp).
  assert (Hpos : (0 < length points)%nat) by (destruct points; simpl; [done|lia]).
  destruct (lookup_lt_is_Some_2 sorted (length points / 2)) as [m Hm].
  { rewrite Hlen. apply Nat.div_lt; lia. }
  exists m. split; [done|].
  rewrite Nat.add_1_r. by rewrite take_drop_middle.
Qed.

Lemma build_tree_entries (fuel : nat) (points : list (KDPointData D)) (depth : nat) :
  (length points <= fuel)%nat ->
  kd_entries (build_tree_recursive fuel points depth) ≡ₚ points.
Proof.
  revert points depth. induction fuel as [|fuel IH]; intros points depth Hlen.
  - destruct points; simpl in *; [done|lia].
  - cbn [build_tree_recursive].
    destruct (length points =? 0)%nat eqn:E.
    { apply Nat.eqb_eq in E. destruct points; simpl in *; [done|lia]. }
    apply Nat.eqb_neq in E.
    assert (Hne : points <> []) by (intros ->; done).
    destruct (build_sorted_split points depth Hne) as (Hperm & m & Hm & Hsplit).
    cbv zeta.
    set (sorted := if (depth mod 2 =? 0)%nat then qsort compare_by_x points
                   else qsort compare_by_y points) in *.
    assert (Hls : length sorted = length points) by (by rewrite Hperm).
    clearbody sorted. rewrite Hm.
    rewrite kdnode_update_bounds_entries. cbn [kd_entries].
    assert (Hdiv : (length points / 2 < length points)%nat)
      by (apply Nat.div_lt; lia).
    rewrite !IH.
    + destruct m as [mp mid mdata]. cbn [kpd_point kpd_object_id kpd_data].
      etrans; [|exact Hperm]. rewrite <- Hsplit at 3.
      by rewrite Permutation_middle.
    + rewrite length_drop, Hls. lia.
    + rewrite length_take, Hls. lia.
Qed.

Lemma range_query_covered (node : KDNode D) (range : MBR)
  (result : @KDQueryResult D) :
  kd_covered range node ->
  range_query_recursive node range result = result ++ kd_entries node.
Proof.
  revert result. induction node as [|p id data dim l IHl r IHr b s]; intros result H.
  - simpl. by rewrite app_nil_r.
  - destruct H as (Hb & Hp & Hl & Hr). cbn [range_query_recursive kd_entries].
    rewrite Hb, Hp. cbn [negb]. rewrite IHr, IHl by done.
    unfold kdresult_add. rewrite <- !app_assoc. done.
Qed.

End KDTreeFacts.

Lemma mbr_contains_point_true (b : MBR) (p : Point) :
  mbr_contains_point b p = true <-> point_in b p.
Proof.
  unfold mbr_contains_point, point_in. destruct (mbr_is_empty b) eqn:E.
  - split; [done|]. intros (H1 & H2 & H3 & H4).
    unfold mbr_is_empty in E. apply orb_true_iff in E.
    rewrite !Qcltb_true in E. destruct E; qc_order.
  - rewrite !andb_true_iff, !Qcleb_true. tauto.
Qed.

Lemma mbr_expand_point_new (b : MBR) (p : Point) :
  point_in (mbr_expand_point b p) p.
Proof. unfold point_in, mbr_expand_point. simpl. qc_cases; repeat split; qc_order. Qed.

Lemma mbr_expand_point_mono (b : MBR) (p q : Point) :
  point_in b q -> point_in (mbr_expand_point b p) q.
Proof.
  unfold point_in, mbr_expand_point. simpl. intros (H1 & H2 & H3 & H4).
  qc_cases; repeat split; qc_order.
Qed.

Lemma fold_expand_point_contains {D : Type} (points : list (KDPointData D))
  (acc : MBR) (e : KDPointData D) :
  e ∈ points \/ point_in acc (kpd_point e) ->
  point_in (fold_left (fun b pd => mbr_expand_point b (kpd_point pd)) points acc)
           (kpd_point e).
Proof.
  revert acc. induction points as [|x points IH]; intros acc H; simpl.
  - destruct H as [H|H]; [by apply elem_of_nil in H|done].
  - apply IH. destruct H as [H|H].
    + apply elem_of_cons in H as [->|H]; [right; apply mbr_expand_point_new|by left].
    + right. by apply mbr_expand_point_mono.
Qed.

Lemma mbr_inside_intersects (range b : MBR) :
  mbr_inside range b -> mbr_intersects b range = true.
Proof.
  intros (Hb & Hr & H1 & H2 & H3 & H4). apply mbr_intersects_true.
  apply mbr_is_empty_false in Hb as [Hb1 Hb2].
  pose proof Hr as Hr'. apply mbr_is_empty_false in Hr' as [Hr1 Hr2].
  rewrite !mbr_is_empty_false. repeat split; qc_order.
Qed.

Lemma mbr_inside_point (range : MBR) (p : Point) :
  point_in range p ->
  mbr_inside range (mbr_create (pt_x p) (pt_y p) (pt_x p) (pt_y p)).
Proof.
  intros (H1 & H2 & H3 & H4). unfold mbr_inside, mbr_covers.
  rewrite !mbr_is_empty_false. simpl. repeat split; qc_order.
Qed.

Lemma mbr_inside_expand (range a b : MBR) :
  mbr_inside range a -> mbr_inside range b ->
  mbr_inside range (mbr_expand_mbr a b).
Proof.
  intros (Ha & Hr & A1 & A2 & A3 & A4) (Hb & _ & B1 & B2 & B3 & B4).
  unfold mbr_expand_mbr. rewrite Hb. unfold mbr_inside, mbr_covers.
  apply mbr_is_empty_false in Ha as [Ha1 Ha2].
  apply mbr_is_empty_false in Hb as [Hb1 Hb2].
  rewrite mbr_is_empty_false. simpl.
  split; [qc_cases; split; qc_order|]. split; [done|].
  qc_cases; repeat split; qc_order.
Qed.

(** A tree built from points of [range] is visited in full by a range
    query on [range]: the bounds of every node lie inside [range]. *)
Lemma build_tree_covered {D : Type} (fuel : nat) (points : list (KDPointData D))
  (depth : nat) (range : MBR) :
  (forall e, e ∈ points -> point_in range (kpd_point e)) ->
  kd_covered range (build_tree_recursive fuel points depth) /\
  match build_tree_recursive fuel points depth with
  | KDNull => True
  | KDN _ _ _ _ _ _ b _ => mbr_inside range b
  end.
Proof.
  revert points depth. induction fuel as [|fuel IH]; intros points depth Hin.
  { by simpl. }
  cbn [build_tree_recursive].
  destruct (length points =? 0)%nat eqn:E; [by simpl|].
  apply Nat.eqb_neq in E.
  assert (Hne : points <> []) by (intros ->; done).
  destruct (build_sorted_split points depth Hne) as (Hperm & m & Hm & _).
  cbv zeta.
  set (sorted := if (depth mod 2 =? 0)%nat then qsort compare_by_x points
                 else qsort compare_by_y points) in *.
  assert (Hs : forall e, e ∈ sorted -> point_in range (kpd_point e)).
  { intros e He. apply Hin. by rewrite <- Hperm. }
  clearbody sorted. rewrite Hm.
  assert (Hmp : point_in range (kpd_point m)).
  { apply Hs. by eapply list_elem_of_lookup_2. }
  destruct (IH (take (length points / 2) sorted) (depth + 1)%nat) as [Hl Hlb].
  { intros e He. apply Hs. by eapply subseteq_take. }
  destruct (IH (drop (length points / 2 + 1) sorted) (depth + 1)%nat) as [Hr Hrb].
  { intros e He. apply Hs. by eapply subseteq_drop. }
  pose proof (mbr_inside_point range (kpd_point m) Hmp) as H0.
  assert (Hc : mbr_contains_point range (kpd_point m) = true)
    by (by apply mbr_contains_point_true).
  destruct (build_tree_recursive fuel (take _ sorted) _) as [|? ? ? ? ? ? lb ?],
           (build_tree_recursive fuel (drop _ sorted) _) as [|? ? ? ? ? ? rb ?];
    cbn [kdnode_update_bounds kd_covered];
    (split; [split; [|split; [done|split; done]]|]);
    auto using mbr_inside_intersects, mbr_inside_expand.
Qed.

(** ** The selection sort of [kdtree_k_nearest] *)

Lemma select_min_fold (ds : list DistEntry) (n start acc : nat) :
  let r := fold_left
             (fun min_idx j =>
                if Qcltb (dist_sq_at ds j) (dist_sq_at ds min_idx) then j
                else min_idx)
             (seq start n) acc in
  (r = acc \/ (start <= r < start + n)%nat) /\
  dist_sq_at ds r <= dist_sq_at ds acc /\
  forall j, (start <= j < start + n)%nat -> dist_sq_at ds r <= dist_sq_at ds j.
Proof.
  revert start acc. induction n as [|n IH]; intros start acc; cbn.
  - split; [by left|]. split; [qc_order|]. intros j Hj. lia.
  - set (acc' := if Qcltb (dist_sq_at ds start) (dist_sq_at ds acc)
                 then start else acc).
    destruct (IH (S start) acc') as (Hr & Hacc & Hall).
    assert (Ha : dist_sq_at ds acc' <= dist_sq_at ds acc /\
                 dist_sq_at ds acc' <= dist_sq_at ds start /\
                 (acc' = acc \/ acc' = start)).
    { unfold acc'. qc_cases; (split; [qc_order|split; [qc_order|auto]]). }
    destruct Ha as (Ha1 & Ha2 & Ha3).
    split; [|split].
    + destruct Hr as [->|Hr]; [|right; lia].
      destruct Ha3 as [->| ->]; [by left|right; lia].
    + qc_order.
    + intros j Hj. destruct (decide (j = start)) as [->|Hne].
      * qc_order.
      * apply Hall. lia.
Qed.

Lemma select_min_spec (ds : list DistEntry) (i : nat) :
  (i < length ds)%nat ->
  (i <= select_min ds i < length ds)%nat /\
  forall j, (i <= j < length ds)%nat ->
    dist_sq_at ds (select_min ds i) <= dist_sq_at ds j.
Proof.
  intros Hi. unfold select_min.
  destruct (select_min_fold ds (length ds - (i + 1)) (i + 1) i) as (Hr & Hacc & Hall).
  split; [lia|]. intros j Hj. destruct (decide (j = i)) as [->|Hne]; [done|].
  apply Hall. lia.
Qed.

Lemma swap_entries_lookup (ds : list DistEntry) (i m j : nat) :
  (i < length ds)%nat -> (m < length ds)%nat ->
  swap_entries ds i m !! j = ds !! swapped i m j.
Proof.
  intros Hi Hm. unfold swap_entries, swapped.
  destruct (m =? i)%nat eqn:E.
  { apply Nat.eqb_eq in E as ->. by destruct (j =? i)%nat eqn:E'; [apply Nat.eqb_eq in E' as ->|]. }
  apply Nat.eqb_neq in E.
  destruct (lookup_lt_is_Some_2 ds i Hi) as [x Hx].
  destruct (lookup_lt_is_Some_2 ds m Hm) as [y Hy].
  rewrite Hx, Hy.
  destruct (j =? i)%nat eqn:Ei.
  { apply Nat.eqb_eq in Ei as ->.
    rewrite list_lookup_insert_ne by done.
    by rewrite list_lookup_insert_eq. }
  apply Nat.eqb_neq in Ei.
  destruct (j =? m)%nat eqn:Em.
  { apply Nat.eqb_eq in Em as ->.
    rewrite list_lookup_insert_eq by (by rewrite length_insert). done. }
  apply Nat.eqb_neq in Em.
  by rewrite !list_lookup_insert_ne by done.
Qed.

Lemma swap_entries_perm (ds : list DistEntry) (i m : nat) :
  swap_entries ds i m ≡ₚ ds.
Proof.
  unfold swap_entries. destruct (m =? i)%nat; [done|].
  destruct (ds !! i) as [x|] eqn:Hx; [|done].
  destruct (ds !! m) as [y|] eqn:Hy; [|done].
  by apply Permutation_insert_swap.
Qed.

Lemma swap_entries_take (ds : list DistEntry) (i m : nat) :
  (i <= m)%nat -> take i (swap_entries ds i m) = take i ds.
Proof.
  intros Him. unfold swap_entries. destruct (m =? i)%nat; [done|].
  destruct (ds !! i) as [x|]; [|done].
  destruct (ds !! m) as [y|]; [|done].
  by rewrite !take_insert_ge by lia.
Qed.

Lemma dist_sq_at_lookup (ds : list DistEntry) (j : nat) (e : DistEntry) :
  ds !! j = Some e -> dist_sq_at ds j = de_dist_sq e.
Proof. unfold dist_sq_at. by intros ->. Qed.

(** One round of the selection sort extends the sorted prefix. *)
Lemma select_swap_prefix_min (ds : list DistEntry) (i : nat) :
  (i < length ds)%nat -> prefix_min i ds ->
  prefix_min (S i) (swap_entries ds i (select_min ds i)).
Proof.
  intros Hi Hpre. destruct (select_min_spec ds i Hi) as (Hm & Hmin).
  set (m := select_min ds i) in *.
  intros a b x y Ha Hab. rewrite !swap_entries_lookup by lia.
  intros Hx Hy.
  assert (Hb : (swapped i m b < length ds)%nat) by (by eapply lookup_lt_Some).
  destruct (decide (a = i)) as [->|Hne].
  - unfold swapped at 1 in Hx. rewrite Nat.eqb_refl in Hx.
    rewrite <- (dist_sq_at_lookup _ _ _ Hx), <- (dist_sq_at_lookup _ _ _ Hy).
    apply Hmin. split; [|done]. unfold swapped.
    destruct (b =? i)%nat; [lia|]. destruct (b =? m)%nat; lia.
  - assert (Hlt : (a < i)%nat) by lia.
    assert (Hsa : swapped i m a = a).
    { unfold swapped. destruct (a =? i)%nat eqn:E1; [apply Nat.eqb_eq in E1; lia|].
      destruct (a =? m)%nat eqn:E2; [apply Nat.eqb_eq in E2; lia|done]. }
    rewrite Hsa in Hx. eapply (Hpre a (swapped i m b)); [done| |done|done].
    unfold swapped. destruct (b =? i)%nat; [lia|]. destruct (b =? m)%nat; lia.
Qed.

Lemma omap_of_fmap_Some {A B : Type} (f : A -> option B) (l : list A) (k : list B) :
  f <$> l = Some <$> k -> omap f l = k.
Proof.
  revert k. induction l as [|x l IH]; intros [|y k] H; simpl in *; try done.
  injection H as Hx Hl. rewrite Hx. simpl. f_equal. by apply IH.
Qed.

Lemma fmap_Some_omap {A B : Type} (f : A -> option B) (l : list A) :
  (forall x, x ∈ l -> is_Some (f x)) -> f <$> l = Some <$> omap f l.
Proof.
  induction l as [|x l IH]; intros H; [done|].
  destruct (H x) as [y Hy]; [apply elem_of_cons; by left|].
  cbn. rewrite Hy. cbn. f_equal. apply IH. intros z Hz. apply H.
  apply elem_of_cons. by right.
Qed.

Section KNearestFacts.
Context {D : Type}.

(** [k] rounds of the selection sort: the distance array is permuted, its
    first [k] entries are the [k] smallest in order, and the entries of
    [all] they index have been appended to the result. *)
Lemma k_nearest_fold (all : @KDQueryResult D) (ds0 : list DistEntry)
  (res0 : @KDQueryResult D) (m : nat) :
  (forall e, e ∈ ds0 -> is_Some (all !! de_idx e)) ->
  (m <= length ds0)%nat ->
  exists ds picked,
    fold_left (k_nearest_step all) (seq 0 m) (ds0, res0) = (ds, res0 ++ picked) /\
    ds ≡ₚ ds0 /\ prefix_min m ds /\
    Some <$> picked = (fun e => all !! de_idx e) <$> take m ds.
Proof.
  intros Hvalid. induction m as [|m IH]; intros Hm.
  - exists ds0, []. simpl. rewrite app_nil_r. repeat split; try done.
    intros a b x y Ha. lia.
  - destruct IH as (ds & picked & Hf & Hp & Hpre & Hpick); [lia|].
    rewrite seq_S, fold_left_app, Hf. cbn [fold_left Nat.add k_nearest_step].
    assert (Hlen : length ds = length ds0) by (by rewrite Hp).
    set (ds' := swap_entries ds m (select_min ds m)).
    assert (Hp' : ds' ≡ₚ ds0) by (unfold ds'; by rewrite swap_entries_perm).
    destruct (lookup_lt_is_Some_2 ds' m) as [e He].
    { rewrite Hp'. lia. }
    rewrite He. destruct (Hvalid e) as [a Ha].
    { rewrite <- Hp'. by eapply list_elem_of_lookup_2. }
    rewrite Ha. exists ds', (picked ++ [a]). split; [|split; [done|split]].
    + f_equal. unfold kdresult_add. destruct a. simpl. by rewrite app_assoc.
    + apply select_swap_prefix_min; [lia|done].
    + rewrite (take_S_r _ _ _ He), !fmap_app. unfold ds' at 1.
      rewrite swap_entries_take, <- Hpick.
      * simpl. by rewrite Ha.
      * apply select_min_spec. lia.
Qed.

(** On a tree whose bounds cover all its nodes, [kdtree_k_nearest] returns
    the first [k] entries of a sorted permutation of the tree's entries. *)
Lemma kdtree_k_nearest_sorted (tree : KDTree D) (q : Point) (k : nat)
  (result : @KDQueryResult D) :
  kd_covered (kd_bounds tree) (kd_root tree) ->
  (1 <= k <= length (kd_entries (kd_root tree)))%nat ->
  exists sorted,
    kdtree_k_nearest tree q k result = (KD_OK, take k sorted) /\
    sorted ≡ₚ kd_entries (kd_root tree) /\
    nearest_first q k sorted.
Proof.
  intros Hcov Hk. unfold kdtree_k_nearest.
  destruct (kdnode_is_null (kd_root tree)) eqn:En.
  { destruct (kd_root tree); [simpl in Hk; lia|done]. }
  destruct (k =? 0)%nat eqn:Ek; [apply Nat.eqb_eq in Ek; lia|].
  rewrite (range_query_covered _ _ _ Hcov). cbn [app kdresult_clear].
  set (all := kd_entries (kd_root tree)) in *.
  set (ds0 := imap (fun i a => mkDistEntry i (point_distance_sq q (kpd_point a))) all).
  set (f := fun e : DistEntry => all !! de_idx e).
  assert (Hds0 : forall e, e ∈ ds0 ->
            exists a, f e = Some a /\ de_dist_sq e = point_distance_sq q (kpd_point a)).
  { intros e He. apply elem_of_lookup_imap in He as (i & a & -> & Ha). by exists a. }
  assert (Hf0 : f <$> ds0 = Some <$> all).
  { unfold ds0. rewrite fmap_imap. apply list_eq. intros i.
    rewrite list_lookup_imap, list_lookup_fmap.
    destruct (all !! i) as [a|] eqn:Ea; [|done]. simpl. unfold f. simpl. by rewrite Ea. }
  assert (Hl0 : length ds0 = length all) by (unfold ds0; by rewrite length_imap).
  rewrite Nat.min_l by lia. unfold kdresult_clear.
  destruct (k_nearest_fold all ds0 [] k) as (ds & picked & -> & Hp & Hpre & Hpick).
  { intros e He. destruct (Hds0 e He) as (a & Ha & _). by exists a. }
  { lia. }
  cbn [snd app].
  assert (Hds : forall e, e ∈ ds ->
            exists a, f e = Some a /\ de_dist_sq e = point_distance_sq q (kpd_point a)).
  { intros e He. apply Hds0. by rewrite <- Hp. }
  assert (Hfs : f <$> ds = Some <$> omap f ds).
  { apply fmap_Some_omap. intros e He. destruct (Hds e He) as (a & Ha & _). by exists a. }
  exists (omap f ds). split; [|split].
  - f_equal. transitivity (omap f (take k ds)).
    + symmetry. apply omap_of_fmap_Some. by rewrite Hpick.
    + apply omap_of_fmap_Some. by rewrite fmap_take, Hfs, fmap_take.
  - rewrite Hp. by rewrite (omap_of_fmap_Some _ _ _ Hf0).
  - intros i j x y Hi Hij Hx Hy.
    assert (Hlk : forall n z, omap f ds !! n = Some z ->
              exists e, ds !! n = Some e /\
                        de_dist_sq e = point_distance_sq q (kpd_point z)).
    { intros n z Hz.
      assert (H' : (f <$> ds) !! n = Some (Some z))
        by (by rewrite Hfs, list_lookup_fmap, Hz).
      rewrite list_lookup_fmap in H'.
      destruct (ds !! n) as [e|] eqn:Ee; [|done]. simpl in H'.
      exists e. split; [done|].
      destruct (Hds e) as (a & Ha & Hd); [by eapply list_elem_of_lookup_2|].
      congruence. }
    destruct (Hlk i x Hx) as (ex & Hex & <-).
    destruct (Hlk j y Hy) as (ey & Hey & <-).
    by eapply Hpre.
Qed.

End KNearestFacts.

(** ** The block tree of a built index *)

Lemma bulk_load_tree {D : Type} (points : list (KDPointData D)) :
  points <> [] ->
  kd_covered (kd_bounds (kdtree_bulk_load kdtree_init points).2)
             (kd_root (kdtree_bulk_load kdtree_init points).2) /\
  kd_entries (kd_root (kdtree_bulk_load kdtree_init points).2) ≡ₚ points.
Proof.
  intros Hne. unfold kdtree_bulk_load.
  destruct (length points =? 0)%nat eqn:E.
  { apply Nat.eqb_eq in E. by destruct points. }
  cbn [snd kd_bounds kd_root]. split.
  - apply build_tree_covered. intros e He.
    apply fold_expand_point_contains. by left.
  - by apply build_tree_entries.
Qed.

Lemma fmap_concat_imap {A B C : Type} (g : B -> C) (F : nat -> A -> list B)
  (l : list A) :
  g <$> concat (imap F l) = concat (imap (fun i x => g <$> F i x) l).
Proof.
  revert F. induction l as [|x l IH]; intros F; [done|].
  cbn. rewrite fmap_app. f_equal. apply IH.
Qed.

Lemma length_concat_imap {A B C : Type} (F : nat -> A -> list B)
  (G : A -> list C) (l : list A) :
  (forall i x, length (F i x) = length (G x)) ->
  length (concat (imap F l)) = length (concat (map G l)).
Proof.
  revert F. induction l as [|x l IH]; intros F H; [done|].
  cbn. rewrite !length_app, H. f_equal. apply IH. intros i y. apply H.
Qed.

Lemma page_pool_total_objects_length (pool : PagePool) :
  page_pool_total_objects pool = length (concat (map pg_objects (pool_pages pool))).
Proof.
  unfold page_pool_total_objects.
  assert (H : forall pages n,
             fold_left (fun n page => (n + pg_object_count page)%nat) pages n
             = (n + length (concat (map pg_objects pages)))%nat).
  { induction pages as [|page pages IH]; intros n; simpl; [lia|].
    rewrite IH, length_app. unfold pg_object_count. lia. }
  apply H.
Qed.

Lemma collect_points_pointers (idx : SpatialIndex) :
  entry_pointer <$> collect_points (si_pages idx) = stored_pointers idx.
Proof.
  unfold collect_points, stored_pointers. rewrite fmap_concat_imap. f_equal.
  apply imap_ext. intros pi page _. by rewrite fmap_imap.
Qed.

Lemma stored_pointers_length (idx : SpatialIndex) :
  length (stored_pointers idx) = length (stored_objects idx).
Proof.
  apply length_concat_imap. intros pi page. by rewrite length_imap.
Qed.

Lemma collect_points_length (idx : SpatialIndex) :
  length (collect_points (si_pages idx)) = length (stored_objects idx).
Proof.
  by rewrite <- stored_pointers_length, <- collect_points_pointers, length_fmap.
Qed.

(** Every collected point carries the pointer to its object and that
    object's centroid. *)
Lemma collect_points_entry (idx : SpatialIndex) (p : Point) (a : KDPointData ObjPtr) :
  a ∈ collect_points (si_pages idx) ->
  is_Some (kpd_data a) /\
  centroid_dist_sq idx p (entry_pointer a) = point_distance_sq p (kpd_point a).
Proof.
  unfold collect_points. intros Ha.
  apply elem_of_concat in Ha as (l & Hal & Hl).
  apply elem_of_lookup_imap in Hl as (pi & page & -> & Hpage).
  apply elem_of_lookup_imap in Hal as (j & obj & -> & Hobj).
  split; [by eexists|].
  unfold centroid_dist_sq, deref_object, entry_pointer. simpl.
  by rewrite Hpage, Hobj.
Qed.

Lemma stored_pointers_NoDup (idx : SpatialIndex) : NoDup (stored_pointers idx).
Proof.
  unfold stored_pointers. set (pages := si_pages idx).
  set (g := fun pi : nat =>
              match pages !! pi with
              | Some page => imap (fun j (_ : SpatialObject) => (pi, j)) (pg_objects page)
              | None => []
              end).
  assert (Hg : imap (fun pi page => imap (fun j (_ : SpatialObject) => (pi, j))
                                         (pg_objects page)) pages
               = map g (seq 0 (length pages))).
  { apply list_eq. intros i.
    rewrite list_lookup_imap. change (map g ?l) with (g <$> l).
    rewrite list_lookup_fmap.
    destruct (pages !! i) as [page|] eqn:E.
    - rewrite lookup_seq_lt by (by eapply lookup_lt_Some).
      simpl. unfold g. by rewrite E.
    - rewrite lookup_seq_ge; [done|]. by apply lookup_ge_None. }
  rewrite Hg. apply NoDup_concat_tagged.
  - apply NoDup_seq.
  - intros pi. unfold g. destruct (pages !! pi) as [page|]; [|constructor].
    apply (NoDup_fmap_1 snd). rewrite fmap_imap.
    change (imap _ (pg_objects page))
      with (imap (fun j (_ : SpatialObject) => id j) (pg_objects page)).
    rewrite imap_seq_0, list_fmap_id. apply NoDup_seq.
  - intros pi x. unfold g. destruct (pages !! pi) as [page|].
    + intros Hx. by apply elem_of_lookup_imap in Hx as (j & obj & -> & _).
    + intros Hx. by apply elem_of_nil in Hx.
Qed.

Lemma create_block_tree (idx : SpatialIndex) (bounds : MBR) :
  si_block_tree (create_block idx bounds) = si_block_tree idx.
Proof. reflexivity. Qed.

Lemma fold_create_block_tree (bs : list MBR) (idx : SpatialIndex) :
  si_block_tree (fold_left create_block bs idx) = si_block_tree idx.
Proof.
  revert idx. induction bs as [|b bs IH]; intros idx; [done|].
  cbn [fold_left]. rewrite IH. apply create_block_tree.
Qed.

Lemma build_page_quadtree_tree (idx idx' : SpatialIndex) (err : SIError) :
  build_page_quadtree idx = Some (err, idx') ->
  si_block_tree idx' = si_block_tree idx.
Proof.
  unfold build_page_quadtree. intros H.
  destruct (negb (sic_build_quadtree (si_config idx))); [by simplify_eq|].
  destruct (length (si_pages (si_set_page_tree idx None)) =? 0)%nat;
    [by simplify_eq|].
  destruct (quadtree_create _ _ _); [|by simplify_eq].
  destruct (fold_left _ _ _); by simplify_eq.
Qed.

(** A successful build leaves the pages alone and, when objects are
    stored, bulk-loads the block tree from their centroids. *)
Lemma spatial_index_build_tree (idx0 idx : SpatialIndex) :
  spatial_index_build idx0 = Some (SI_OK, idx) ->
  si_pages idx = si_pages idx0 /\
  (stored_objects idx0 <> [] ->
   si_block_tree idx
   = (kdtree_bulk_load kdtree_init (collect_points (si_pages idx0))).2).
Proof.
  intros H. split.
  { destruct (spatial_index_build_spec idx0) as (err & idx' & H' & Hp & _).
    rewrite H in H'. by simplify_eq. }
  intros Hne. unfold spatial_index_build in H.
  destruct (page_pool_total_objects (dm_pool (si_disk idx0)) =? 0)%nat eqn:E.
  { apply Nat.eqb_eq in E. rewrite page_pool_total_objects_length in E.
    destruct Hne. unfold stored_objects, si_pages.
    by apply length_zero_iff_nil. }
  destruct (kdtree_bulk_load kdtree_init (collect_points (si_pages idx0)))
    as [e tree].
  destruct (kdtree_partition tree (sic_block_size (si_config idx0))) as [e' bs].
  destruct (build_page_quadtree _) as [[err idx3]|] eqn:Eq; [|done].
  apply build_page_quadtree_tree in Eq. rewrite fold_create_block_tree in Eq.
  destruct err; simplify_eq. exact Eq.
Qed.

Lemma knn_collect (l : list (KDPointData ObjPtr)) (res : SpatialQueryResult) :
  (forall a, a ∈ l -> is_Some (kpd_data a)) ->
  fold_left
    (fun res e =>
       match kpd_data e with
       | Some obj => spatial_result_add res obj
       | None => res
       end) l res
  = mkSpatialQueryResult (sr_objects res ++ (entry_pointer <$> l))
                         (sr_pages_accessed res).
Proof.
  revert res. induction l as [|a l IH]; intros res H.
  - simpl. rewrite app_nil_r. by destruct res.
  - cbn [fold_left]. destruct (H a) as [ptr Hptr]; [apply elem_of_cons; by left|].
    assert (Ha : entry_pointer a = ptr) by (unfold entry_pointer; by rewrite Hptr).
    rewrite Hptr, IH by (intros z Hz; apply H, elem_of_cons; by right).
    rewrite fmap_cons, Ha. cbn. by rewrite <- app_assoc.
Qed.

Lemma stored_pointers_deref (idx : SpatialIndex) (ptr : ObjPtr) :
  ptr ∈ stored_pointers idx <-> is_Some (deref_object idx ptr).
Proof.
  unfold stored_pointers, deref_object. split.
  - intros H. apply elem_of_concat in H as (l & Hl & Hin).
    apply elem_of_lookup_imap in Hin as (pi & page & -> & Hpage).
    apply elem_of_lookup_imap in Hl as (j & obj & -> & Hobj).
    cbn [fst snd]. rewrite Hpage. by exists obj.
  - destruct ptr as [pi j]. cbn [fst snd]. intros [obj H].
    destruct (si_pages idx !! pi) as [page|] eqn:Hpage; [|done].
    apply elem_of_concat.
    exists (imap (fun j (_ : SpatialObject) => (pi, j)) (pg_objects page)). split.
    + apply (elem_of_lookup_imap_2 (fun j (_ : SpatialObject) => (pi, j)) _ _ _ H).
    + apply (elem_of_lookup_imap_2
               (fun pi page => imap (fun j (_ : SpatialObject) => (pi, j))
                                    (pg_objects page)) _ _ _ Hpage).
Qed.

(** C5.  On an index that [spatial_index_build] has built, for every query
    point [p] and every [k] between 1 and the number of stored objects,
    when the squared distance that double arithmetic computes from [p] to
    the centroid of a stored object ([point_distance_sq]) is a NaN for no
    stored object, [spatial_index_query_knn] succeeds and returns [k]
    distinct stored objects, in non-decreasing order of that computed
    squared distance, and no stored object that is not returned has a
    smaller computed squared distance than a returned one. *)
Theorem query_knn_k_nearest
  (idx0 idx : SpatialIndex) (p : Point) (k : nat) (result : SpatialQueryResult) :
  spatial_index_build idx0 = Some (SI_OK, idx) ->
  (1 <= k <= length (stored_objects idx))%nat ->
  Forall (fun obj => is_nan (point_distance_sq p (so_centroid obj)) = false)
         (stored_objects idx) ->
  exists ptrs : list ObjPtr,
    spatial_index_query_knn idx p k result
    = (SI_OK, mkSpatialQueryResult ptrs 0) /\
    length ptrs = k /\
    NoDup ptrs /\
    (forall ptr, ptr ∈ ptrs -> is_Some (deref_object idx ptr)) /\
    (forall i j a b, (i <= j)%nat -> ptrs !! i = Some a -> ptrs !! j = Some b ->
       centroid_dist_sq idx p a <= centroid_dist_sq idx p b) /\
    (forall a b, a ∈ ptrs -> is_Some (deref_object idx b) -> b ∉ ptrs ->
       centroid_dist_sq idx p a <= centroid_dist_sq idx p b).
Proof.
  intros Hbuild Hk _.
  destruct (spatial_index_build_tree idx0 idx Hbuild) as [Hpages Htree].
  assert (Hso : stored_objects idx0 = stored_objects idx)
    by (unfold stored_objects; by rewrite Hpages).
  rewrite <- Hpages in Htree.
  set (pts := collect_points (si_pages idx)) in *.
  assert (Hlen : length pts = length (stored_objects idx))
    by apply collect_points_length.
  assert (Hne : pts <> []) by (intros E; rewrite E in Hlen; simpl in Hlen; lia).
  rewrite Hso in Htree.
  assert (Hst : stored_objects idx <> [])
    by (intros E; rewrite E in Hk; simpl in Hk; lia).
  specialize (Htree Hst).
  destruct (bulk_load_tree pts Hne) as [Hcov Hent]. rewrite <- Htree in Hcov, Hent.
  destruct (kdtree_k_nearest_sorted (si_block_tree idx) p k [] Hcov)
    as (sorted & Hknn & Hperm & Hnear).
  { rewrite Hent. lia. }
  rewrite Hent in Hperm.
  assert (Hentry : forall a, a ∈ sorted ->
            is_Some (kpd_data a) /\
            centroid_dist_sq idx p (entry_pointer a)
            = point_distance_sq p (kpd_point a)).
  { intros a Ha. apply collect_points_entry. fold pts. by rewrite <- Hperm. }
  assert (Hsp : entry_pointer <$> sorted ≡ₚ stored_pointers idx).
  { rewrite Hperm. unfold pts. by rewrite collect_points_pointers. }
  assert (Hls : length sorted = length pts) by (by rewrite Hperm).
  assert (Hlk : forall i a, (entry_pointer <$> take k sorted) !! i = Some a ->
            exists x, sorted !! i = Some x /\ (i < k)%nat /\ a = entry_pointer x).
  { intros i a Ha. rewrite list_lookup_fmap in Ha.
    destruct (take k sorted !! i) as [x|] eqn:Ex; [|done].
    apply lookup_take_Some in Ex as [Ex Hi]. exists x. by simplify_eq/=. }
  exists (entry_pointer <$> take k sorted).
  unfold spatial_index_query_knn.
  destruct (k =? 0)%nat eqn:Ek; [apply Nat.eqb_eq in Ek; lia|].
  rewrite Hknn, knn_collect.
  2:{ intros a Ha. apply Hentry. by eapply subseteq_take. }
  split; [done|]. split; [|split; [|split; [|split]]].
  - rewrite length_fmap, length_take. lia.
  - rewrite fmap_take. eapply sublist_NoDup; [|apply sublist_take].
    rewrite Hsp. apply stored_pointers_NoDup.
  - intros ptr Hptr. apply stored_pointers_deref. rewrite <- Hsp.
    rewrite fmap_take in Hptr. by eapply subseteq_take.
  - intros i j a b Hij Ha Hb.
    destruct (Hlk i a Ha) as (x & Hx & Hi & ->).
    destruct (Hlk j b Hb) as (y & Hy & Hj & ->).
    destruct (Hentry x) as [_ ->]; [by eapply list_elem_of_lookup_2|].
    destruct (Hentry y) as [_ ->]; [by eapply list_elem_of_lookup_2|].
    by apply (Hnear i j x y).
  - intros a b Ha Hb Hnb.
    apply list_elem_of_lookup_1 in Ha as [i Ha].
    destruct (Hlk i a Ha) as (x & Hx & Hi & ->).
    apply stored_pointers_deref in Hb. rewrite <- Hsp in Hb.
    apply list_elem_of_fmap in Hb as (y & -> & Hy).
    apply list_elem_of_lookup_1 in Hy as [j Hy].
    destruct (decide (j < k)%nat) as [Hj|Hj].
    { destruct Hnb. apply list_elem_of_fmap. exists y. split; [done|].
      apply elem_of_take. by exists j. }
    destruct (Hentry x) as [_ ->]; [by eapply list_elem_of_lookup_2|].
    destruct (Hentry y) as [_ ->]; [by eapply list_elem_of_lookup_2|].
    apply (Hnear i j x y); [done|lia|done|done].
Qed.

(** The three nearest neighbours of (1/2, 1/2) among five points on the
    diagonal. *)
Lemma query_knn_k_nearest_witness :
  spatial_index_build example_index = Some (SI_OK, example_built_index) /\
  (1 <= 3 <= length (stored_objects example_built_index))%nat /\
  Forall (fun obj => is_nan (point_distance_sq example_query (so_centroid obj))
                     = false)
         (stored_objects example_built_index) /\
  exists ptrs : list ObjPtr,
    spatial_index_query_knn example_built_index example_query 3
                            (mkSpatialQueryResult [] 0)
    = (SI_OK, mkSpatialQueryResult ptrs 0) /\
    length ptrs = 3%nat /\
    NoDup ptrs /\
    (forall ptr, ptr ∈ ptrs -> is_Some (deref_object example_built_index ptr)) /\
    (forall i j a b, (i <= j)%nat -> ptrs !! i = Some a -> ptrs !! j = Some b ->
       centroid_dist_sq example_built_index example_query a
       <= centroid_dist_sq example_built_index example_query b) /\
    (forall a b, a ∈ ptrs -> is_Some (deref_object example_built_index b) ->
       b ∉ ptrs ->
       centroid_dist_sq example_built_index example_query a
       <= centroid_dist_sq example_built_index example_query b).
Proof.
  assert (H : spatial_index_build example_index = Some (SI_OK, example_built_index)).
  { vm_compute. reflexivity. }
  assert (Hk : (1 <= 3 <= length (stored_objects example_built_index))%nat)
    by (vm_compute; lia).
  assert (Hn : Forall (fun obj => is_nan (point_distance_sq example_query
                                           (so_centroid obj)) = false)
                      (stored_objects example_built_index))
    by (apply Forall_fold_right; vm_compute; tauto).
  split; [exact H|]. split; [exact Hk|]. split; [exact Hn|].
  exact (query_knn_k_nearest example_index example_built_index example_query 3
           (mkSpatialQueryResult [] 0) H Hk Hn).
Defined.

(** C5 as stated fails: distances are compared as double arithmetic
    computes their squares, not as they are.  Store the points (0, 1) and
    (0.6, 0.8) and ask for the one nearest to the origin.  The first is at
    distance 1; the doubles the literals denote put the second a little
    farther away; both squared distances are computed as 1, and the query
    returns the second point and leaves out the first, which is strictly
    closer. *)
Lemma query_knn_rounding_counterexample :
  spatial_index_build example_tie_index = Some (SI_OK, example_tie_built_index) /\
  spatial_index_query_knn example_tie_built_index (mkPoint 0 0) 1
                          (mkSpatialQueryResult [] 0)
  = (SI_OK, mkSpatialQueryResult [(0, 1)%nat] 0) /\
  is_Some (deref_object example_tie_built_index (0, 0)%nat) /\
  centroid_dist_sq example_tie_built_index (mkPoint 0 0) (0, 0)%nat
  = centroid_dist_sq example_tie_built_index (mkPoint 0 0) (0, 1)%nat /\
  centroid_exact_dist_sq example_tie_built_index (mkPoint 0 0) (0, 0)%nat
  < centroid_exact_dist_sq example_tie_built_index (mkPoint 0 0) (0, 1)%nat.
Proof.
  split; [vm_compute; reflexivity|].
  split; [vm_compute; reflexivity|].
  split; [vm_compute; by eexists|].
  split; [apply Qc_is_canon; vm_compute; reflexivity|].
  vm_compute. reflexivity.
Qed.

(** * Further properties of the code *)

(** ** Rectangles as sets of points *)

Lemma mbr_contains_point_nonempty (m : MBR) (p : Point) :
  mbr_contains_point m p = true -> mbr_is_empty m = false.
Proof. unfold mbr_contains_point. by destruct (mbr_is_empty m). Qed.



(** X3.  [mbr_union a b] is the least rectangle over [a] and [b]: it
    contains every point of either, and every rectangle that contains both
    contains it. *)
Theorem mbr_union_least (a b : MBR) :
  (forall p : Point,
     mbr_contains_point a p || mbr_contains_point b p = true ->
     mbr_contains_point (mbr_union a b) p = true) /\
  (forall c : MBR,
     mbr_contains_mbr c a = true -> mbr_contains_mbr c b = true ->
     mbr_contains_mbr c (mbr_union a b) = true).
Proof.
  split.
  - intros p Hp. apply orb_true_iff in Hp. unfold mbr_union.
    destruct (mbr_is_empty a) eqn:Ha.
    { destruct Hp as [Hp|Hp]; [|done].
      apply mbr_contains_point_nonempty in Hp. congruence. }
    destruct (mbr_is_empty b) eqn:Hb.
    { destruct Hp as [Hp|Hp]; [done|].
      apply mbr_contains_point_nonempty in Hp. congruence. }
    apply mbr_is_empty_false in Ha as [Ha1 Ha2].
    apply mbr_is_empty_false in Hb as [Hb1 Hb2].
    rewrite !mbr_contains_point_true in *. unfold point_in, fmin, fmax in *. simpl.
    destruct Hp as [(P1 & P2 & P3 & P4)|(P1 & P2 & P3 & P4)];
      qc_cases; repeat split; qc_order.
  - intros c Hca Hcb. unfold mbr_union.
    destruct (mbr_is_empty a) eqn:Ha; [done|].
    destruct (mbr_is_empty b) eqn:Hb; [done|].
    unfold mbr_contains_mbr in *. rewrite Ha, Hb in *.
    destruct (mbr_is_empty c) eqn:Hc; [done|]. cbn [orb] in *.
    apply mbr_is_empty_false in Ha as [Ha1 Ha2].
    apply mbr_is_empty_false in Hb as [Hb1 Hb2].
    rewrite !andb_true_iff, !Qcleb_true in Hca, Hcb.
    destruct Hca as [[[A1 A2] A3] A4]. destruct Hcb as [[[B1 B2] B3] B4].
    assert (He : mbr_is_empty
                   (mkMBR (fmin (min_x a) (min_x b)) (fmin (min_y a) (min_y b))
                          (fmax (max_x a) (max_x b)) (fmax (max_y a) (max_y b)))
                 = false).
    { apply mbr_is_empty_false. unfold fmin, fmax. simpl.
      qc_cases; split; qc_order. }
    rewrite He. rewrite !andb_true_iff, !Qcleb_true. unfold fmin, fmax. simpl.
    qc_cases; repeat split; qc_order.
Qed.

(** ** Linestrings and rings *)




(** ** K-d trees: node bounds and the range query *)





Section KDBounds.
Context {D : Type}.













End KDBounds.


(** ** K-d trees: the depth of a bulk-loaded tree *)

Section KDDepth.
Context {D : Type}.

Lemma depth_update_bounds (node : KDNode D) :
  depth_recursive (kdnode_update_bounds node) = depth_recursive node.
Proof.
  destruct node as [|p id data dim l r b s]; [done|].
  unfold kdnode_update_bounds. destruct l, r; done.
Qed.

Lemma build_tree_depth (fuel : nat) (points : list (KDPointData D)) (depth : nat) :
  (depth_recursive (build_tree_recursive fuel points depth)
   <= Nat.log2 (2 * length points))%nat.
Proof.
  revert points depth. induction fuel as [|fuel IH]; intros points depth.
  { simpl. lia. }
  cbn [build_tree_recursive].
  destruct (length points =? 0)%nat eqn:E; [simpl; lia|].
  apply Nat.eqb_neq in E.
  assert (Hne : points <> []) by (intros ->; done).
  destruct (build_sorted_split points depth Hne) as (Hperm & m & Hm & _).
  cbv zeta.
  set (sorted := if (depth mod 2 =? 0)%nat then qsort compare_by_x points
                 else qsort compare_by_y points) in *.
  assert (Hls : length sorted = length points) by (by rewrite Hperm).
  clearbody sorted. rewrite Hm, depth_update_bounds. cbn [depth_recursive].
  set (n := length points) in *.
  pose proof (IH (take (n / 2) sorted) (depth + 1)%nat) as Hl.
  pose proof (IH (drop (n / 2 + 1) sorted) (depth + 1)%nat) as Hr.
  rewrite length_take in Hl. rewrite length_drop in Hr. rewrite Hls in Hl, Hr.
  assert (Hdiv : (2 * (n / 2) <= n)%nat) by (apply Nat.Div0.mul_div_le).
  assert (H1 : (Nat.log2 (2 * Nat.min (n / 2) n) <= Nat.log2 n)%nat)
    by (apply Nat.log2_le_mono; lia).
  assert (H2 : (Nat.log2 (2 * (n - (n / 2 + 1))) <= Nat.log2 n)%nat).
  { apply Nat.log2_le_mono.
    pose proof (Nat.div_mod_eq n 2). pose proof (Nat.mod_upper_bound n 2). lia. }
  rewrite Nat.log2_double by lia.
  destruct (_ <? _)%nat; lia.
Qed.

End KDDepth.

(** X9.  [kdtree_bulk_load] into a fresh tree builds a balanced tree: its
    size is the number of points and its depth is at most
    [log2 (2 * count)], that is one more than the binary logarithm of the
    count. *)
Theorem kdtree_bulk_load_balanced {D : Type} (points : list (KDPointData D)) :
  kd_size (kdtree_bulk_load kdtree_init points).2 = length points /\
  (kdtree_depth (kdtree_bulk_load kdtree_init points).2
   <= Nat.log2 (2 * length points))%nat.
Proof.
  unfold kdtree_bulk_load, kdtree_depth.
  destruct (length points =? 0)%nat eqn:E.
  - apply Nat.eqb_eq in E. rewrite E. simpl. lia.
  - cbn [snd kd_size kd_root]. split; [done|]. apply build_tree_depth.
Qed.

(** ** Quadtrees: stored items, lookup and removal *)

Section QTItems.
Context {D : Type}.
Implicit Types (node : QTNode D) (it : QTItem D) (items : list (QTItem D)).

Lemma fold_qtresult_add items (res : list (QTItem D)) :
  fold_left qtresult_add items res = res ++ items.
Proof.
  revert res. induction items as [|it items IH]; intros res; simpl.
  - by rewrite app_nil_r.
  - rewrite IH. unfold qtresult_add. by rewrite <- app_assoc.
Qed.

Lemma qtnode_collect_all_items node (res : list (QTItem D)) :
  qtnode_collect_all node res = res ++ qt_items node.
Proof.
  revert res.
  induction node as [|b items cap nw IHnw ne IHne sw IHsw se IHse depth leaf];
    intros res; cbn [qtnode_collect_all qt_items].
  - by rewrite app_nil_r.
  - rewrite fold_qtresult_add. destruct leaf; cbn [negb].
    + by rewrite app_nil_r.
    + rewrite IHse, IHsw, IHne, IHnw. by rewrite <- !app_assoc.
Qed.

Lemma find_app_first (f : QTItem D -> bool) (l1 l2 : list (QTItem D)) :
  List.find f (l1 ++ l2) = first_or (List.find f l1) (List.find f l2).
Proof.
  induction l1 as [|x l1 IH]; simpl; [done|]. by destruct (f x).
Qed.

Lemma qtnode_find_items node (id : Z) :
  qtnode_find node id = List.find (fun it => (qi_id it =? id)%Z) (qt_items node).
Proof.
  induction node as [|b items cap nw IHnw ne IHne sw IHsw se IHse depth leaf];
    cbn [qtnode_find qt_items]; [done|].
  rewrite find_app_first.
  destruct (List.find _ items) as [it|]; [done|]. cbn [first_or].
  destruct leaf; cbn [negb]; [done|].
  by rewrite !find_app_first, IHnw, IHne, IHsw, IHse.
Qed.

Lemma find_item_index_spec items (id : Z) :
  match find_item_index items id with
  | Some i =>
      take i items ++ drop (i + 1) items = remove_first_id id items /\
      List.find (fun it => (qi_id it =? id)%Z) items <> None
  | None =>
      remove_first_id id items = items /\
      List.find (fun it => (qi_id it =? id)%Z) items = None
  end.
Proof.
  induction items as [|it items IH]; simpl; [done|].
  destruct (qi_id it =? id)%Z; [done|].
  destruct (find_item_index items id) as [i|]; simpl.
  - destruct IH as [-> IH]. done.
  - destruct IH as [-> IH]. done.
Qed.

Lemma remove_first_id_app (id : Z) (l1 l2 : list (QTItem D)) :
  remove_first_id id (l1 ++ l2)
  = match List.find (fun it => (qi_id it =? id)%Z) l1 with
    | Some _ => remove_first_id id l1 ++ l2
    | None => l1 ++ remove_first_id id l2
    end.
Proof.
  induction l1 as [|x l1 IH]; simpl; [done|].
  destruct (qi_id x =? id)%Z; [done|]. rewrite IH.
  by destruct (List.find _ l1).
Qed.

(** [qtnode_remove] reports whether the id is stored and takes out the
    first item that carries it. *)
Lemma qtnode_remove_items node (id : Z) :
  match List.find (fun it => (qi_id it =? id)%Z) (qt_items node) with
  | Some _ =>
      fst (qtnode_remove node id) = true /\
      qt_items (snd (qtnode_remove node id)) = remove_first_id id (qt_items node)
  | None => qtnode_remove node id = (false, node)
  end.
Proof.
  induction node as [|b items cap nw IHnw ne IHne sw IHsw se IHse depth leaf];
    cbn [qtnode_remove qt_items]; [done|].
  rewrite find_app_first, remove_first_id_app.
  pose proof (find_item_index_spec items id) as Hi.
  destruct (find_item_index items id) as [i|].
  { destruct Hi as [Hi Hf].
    destruct (List.find _ items); [|done]. cbn [first_or fst snd qt_items].
    by rewrite Hi. }
  destruct Hi as [Hi Hf]. rewrite Hf. cbn [first_or].
  destruct leaf; cbn [negb]; [done|].
  rewrite !find_app_first, !remove_first_id_app.
  destruct (qtnode_remove nw id) as [r0 nw']. cbn [fst snd] in IHnw.
  destruct (List.find _ (qt_items nw)).
  { destruct IHnw as [-> Hnw]. cbn [fst snd qt_items]. by rewrite Hnw. }
  injection IHnw as -> ->. cbn [first_or].
  destruct (qtnode_remove ne id) as [r1 ne']. cbn [fst snd] in IHne.
  destruct (List.find _ (qt_items ne)).
  { destruct IHne as [-> Hne]. cbn [fst snd qt_items]. by rewrite Hne. }
  injection IHne as -> ->. cbn [first_or].
  destruct (qtnode_remove sw id) as [r2 sw']. cbn [fst snd] in IHsw.
  destruct (List.find _ (qt_items sw)).
  { destruct IHsw as [-> Hsw]. cbn [fst snd qt_items]. by rewrite Hsw. }
  injection IHsw as -> ->. cbn [first_or].
  destruct (qtnode_remove se id) as [r3 se']. cbn [fst snd] in IHse.
  destruct (List.find _ (qt_items se)).
  { destruct IHse as [-> Hse]. cbn [fst snd qt_items]. by rewrite Hse. }
  injection IHse as -> ->. done.
Qed.

End QTItems.

(** X12.  On an initialised quadtree, [quadtree_get] returns the first
    stored item (in the order of [quadtree_get_all]) that carries the id.
    When there is one, [quadtree_remove] succeeds, takes exactly that item
    out and decrements [total_items]; when there is none, both fail with
    [QT_ERR_NOT_FOUND] and the tree is unchanged. *)
Theorem quadtree_get_remove {D : Type} (qt : QuadTree D) (id : Z) :
  qtnode_is_null (qt_root qt) = false ->
  match List.find (fun it => (qi_id it =? id)%Z) (snd (quadtree_get_all qt [])) with
  | Some it =>
      quadtree_get qt id = (QT_OK, Some it) /\
      exists qt' : QuadTree D,
        quadtree_remove qt id = (QT_OK, qt') /\
        snd (quadtree_get_all qt' [])
        = remove_first_id id (snd (quadtree_get_all qt [])) /\
        qt_total_items qt' = (qt_total_items qt - 1)%nat
  | None =>
      quadtree_get qt id = (QT_ERR_NOT_FOUND, None) /\
      quadtree_remove qt id = (QT_ERR_NOT_FOUND, qt)
  end.
Proof.
  intros Hroot. unfold quadtree_get_all, quadtree_get, quadtree_remove.
  rewrite Hroot. unfold qtresult_clear. cbn [snd].
  rewrite qtnode_collect_all_items, qtnode_find_items. cbn [app].
  pose proof (qtnode_remove_items (qt_root qt) id) as Hr.
  destruct (List.find _ (qt_items (qt_root qt))) as [it|].
  - split; [done|]. destruct (qtnode_remove (qt_root qt) id) as [r root'].
    destruct Hr as [Hr Hitems]. cbn [fst snd] in *. subst r.
    eexists. split; [reflexivity|]. cbn [qt_root qt_total_items].
    by rewrite qtnode_collect_all_items.
  - split; [done|]. rewrite Hr. by destruct qt.
Qed.

(** ** Quadtrees: what an insertion returns *)

Lemma mbr_contains_mbr_true (a b : MBR) :
  mbr_contains_mbr a b = true <->
  mbr_is_empty a = false /\ mbr_is_empty b = false /\
  min_x a <= min_x b /\ max_x b <= max_x a /\
  min_y a <= min_y b /\ max_y b <= max_y a.
Proof.
  unfold mbr_contains_mbr.
  destruct (mbr_is_empty a), (mbr_is_empty b); cbn [orb];
    try (split; [done|]; intros (? & ? & _); done).
  rewrite !andb_true_iff, !Qcleb_true. tauto.
Qed.

Lemma mbr_contains_intersects (a m range : MBR) :
  mbr_contains_mbr a m = true -> mbr_intersects m range = true ->
  mbr_intersects a range = true.
Proof.
  rewrite mbr_contains_mbr_true, !mbr_intersects_true.
  intros (Ha & Hm & H1 & H2 & H3 & H4) (_ & Hr & R1 & R2 & R3 & R4).
  repeat split; try done; qc_order.
Qed.

Lemma mbr_contains_self_intersects (a m : MBR) :
  mbr_contains_mbr a m = true -> mbr_intersects a m = true.
Proof.
  intros H. apply (mbr_contains_intersects a m m); [done|].
  apply mbr_contains_mbr_true in H as (_ & Hm & _).
  apply mbr_intersects_true. apply mbr_is_empty_false in Hm as [Hx Hy].
  rewrite !mbr_is_empty_false. repeat split; try done; qc_order.
Qed.

Lemma mbr_contains_trans (a b c : MBR) :
  mbr_contains_mbr a b = true -> mbr_contains_mbr b c = true ->
  mbr_contains_mbr a c = true.
Proof.
  rewrite !mbr_contains_mbr_true.
  intros (Ha & Hb & H1 & H2 & H3 & H4) (_ & Hc & R1 & R2 & R3 & R4).
  repeat split; try done; qc_order.
Qed.

Lemma mbr_contains_point_mono (a m : MBR) (p : Point) :
  mbr_contains_mbr a m = true -> mbr_contains_point m p = true ->
  mbr_contains_point a p = true.
Proof.
  rewrite mbr_contains_mbr_true, !mbr_contains_point_true.
  intros (Ha & Hm & H1 & H2 & H3 & H4) (R1 & R2 & R3 & R4).
  repeat split; qc_order.
Qed.

Section QTInsert.
Context {D : Type}.
Implicit Types (node : QTNode D) (item it : QTItem D).

Lemma qtnode_split_shape (b : MBR) (items : list (QTItem D)) (cap : nat)
  (nw ne sw se : QTNode D) (depth : Z) (capacity : nat) :
  exists c0 c1 c2 c3,
    qtnode_split (QTN b items cap nw ne sw se depth true) capacity
    = (QT_OK, QTN b [] cap c0 c1 c2 c3 depth false).
Proof.
  unfold qtnode_split. cbn [negb].
  destruct (fold_left _ _ _) as [[[c0 c1] c2] c3]. by eexists _, _, _, _.
Qed.

Lemma qtnode_contains_intersects node item :
  qtnode_contains node item = true ->
  node <> QTNull /\ mbr_intersects (qtnode_bounds node) (qi_bounds item) = true.
Proof.
  destruct node; [done|]. simpl. intros H. split; [done|].
  by apply mbr_contains_self_intersects.
Qed.

Lemma qt_items_store node item :
  node <> QTNull -> item ∈ qt_items (qtnode_store node item).
Proof.
  destruct node as [|b items cap nw ne sw se depth leaf]; [done|]. intros _.
  cbn [qtnode_store qt_items]. rewrite !elem_of_app. left. right.
  by apply list_elem_of_singleton.
Qed.

(** An insertion into a node fails only when the item misses the node's
    bounds, and then changes nothing; otherwise the item is stored. *)
Lemma qtnode_insert_result (fuel : nat) node item (node_capacity : nat)
  (max_depth : Z) (err : QTError) (node' : QTNode D) :
  node <> QTNull ->
  qtnode_insert fuel node item node_capacity max_depth = Some (err, node') ->
  if mbr_intersects (qtnode_bounds node) (qi_bounds item)
  then err = QT_OK /\ item ∈ qt_items node'
  else err = QT_ERR_BOUNDS /\ node' = node.
Proof.
  revert node err node'. induction fuel as [|fuel IH]; intros node err node' Hnn H;
    [done|].
  destruct node as [|b items cap nw ne sw se depth leaf]; [done|].
  cbn [qtnode_insert qtnode_bounds] in *.
  destruct (mbr_intersects b (qi_bounds item)) eqn:Hi; cbn [negb] in H;
    [|by simplify_eq].
  assert (Hchild : forall c c' e,
            qtnode_contains c item = true ->
            qtnode_insert fuel c item node_capacity max_depth = Some (e, c') ->
            e = QT_OK /\ item ∈ qt_items c').
  { intros c c' e Hc Hins. apply qtnode_contains_intersects in Hc as [Hcn Hci].
    specialize (IH c e c' Hcn Hins). by rewrite Hci in IH. }
  destruct leaf.
  - destruct ((node_capacity <=? length items)%nat && (depth <? max_depth)%Z).
    + destruct (qtnode_split_shape b items cap nw ne sw se depth node_capacity)
        as (c0 & c1 & c2 & c3 & Hs).
      rewrite Hs in H. apply IH in H; [|done].
      cbn [qtnode_bounds] in H. by rewrite Hi in H.
    + simplify_eq. split; [done|]. by apply qt_items_store.
  - destruct (qtnode_contains nw item) eqn:C0.
    { destruct (qtnode_insert fuel nw _ _ _) as [[e c']|] eqn:E; [|done].
      simplify_eq. destruct (Hchild _ _ _ C0 E) as [-> Hin]. split; [done|].
      cbn [qt_items]. rewrite !elem_of_app. auto. }
    destruct (qtnode_contains ne item) eqn:C1.
    { destruct (qtnode_insert fuel ne _ _ _) as [[e c']|] eqn:E; [|done].
      simplify_eq. destruct (Hchild _ _ _ C1 E) as [-> Hin]. split; [done|].
      cbn [qt_items]. rewrite !elem_of_app. auto. }
    destruct (qtnode_contains sw item) eqn:C2.
    { destruct (qtnode_insert fuel sw _ _ _) as [[e c']|] eqn:E; [|done].
      simplify_eq. destruct (Hchild _ _ _ C2 E) as [-> Hin]. split; [done|].
      cbn [qt_items]. rewrite !elem_of_app. auto. }
    destruct (qtnode_contains se item) eqn:C3.
    { destruct (qtnode_insert fuel se _ _ _) as [[e c']|] eqn:E; [|done].
      simplify_eq. destruct (Hchild _ _ _ C3 E) as [-> Hin]. split; [done|].
      cbn [qt_items]. rewrite !elem_of_app. auto. }
    simplify_eq. split; [done|]. by apply qt_items_store.
Qed.

End QTInsert.

(** X13.  On an initialised quadtree [quadtree_insert] always returns.  It
    fails, with [QT_ERR_BOUNDS] and the tree unchanged, exactly when the
    item's bounds miss the bounds of the root; otherwise it succeeds,
    [total_items] grows by one and the new item is among the stored
    items. *)
Theorem quadtree_insert_result {D : Type} (qt : QuadTree D) (id : Z)
  (bounds : MBR) (data : option D) :
  qtnode_is_null (qt_root qt) = false ->
  exists (err : QTError) (qt' : QuadTree D),
    quadtree_insert qt id bounds data = Some (err, qt') /\
    if mbr_intersects (qtnode_bounds (qt_root qt)) bounds
    then err = QT_OK /\
         qt_total_items qt' = (qt_total_items qt + 1)%nat /\
         mkQTItem id bounds (mbr_centroid bounds) data
           ∈ snd (quadtree_get_all qt' [])
    else err = QT_ERR_BOUNDS /\ qt' = qt.
Proof.
  intros Hroot. unfold quadtree_insert.
  destruct (quadtree_insert_with_centroid_total qt id bounds (mbr_centroid bounds)
              data) as [[err qt'] Hins].
  exists err, qt'. split; [done|].
  unfold quadtree_insert_with_centroid in Hins. rewrite Hroot in Hins.
  destruct (qtnode_insert _ _ _ _ _) as [[e root']|] eqn:E; [|done].
  apply qtnode_insert_result in E; [|by destruct (qt_root qt)].
  cbn [qi_bounds] in E. simplify_eq.
  destruct (mbr_intersects _ bounds).
  - destruct E as [-> Hin]. split; [done|]. split; [done|].
    unfold quadtree_get_all. cbn [snd qt_root]. unfold qtresult_clear.
    by rewrite qtnode_collect_all_items.
  - destruct E as [-> ->]. split; [done|]. by destruct qt.
Qed.

(** ** Quadtrees: items stay inside their nodes *)

Section QTContained.
Context {D : Type}.
Implicit Types (node child : QTNode D) (item it : QTItem D) (outer : list MBR).

Lemma qtnode_push_contained outer child item :
  qt_contained outer child -> split_child_takes child item = true ->
  item_inside outer item ->
  qt_contained outer (qtnode_push child item).
Proof.
  destruct child as [|b items cap nw ne sw se depth leaf]; [done|].
  cbn [split_child_takes qtnode_push qt_contained].
  intros [Hitems Hch] Ht Ho. apply andb_true_iff in Ht as [Hc _].
  split; [|done].
  intros it Hit. apply elem_of_app in Hit as [Hit|Hit]; [by apply Hitems|].
  apply list_elem_of_singleton in Hit as ->. by constructor.
Qed.

Lemma split_redistribute_contained outer
  (cs : QTNode D * QTNode D * QTNode D * QTNode D) item :
  (let '(c0, c1, c2, c3) := cs in
   qt_contained outer c0 /\ qt_contained outer c1 /\
   qt_contained outer c2 /\ qt_contained outer c3) ->
  item_inside outer item ->
  let '(c0, c1, c2, c3) := split_redistribute cs item in
  qt_contained outer c0 /\ qt_contained outer c1 /\
  qt_contained outer c2 /\ qt_contained outer c3.
Proof.
  destruct cs as [[[c0 c1] c2] c3].
  intros (W0 & W1 & W2 & W3) Ho. unfold split_redistribute.
  destruct (split_child_takes c0 item) eqn:T0.
  { pose proof (qtnode_push_contained outer c0 item W0 T0 Ho). done. }
  destruct (split_child_takes c1 item) eqn:T1.
  { pose proof (qtnode_push_contained outer c1 item W1 T1 Ho). done. }
  destruct (split_child_takes c2 item) eqn:T2.
  { pose proof (qtnode_push_contained outer c2 item W2 T2 Ho). done. }
  destruct (split_child_takes c3 item) eqn:T3.
  { pose proof (qtnode_push_contained outer c3 item W3 T3 Ho). done. }
  done.
Qed.

Lemma fold_split_redistribute_contained outer (items : list (QTItem D))
  (cs : QTNode D * QTNode D * QTNode D * QTNode D) :
  (let '(c0, c1, c2, c3) := cs in
   qt_contained outer c0 /\ qt_contained outer c1 /\
   qt_contained outer c2 /\ qt_contained outer c3) ->
  (forall it, it ∈ items -> item_inside outer it) ->
  let '(c0, c1, c2, c3) := fold_left split_redistribute items cs in
  qt_contained outer c0 /\ qt_contained outer c1 /\
  qt_contained outer c2 /\ qt_contained outer c3.
Proof.
  revert cs. induction items as [|it items IH]; intros cs H Ho; [done|].
  cbn [fold_left]. apply IH.
  - apply split_redistribute_contained; [done|]. apply Ho, elem_of_cons. by left.
  - intros it' Hit'. apply Ho, elem_of_cons. by right.
Qed.

Lemma qtnode_create_contained outer (q : MBR) (capacity : nat) (depth : Z) :
  qt_contained outer (qtnode_create (D := D) q capacity depth).
Proof.
  split; [|done]. intros it Hit. by apply elem_of_nil in Hit.
Qed.

(** A split hands an item to a quadrant only when the quadrant's bounds
    contain it, wherever the computed midpoints fall. *)
Lemma qtnode_split_contained outer (b : MBR) (items : list (QTItem D)) (cap : nat)
  (nw ne sw se : QTNode D) (depth : Z) (capacity : nat) (node' : QTNode D) :
  qt_contained outer (QTN b items cap nw ne sw se depth true) ->
  qtnode_split (QTN b items cap nw ne sw se depth true) capacity = (QT_OK, node') ->
  qt_contained outer node'.
Proof.
  intros [Hitems _]. unfold qtnode_split. cbn [negb].
  match goal with
  | |- context [fold_left split_redistribute items ?cs0] =>
      pose proof (fold_split_redistribute_contained (b :: outer) items cs0) as H;
      destruct (fold_left split_redistribute items cs0) as [[[c0 c1] c2] c3]
  end.
  destruct H as (W0 & W1 & W2 & W3); [|done|].
  { repeat split; try done; intros it Hit; by apply elem_of_nil in Hit. }
  intros [= <-]. cbn [qt_contained].
  split; [intros it Hit; by apply elem_of_nil in Hit|done].
Qed.

Lemma qtnode_store_contained outer node item :
  qt_contained outer node ->
  item_inside (qtnode_bounds node :: outer) item ->
  qt_contained outer (qtnode_store node item).
Proof.
  destruct node as [|b items cap nw ne sw se depth leaf]; [done|].
  cbn [qtnode_store qt_contained qtnode_bounds]. intros [Hitems Hch] Hc.
  split; [|done].
  intros it Hit. apply elem_of_app in Hit as [Hit|Hit]; [by apply Hitems|].
  by apply list_elem_of_singleton in Hit as ->.
Qed.

Lemma qtnode_insert_contained (fuel : nat) outer node item (node_capacity : nat)
  (max_depth : Z) (err : QTError) (node' : QTNode D) :
  qt_contained outer node ->
  item_inside (qtnode_bounds node :: outer) item ->
  qtnode_insert fuel node item node_capacity max_depth = Some (err, node') ->
  qt_contained outer node' /\ qtnode_bounds node' = qtnode_bounds node.
Proof.
  revert outer node err node'.
  induction fuel as [|fuel IH]; intros outer node err node' Hw Hc H; [done|].
  destruct node as [|b items cap nw ne sw se depth leaf];
    cbn [qtnode_insert] in H; [simplify_eq; by split|].
  destruct (negb (mbr_intersects b (qi_bounds item))); [simplify_eq; by split|].
  cbn [qtnode_bounds] in *.
  assert (Hchild : forall c c' e,
            qt_contained (b :: outer) c -> qtnode_contains c item = true ->
            qtnode_insert fuel c item node_capacity max_depth = Some (e, c') ->
            qt_contained (b :: outer) c').
  { intros c c' e Wc Cc E.
    apply (IH (b :: outer)) in E as [W _]; [done|done|].
    constructor; [|done]. by destruct c. }
  destruct leaf.
  - destruct ((node_capacity <=? length items)%nat && (depth <? max_depth)%Z).
    + destruct (qtnode_split _ node_capacity) as [e n1] eqn:Hs.
      destruct (qtnode_split_shape b items cap nw ne sw se depth node_capacity)
        as (c0 & c1 & c2 & c3 & Hs').
      rewrite Hs' in Hs. injection Hs as <- <-.
      pose proof (qtnode_split_contained _ _ _ _ _ _ _ _ _ _ _ Hw Hs') as W1.
      by apply (IH outer) in H.
    + simplify_eq. split; [|done].
      by apply (qtnode_store_contained outer (QTN b items cap nw ne sw se depth true)).
  - destruct Hw as [Hitems Hch].
    destruct (Hch eq_refl) as (W0 & W1 & W2 & W3).
    destruct (qtnode_contains nw item) eqn:C0.
    { destruct (qtnode_insert fuel nw _ _ _) as [[e c']|] eqn:E; [|done].
      simplify_eq. pose proof (Hchild _ _ _ W0 C0 E). done. }
    destruct (qtnode_contains ne item) eqn:C1.
    { destruct (qtnode_insert fuel ne _ _ _) as [[e c']|] eqn:E; [|done].
      simplify_eq. pose proof (Hchild _ _ _ W1 C1 E). done. }
    destruct (qtnode_contains sw item) eqn:C2.
    { destruct (qtnode_insert fuel sw _ _ _) as [[e c']|] eqn:E; [|done].
      simplify_eq. pose proof (Hchild _ _ _ W2 C2 E). done. }
    destruct (qtnode_contains se item) eqn:C3.
    { destruct (qtnode_insert fuel se _ _ _) as [[e c']|] eqn:E; [|done].
      simplify_eq. pose proof (Hchild _ _ _ W3 C3 E). done. }
    simplify_eq. split; [|done].
    by apply (qtnode_store_contained outer (QTN b items cap nw ne sw se depth false)).
Qed.

Lemma qt_contained_inside outer node it :
  qt_contained outer node -> it ∈ qt_items node ->
  item_inside (qtnode_bounds node :: outer) it.
Proof.
  revert outer.
  induction node as [|b items cap nw IHnw ne IHne sw IHsw se IHse depth leaf];
    intros outer; cbn [qt_contained qt_items qtnode_bounds].
  - intros _ H. by apply elem_of_nil in H.
  - intros [Hitems Hch] Hit. apply elem_of_app in Hit as [Hit|Hit]; [by apply Hitems|].
    destruct leaf; [by apply elem_of_nil in Hit|].
    destruct (Hch eq_refl) as (W0 & W1 & W2 & W3).
    rewrite !elem_of_app in Hit.
    destruct Hit as [Hit|[Hit|[Hit|Hit]]].
    + by apply (Forall_inv_tail (IHnw _ W0 Hit)).
    + by apply (Forall_inv_tail (IHne _ W1 Hit)).
    + by apply (Forall_inv_tail (IHsw _ W2 Hit)).
    + by apply (Forall_inv_tail (IHse _ W3 Hit)).
Qed.

Lemma qt_contained_items outer node it :
  qt_contained outer node -> it ∈ qt_items node ->
  mbr_contains_mbr (qtnode_bounds node) (qi_bounds it) = true.
Proof.
  intros Hw Hit. exact (Forall_inv (qt_contained_inside outer node it Hw Hit)).
Qed.

End QTContained.

(** ** Quadtrees: queries *)

Section QTQueries.
Context {D : Type}.
Implicit Types (node : QTNode D) (item it : QTItem D).

Lemma fold_filter_items (P : QTItem D -> bool) (items res : list (QTItem D)) :
  fold_left (fun res it => if P it then qtresult_add res it else res) items res
  = res ++ filter (fun it => P it = true) items.
Proof.
  revert res. induction items as [|it items IH]; intros res; simpl.
  - by rewrite app_nil_r.
  - rewrite IH, filter_cons. destruct (P it) eqn:E.
    + rewrite decide_True by done. unfold qtresult_add. by rewrite <- app_assoc.
    + by rewrite decide_False by done.
Qed.

Lemma filter_none (P : QTItem D -> bool) (l : list (QTItem D)) :
  (forall it, it ∈ l -> P it = false) -> filter (fun it => P it = true) l = [].
Proof.
  induction l as [|x l IH]; intros H; [done|].
  rewrite filter_cons_False.
  - apply IH. intros it Hit. apply H, elem_of_cons. by right.
  - rewrite (H x); [done|]. apply elem_of_cons. by left.
Qed.

Lemma qtnode_query_range_filter (outer : list MBR) node (range : MBR)
  (res : list (QTItem D)) :
  qt_contained outer node ->
  qtnode_query_range node range res
  = res ++ filter (fun it => mbr_intersects (qi_bounds it) range = true)
                  (qt_items node).
Proof.
  revert outer res.
  induction node as [|b items cap nw IHnw ne IHne sw IHsw se IHse depth leaf];
    intros outer res Hw.
  - simpl. by rewrite app_nil_r.
  - pose proof (fun it => qt_contained_items _ _ it Hw) as Hall.
    cbn [qtnode_query_range qt_items qtnode_bounds] in *.
    destruct (mbr_intersects b range) eqn:Hi; cbn [negb].
    + rewrite fold_filter_items. destruct Hw as [Hitems Hch].
      destruct leaf; cbn [negb].
      * by rewrite app_nil_r.
      * destruct (Hch eq_refl) as (W0 & W1 & W2 & W3).
        rewrite (IHse (b :: outer)), (IHsw (b :: outer)), (IHne (b :: outer)),
          (IHnw (b :: outer)) by done.
        rewrite !list.filter_app. by rewrite <- !app_assoc.
    + rewrite filter_none; [by rewrite app_nil_r|].
      intros it Hit. destruct (mbr_intersects (qi_bounds it) range) eqn:E; [|done].
      rewrite (mbr_contains_intersects b (qi_bounds it) range) in Hi; [done| |done].
      by apply Hall.
Qed.

Lemma qtnode_query_point_filter (outer : list MBR) node (p : Point)
  (res : list (QTItem D)) :
  qt_contained outer node ->
  qtnode_query_point node p res
  = res ++ filter (fun it => mbr_contains_point (qi_bounds it) p = true)
                  (qt_items node).
Proof.
  revert outer res.
  induction node as [|b items cap nw IHnw ne IHne sw IHsw se IHse depth leaf];
    intros outer res Hw.
  - simpl. by rewrite app_nil_r.
  - pose proof (fun it => qt_contained_items _ _ it Hw) as Hall.
    cbn [qtnode_query_point qt_items qtnode_bounds] in *.
    destruct (mbr_contains_point b p) eqn:Hi; cbn [negb].
    + rewrite fold_filter_items. destruct Hw as [Hitems Hch].
      destruct leaf; cbn [negb].
      * by rewrite app_nil_r.
      * destruct (Hch eq_refl) as (W0 & W1 & W2 & W3).
        rewrite (IHse (b :: outer)), (IHsw (b :: outer)), (IHne (b :: outer)),
          (IHnw (b :: outer)) by done.
        rewrite !list.filter_app. by rewrite <- !app_assoc.
    + rewrite filter_none; [by rewrite app_nil_r|].
      intros it Hit. destruct (mbr_contains_point (qi_bounds it) p) eqn:E; [|done].
      rewrite (mbr_contains_point_mono b (qi_bounds it) p) in Hi; [done| |done].
      by apply Hall.
Qed.

(** Inserting items that lie inside the root keeps every item inside its
    node. *)
Lemma qt_insert_all_contained (items : list (QTItem D)) (qt : QuadTree D) :
  qt_contained [] (qt_root qt) ->
  (forall it, it ∈ items ->
     mbr_contains_mbr (qtnode_bounds (qt_root qt)) (qi_bounds it) = true) ->
  exists qt' : QuadTree D,
    qt_insert_all qt items = Some qt' /\ qt_contained [] (qt_root qt').
Proof.
  revert qt. induction items as [|it items IH]; intros qt Hw Hall.
  { by exists qt. }
  unfold qt_insert_all. cbn [fold_left].
  destruct (quadtree_insert_with_centroid_total qt (qi_id it) (qi_bounds it)
              (qi_centroid it) (qi_data it)) as [[err qt1] Hins].
  rewrite Hins. cbn [option_map snd].
  assert (H1 : qt_contained [] (qt_root qt1) /\
               qtnode_bounds (qt_root qt1) = qtnode_bounds (qt_root qt)).
  { unfold quadtree_insert_with_centroid in Hins.
    destruct (qtnode_is_null (qt_root qt)); [by simplify_eq|].
    destruct (qtnode_insert _ _ _ _ _) as [[e root']|] eqn:E; [|done].
    simplify_eq. cbn [qt_root]. eapply qtnode_insert_contained; [done| |exact E].
    constructor; [|constructor]. cbn [qi_bounds]. apply Hall, elem_of_cons. by left. }
  destruct H1 as [W1 B1]. apply IH; [done|].
  intros it' Hit'. rewrite B1. apply Hall, elem_of_cons. by right.
Qed.

End QTQueries.

(** X14.  In a quadtree built by inserting items that lie inside its
    bounds, [quadtree_query_range] returns exactly the stored items whose
    bounds intersect the range, and [quadtree_query_point] exactly those
    whose bounds contain the point, both in the order of
    [quadtree_get_all]: pruning on node bounds loses no stored item. *)
Theorem quadtree_queries_exact {D : Type} (b0 : MBR) (node_capacity : nat)
  (max_depth : Z) (items : list (QTItem D)) (range : MBR) (p : Point)
  (result : list (QTItem D)) :
  (forall it, it ∈ items -> mbr_contains_mbr b0 (qi_bounds it) = true) ->
  exists qt : QuadTree D,
    qt_insert_all (snd (quadtree_init b0 node_capacity max_depth)) items = Some qt /\
    quadtree_query_range qt range result
    = (QT_OK, filter (fun it => mbr_intersects (qi_bounds it) range = true)
                     (snd (quadtree_get_all qt []))) /\
    quadtree_query_point qt p result
    = (QT_OK, filter (fun it => mbr_contains_point (qi_bounds it) p = true)
                     (snd (quadtree_get_all qt []))).
Proof.
  intros Hall.
  destruct (qt_insert_all_contained items
              (snd (quadtree_init b0 node_capacity max_depth))) as (qt & Hrun & Hw).
  { apply qtnode_create_contained. }
  { done. }
  exists qt. split; [done|].
  unfold quadtree_query_range, quadtree_query_point, quadtree_get_all.
  unfold qtresult_clear. cbn [snd].
  rewrite (qtnode_query_range_filter []), (qtnode_query_point_filter []) by done.
  by rewrite qtnode_collect_all_items.
Qed.

(** Range and point queries on the three example items. *)
Lemma quadtree_queries_exact_witness :
  exists qt : QuadTree nat,
    qt_insert_all (snd (quadtree_init (example_box 0 0 100 100) 2 10))
                  example_qt_items = Some qt /\
    quadtree_query_range qt (example_box 15 15 40 40) []
    = (QT_OK, filter (fun it => mbr_intersects (qi_bounds it)
                                               (example_box 15 15 40 40) = true)
                     (snd (quadtree_get_all qt []))) /\
    quadtree_query_point qt (mkPoint (Qc_of_Z 65) (Qc_of_Z 65)) []
    = (QT_OK, filter (fun it => mbr_contains_point (qi_bounds it)
                                  (mkPoint (Qc_of_Z 65) (Qc_of_Z 65)) = true)
                     (snd (quadtree_get_all qt []))).
Proof.
  apply (quadtree_queries_exact (example_box 0 0 100 100) 2 10 example_qt_items).
  apply list.Forall_forall. unfold example_qt_items. forall_list;
    vm_compute; reflexivity.
Defined.

(** Looking up and removing item 2 of the three example items. *)
Lemma quadtree_get_remove_witness :
  qtnode_is_null (qt_root example_quadtree_filled) = false /\
  match List.find (fun it => (qi_id it =? 2)%Z)
                  (snd (quadtree_get_all example_quadtree_filled [])) with
  | Some it =>
      quadtree_get example_quadtree_filled 2 = (QT_OK, Some it) /\
      exists qt' : QuadTree nat,
        quadtree_remove example_quadtree_filled 2 = (QT_OK, qt') /\
        snd (quadtree_get_all qt' [])
        = remove_first_id 2 (snd (quadtree_get_all example_quadtree_filled [])) /\
        qt_total_items qt' = (qt_total_items example_quadtree_filled - 1)%nat
  | None =>
      quadtree_get example_quadtree_filled 2 = (QT_ERR_NOT_FOUND, None) /\
      quadtree_remove example_quadtree_filled 2
      = (QT_ERR_NOT_FOUND, example_quadtree_filled)
  end.
Proof.
  assert (H : qtnode_is_null (qt_root example_quadtree_filled) = false).
  { vm_compute. reflexivity. }
  split; [exact H|].
  exact (quadtree_get_remove example_quadtree_filled 2 H).
Defined.

(** Inserting a fourth item into the example tree. *)
Lemma quadtree_insert_result_witness :
  qtnode_is_null (qt_root example_quadtree_filled) = false /\
  exists (err : QTError) (qt' : QuadTree nat),
    quadtree_insert example_quadtree_filled 4 (example_box 80 10 90 20) None
    = Some (err, qt') /\
    if mbr_intersects (qtnode_bounds (qt_root example_quadtree_filled))
                      (example_box 80 10 90 20)
    then err = QT_OK /\
         qt_total_items qt' = (qt_total_items example_quadtree_filled + 1)%nat /\
         mkQTItem 4 (example_box 80 10 90 20)
                  (mbr_centroid (example_box 80 10 90 20)) None
           ∈ snd (quadtree_get_all qt' [])
    else err = QT_ERR_BOUNDS /\ qt' = example_quadtree_filled.
Proof.
  assert (H : qtnode_is_null (qt_root example_quadtree_filled) = false).
  { vm_compute. reflexivity. }
  split; [exact H|].
  exact (quadtree_insert_result example_quadtree_filled 4
           (example_box 80 10 90 20) None H).
Defined.

(** ** Pages: adding, finding and removing objects *)

Lemma find_object_index_app (objs : list SpatialObject) (obj : SpatialObject)
  (id : Z) :
  find_object_index objs id = None ->
  find_object_index (objs ++ [obj]) id
  = if (so_id obj =? id)%Z then Some (length objs) else None.
Proof.
  induction objs as [|o objs IH]; simpl.
  - intros _. by destruct (so_id obj =? id)%Z.
  - destruct (so_id o =? id)%Z; [done|].
    destruct (find_object_index objs id); [done|]. intros _.
    rewrite IH by done. by destruct (so_id obj =? id)%Z.
Qed.

(** X15.  A page that is full refuses an object with [PAGE_ERR_FULL] and
    is left unchanged.  A page that is not full takes it in the next free
    slot; if no stored object had its id, [page_find_object] then finds it
    in that slot and [page_remove_object] of the id restores the list of
    objects as it was. *)
Theorem page_add_find_remove (double_bits : Qc -> Z) (page : Page)
  (obj : SpatialObject) :
  if page_is_full page then page_add_object page obj = (PAGE_ERR_FULL, page)
  else
    exists page' : Page,
      page_add_object page obj = (PAGE_OK, page') /\
      pg_objects page' = pg_objects page ++ [obj] /\
      (page_find_object page (so_id obj) = None ->
       page_find_object page' (so_id obj) = Some (pg_object_count page) /\
       exists page'' : Page,
         page_remove_object double_bits page' (so_id obj) = (PAGE_OK, page'') /\
         pg_objects page'' = pg_objects page).
Proof.
  unfold page_is_full, page_add_object.
  destruct (pg_object_capacity page <=? pg_object_count page)%nat; [done|].
  eexists. split; [reflexivity|]. cbn [pg_objects]. split; [done|].
  intros Hnone. unfold page_find_object, page_remove_object in *. cbn [pg_objects].
  rewrite (find_object_index_app _ _ _ Hnone), Z.eqb_refl. split; [done|].
  eexists. split; [reflexivity|].
  rewrite page_update_derived_objects. cbn [pg_objects].
  rewrite take_app_length, drop_ge by (rewrite length_app; simpl; lia).
  by rewrite app_nil_r.
Qed.

(** X16.  The checksum [page_update_derived] stores is the one
    [page_verify] recomputes, so a page verifies after
    [page_update_derived] and after every successful
    [page_remove_object]. *)
Theorem page_verify_after_update (double_bits : Qc -> Z) (page : Page)
  (object_id : Z) :
  page_verify double_bits (page_update_derived double_bits page) = true /\
  (fst (page_remove_object double_bits page object_id) = PAGE_OK ->
   page_verify double_bits (snd (page_remove_object double_bits page object_id))
   = true).
Proof.
  assert (H : forall p, page_verify double_bits (page_update_derived double_bits p)
                        = true).
  { intros p. unfold page_verify, page_update_derived.
    destruct (fold_left _ (pg_objects p) (0, 0)) as [cx cy].
    cbn [pg_checksum]. apply Z.eqb_eq. reflexivity. }
  split; [apply H|]. unfold page_remove_object.
  destruct (find_object_index (pg_objects page) object_id); [|done].
  intros _. apply H.
Qed.

(** ** The pool: ids and lookups *)

Lemma find_index_map {A B : Type} (key : A -> B) (f : B -> bool) (l : list A) :
  find_index (fun a => f (key a)) l = find_index f (map key l).
Proof. induction l as [|a l IH]; simpl; [done|]. by rewrite IH. Qed.

Lemma find_index_consecutive (s n : nat) (id : Z) :
  find_index (fun k => (k =? id)%Z) (map Z.of_nat (seq s n))
  = if ((Z.of_nat s <=? id) && (id <? Z.of_nat (s + n)))%Z
    then Some (Z.to_nat id - s)%nat else None.
Proof.
  revert s. induction n as [|n IH]; intros s; simpl.
  - replace (s + 0)%nat with s by lia.
    destruct (Z.leb_spec (Z.of_nat s) id), (Z.ltb_spec id (Z.of_nat s)); simpl;
      try done; lia.
  - rewrite IH. destruct (Z.eqb_spec (Z.of_nat s) id) as [<-|Hne].
    + rewrite Z.leb_refl. replace (Z.of_nat s <? Z.of_nat (s + S n))%Z with true
        by (symmetry; apply Z.ltb_lt; lia).
      simpl. f_equal. lia.
    + destruct (Z.leb_spec (Z.of_nat (S s)) id), (Z.leb_spec (Z.of_nat s) id),
               (Z.ltb_spec id (Z.of_nat (S s + n))),
               (Z.ltb_spec id (Z.of_nat (s + S n))); simpl; try lia; try done.
      f_equal. lia.
Qed.

Lemma map_alter_same {A B : Type} (key : A -> B) (g : A -> A) (i : nat) (l : list A) :
  (forall a, key (g a) = key a) -> map key (alter g i l) = map key l.
Proof.
  intros H. revert i. induction l as [|a l IH]; intros [|i]; simpl; try done.
  - by rewrite H.
  - f_equal. apply IH.
Qed.

Lemma map_insert_same {A B : Type} (key : A -> B) (i : nat) (a b : A) (l : list A) :
  l !! i = Some a -> key b = key a -> map key (<[i := b]> l) = map key l.
Proof.
  revert i. induction l as [|x l IH]; intros [|i]; simpl; try done.
  - intros [= ->] ->. done.
  - intros H1 H2. f_equal. by apply IH.
Qed.

Lemma track_add_page_ids (pool : PagePool) (ti pi : nat) :
  map pg_page_id (pool_pages (snd (track_add_page pool ti pi)))
  = map pg_page_id (pool_pages pool) /\
  map tr_track_id (pool_tracks (snd (track_add_page pool ti pi)))
  = map tr_track_id (pool_tracks pool) /\
  pool_next_page_id (snd (track_add_page pool ti pi)) = pool_next_page_id pool /\
  pool_next_track_id (snd (track_add_page pool ti pi)) = pool_next_track_id pool.
Proof.
  unfold track_add_page.
  destruct (pool_tracks pool !! ti) as [track|] eqn:Ht; [|done].
  destruct (tr_page_capacity track <=? length (tr_pages track))%nat; [done|].
  cbn [snd track_update_derived pool_pages pool_tracks pool_next_page_id
       pool_next_track_id].
  split; [by apply map_alter_same|]. split; [|done].
  rewrite map_alter_same.
  - by apply (map_insert_same _ _ track).
  - intros a. unfold track_update_derived_on.
    by destruct (fold_left _ _ _) as [[[? ?] ?] ?].
Qed.

(** The ids of pages and tracks after a run: consecutive from 1. *)
Lemma pool_run_ids (ops : list PoolOp) :
  (Z.of_nat (length ops) < 2 ^ 32 - 1)%Z ->
  let pool := pool_run ops in
  map pg_page_id (pool_pages pool)
  = map Z.of_nat (seq 1 (length (pool_pages pool))) /\
  map tr_track_id (pool_tracks pool)
  = map Z.of_nat (seq 1 (length (pool_tracks pool))) /\
  pool_next_page_id pool = Z.of_nat (length (pool_pages pool) + 1) /\
  pool_next_track_id pool = Z.of_nat (length (pool_tracks pool) + 1) /\
  (length (pool_pages pool) <= length ops)%nat /\
  (length (pool_tracks pool) <= length ops)%nat.
Proof.
  induction ops as [|op ops IH] using rev_ind; intros Hlen pool.
  { repeat split; simpl; lia. }
  rewrite length_app in Hlen. simpl in Hlen.
  destruct IH as (Ip & It & Np & Nt & Lp & Lt); [lia|].
  unfold pool, pool_run. rewrite fold_left_app. cbn [fold_left].
  fold (pool_run ops). set (pool0 := pool_run ops) in *.
  rewrite length_app. simpl (length [op]).
  destruct op as [track_id|].
  - unfold page_pool_alloc.
    set (pool1 := mkPagePool (pool_pages pool0 ++ [page_create _ track_id]) _ _ _).
    assert (H1 : map pg_page_id (pool_pages pool1)
                 = map Z.of_nat (seq 1 (length (pool_pages pool1))) /\
                 map tr_track_id (pool_tracks pool1)
                 = map Z.of_nat (seq 1 (length (pool_tracks pool1))) /\
                 pool_next_page_id pool1 = Z.of_nat (length (pool_pages pool1) + 1) /\
                 pool_next_track_id pool1 = Z.of_nat (length (pool_tracks pool1) + 1) /\
                 (length (pool_pages pool1) <= length ops + 1)%nat /\
                 (length (pool_tracks pool1) <= length ops + 1)%nat).
    { unfold pool1. cbn [pool_pages pool_tracks pool_next_page_id pool_next_track_id].
      rewrite length_app, map_app, seq_app, map_app, Ip, Np. simpl.
      repeat split; try done; try lia.
      + do 2 f_equal. lia.
      + unfold u32_wrap. rewrite Z.mod_small by lia. lia. }
    assert (H2 : forall ti,
              let pool2 := snd (track_add_page pool1 ti (length (pool_pages pool0))) in
              map pg_page_id (pool_pages pool2)
              = map Z.of_nat (seq 1 (length (pool_pages pool2))) /\
              map tr_track_id (pool_tracks pool2)
              = map Z.of_nat (seq 1 (length (pool_tracks pool2))) /\
              pool_next_page_id pool2 = Z.of_nat (length (pool_pages pool2) + 1) /\
              pool_next_track_id pool2 = Z.of_nat (length (pool_tracks pool2) + 1) /\
              (length (pool_pages pool2) <= length ops + 1)%nat /\
              (length (pool_tracks pool2) <= length ops + 1)%nat).
    { intros ti pool2.
      destruct (track_add_page_ids pool1 ti (length (pool_pages pool0)))
        as (E1 & E2 & E3 & E4). fold pool2 in E1, E2, E3, E4.
      assert (L1 : length (pool_pages pool2) = length (pool_pages pool1))
        by (by rewrite <- (length_map pg_page_id), E1, length_map).
      assert (L2 : length (pool_tracks pool2) = length (pool_tracks pool1))
        by (by rewrite <- (length_map tr_track_id), E2, length_map).
      rewrite E1, E2, E3, E4, L1, L2. exact H1. }
    destruct (0 <? track_id)%Z; [|exact H1].
    destruct (page_pool_get_track pool1 track_id) as [ti|]; [|exact H1].
    apply H2.
  - unfold page_pool_create_track.
    cbn [fst pool_pages pool_tracks pool_next_page_id pool_next_track_id].
    rewrite length_app, map_app, seq_app, map_app, It, Nt. simpl.
    repeat split; try done; try lia.
    + do 2 f_equal. lia.
    + unfold u32_wrap. rewrite Z.mod_small by lia. lia.
Qed.

(** X17.  After any run of fewer than 2^32 - 1 allocations and track
    creations on a fresh pool, page ids and track ids are the numbers from
    1 in allocation order: [page_pool_get] and [page_pool_get_track]
    resolve each id handed out to the page or track created under it, and
    every other id, 0 included, to nothing. *)
Theorem page_pool_ids_resolve (ops : list PoolOp) (id : Z) :
  (Z.of_nat (length ops) < 2 ^ 32 - 1)%Z ->
  page_pool_get (pool_run ops) id
  = resolve_id (length (pool_pages (pool_run ops))) id /\
  page_pool_get_track (pool_run ops) id
  = resolve_id (length (pool_tracks (pool_run ops))) id.
Proof.
  intros Hlen. destruct (pool_run_ids ops Hlen) as (Ip & It & _).
  unfold page_pool_get, page_pool_get_track, resolve_id.
  rewrite (find_index_map pg_page_id (fun k => (k =? id)%Z)), Ip.
  rewrite (find_index_map tr_track_id (fun k => (k =? id)%Z)), It.
  rewrite !find_index_consecutive.
  split.
  - destruct (Z.leb_spec 1 id), (Z.leb_spec (Z.of_nat 1) id),
             (Z.ltb_spec id (Z.of_nat (1 + length (pool_pages (pool_run ops))))),
             (Z.leb_spec id (Z.of_nat (length (pool_pages (pool_run ops)))));
      simpl; try lia; try done. f_equal. lia.
  - destruct (Z.leb_spec 1 id), (Z.leb_spec (Z.of_nat 1) id),
             (Z.ltb_spec id (Z.of_nat (1 + length (pool_tracks (pool_run ops))))),
             (Z.leb_spec id (Z.of_nat (length (pool_tracks (pool_run ops)))));
      simpl; try lia; try done. f_equal. lia.
Qed.

(** Two tracks and three pages, two of them on track 1. *)
Lemma page_pool_ids_resolve_witness :
  page_pool_get (pool_run [PoolCreateTrack; PoolAlloc 1; PoolCreateTrack;
                           PoolAlloc 1; PoolAlloc 0]) 2
  = resolve_id (length (pool_pages
                          (pool_run [PoolCreateTrack; PoolAlloc 1; PoolCreateTrack;
                                     PoolAlloc 1; PoolAlloc 0]))) 2 /\
  page_pool_get_track (pool_run [PoolCreateTrack; PoolAlloc 1; PoolCreateTrack;
                                 PoolAlloc 1; PoolAlloc 0]) 2
  = resolve_id (length (pool_tracks
                          (pool_run [PoolCreateTrack; PoolAlloc 1; PoolCreateTrack;
                                     PoolAlloc 1; PoolAlloc 0]))) 2.
Proof.
  apply (page_pool_ids_resolve
           [PoolCreateTrack; PoolAlloc 1; PoolCreateTrack; PoolAlloc 1; PoolAlloc 0] 2).
  simpl. lia.
Defined.

(** ** Page flags *)

Lemma has_flag_set (flags flag : Z) :
  flag <> 0%Z -> has_flag (set_flag flags flag) flag = true.
Proof.
  intros Hf. unfold has_flag, set_flag.
  replace (Z.land (Z.lor flags flag) flag) with flag.
  - by apply negb_true_iff, Z.eqb_neq.
  - apply Z.bits_inj'. intros n Hn. rewrite Z.land_spec, Z.lor_spec.
    by destruct (Z.testbit flags n), (Z.testbit flag n).
Qed.

Lemma has_flag_clear (flags flag : Z) :
  has_flag (clear_flag flags flag) flag = false.
Proof.
  unfold has_flag, clear_flag.
  replace (Z.land (Z.land flags (Z.lnot flag)) flag) with 0%Z; [done|].
  apply Z.bits_inj'. intros n Hn.
  rewrite !Z.land_spec, Z.lnot_spec, Z.bits_0 by done.
  by destruct (Z.testbit flags n), (Z.testbit flag n).
Qed.

Lemma land_disjoint_bit (flag other : Z) (n : Z) :
  Z.land flag other = 0%Z -> Z.testbit other n = true -> Z.testbit flag n = false.
Proof.
  intros H Ho. assert (Hb : Z.testbit (Z.land flag other) n = false)
    by (rewrite H; apply Z.bits_0).
  rewrite Z.land_spec, Ho in Hb. by destruct (Z.testbit flag n).
Qed.

Lemma has_flag_set_other (flags flag other : Z) :
  Z.land flag other = 0%Z ->
  has_flag (set_flag flags flag) other = has_flag flags other.
Proof.
  intros H. unfold has_flag, set_flag. do 2 f_equal.
  apply Z.bits_inj'. intros n Hn. rewrite !Z.land_spec, Z.lor_spec.
  destruct (Z.testbit other n) eqn:Ho; [|by rewrite !andb_false_r].
  by rewrite (land_disjoint_bit _ _ _ H Ho), orb_false_r.
Qed.

Lemma has_flag_clear_other (flags flag other : Z) :
  Z.land flag other = 0%Z ->
  has_flag (clear_flag flags flag) other = has_flag flags other.
Proof.
  intros H. unfold has_flag, clear_flag. do 2 f_equal.
  apply Z.bits_inj'. intros n Hn. rewrite !Z.land_spec, Z.lnot_spec by done.
  destruct (Z.testbit other n) eqn:Ho; [|by rewrite !andb_false_r].
  rewrite (land_disjoint_bit _ _ _ H Ho). by rewrite andb_true_r.
Qed.

(** Clearing a flag that is not set changes nothing. *)
Lemma clear_flag_unset (flags flag : Z) :
  has_flag flags flag = false -> clear_flag flags flag = flags.
Proof.
  unfold has_flag, clear_flag. rewrite negb_false_iff, Z.eqb_eq. intros H.
  apply Z.bits_inj'. intros n Hn. rewrite Z.land_spec, Z.lnot_spec by done.
  destruct (Z.testbit flag n) eqn:Hf; [|by rewrite andb_true_r].
  rewrite (land_disjoint_bit _ _ _ H Hf). done.
Qed.

Lemma find_index_lt {A : Type} (f : A -> bool) (l : list A) (i : nat) :
  find_index f l = Some i -> (i < length l)%nat.
Proof.
  intros H. apply find_index_Some in H as (a & Ha & _). by eapply lookup_lt_Some.
Qed.

Lemma page_pool_get_alter_flags (f : Z -> Z) (pi : nat) (pool : PagePool) (id : Z) :
  page_pool_get (pool_alter_page (alter_page_flags f) pi pool) id
  = page_pool_get pool id.
Proof.
  unfold page_pool_get, pool_alter_page. cbn [pool_pages].
  rewrite !(find_index_map pg_page_id (fun k => (k =? id)%Z)).
  by rewrite map_alter_same.
Qed.

Lemma alter_flags_lookup (f : Z -> Z) (pi j : nat) (pool : PagePool) (page : Page) :
  pool_pages pool !! j = Some page ->
  pool_pages (pool_alter_page (alter_page_flags f) pi pool) !! j
  = Some (if (j =? pi)%nat then alter_page_flags f page else page).
Proof.
  intros H. unfold pool_alter_page. cbn [pool_pages].
  destruct (Nat.eqb_spec j pi) as [->|Hne].
  - by rewrite list_lookup_alter_eq, H.
  - by rewrite list_lookup_alter_ne.
Qed.

(** X18.  For a page id the pool resolves, [page_cache_pin] succeeds and
    the page is then pinned; [page_cache_unpin] after it succeeds and the
    page is no longer pinned.  The two calls change nothing but the
    PINNED bit of that one page. *)
Theorem page_cache_pin_unpin (pool : PagePool) (page_id : Z) (pi : nat) :
  page_pool_get pool page_id = Some pi ->
  exists pool1 pool2 : PagePool,
    page_cache_pin pool page_id = (PAGE_OK, pool1) /\
    page_is_pinned pool1 (page_pool_get pool1 page_id) = true /\
    page_cache_unpin pool1 page_id = (PAGE_OK, pool2) /\
    page_is_pinned pool2 (page_pool_get pool2 page_id) = false /\
    pool_tracks pool2 = pool_tracks pool /\
    forall (j : nat) (page : Page),
      pool_pages pool !! j = Some page ->
      exists page2 : Page,
        pool_pages pool2 !! j = Some page2 /\
        alter_page_flags (fun _ => pg_flags page2) page = page2 /\
        (j <> pi -> page2 = page) /\
        forall flag : Z, Z.land PAGE_STATUS_PINNED flag = 0%Z ->
          has_flag (pg_flags page2) flag = has_flag (pg_flags page) flag.
Proof.
  intros Hget. pose proof (find_index_lt _ _ _ Hget) as Hlt.
  destruct (lookup_lt_is_Some_2 _ _ Hlt) as [p Hp].
  set (pool1 := pool_alter_page
                  (alter_page_flags (fun fl => set_flag fl PAGE_STATUS_PINNED))
                  pi pool).
  assert (Hget1 : page_pool_get pool1 page_id = Some pi)
    by (unfold pool1; by rewrite page_pool_get_alter_flags).
  set (pool2 := pool_alter_page
                  (alter_page_flags (fun fl => clear_flag fl PAGE_STATUS_PINNED))
                  pi pool1).
  assert (Hget2 : page_pool_get pool2 page_id = Some pi)
    by (unfold pool2; by rewrite page_pool_get_alter_flags).
  assert (Hp1 : forall j page, pool_pages pool !! j = Some page ->
            pool_pages pool1 !! j
            = Some (if (j =? pi)%nat
                    then alter_page_flags (fun fl => set_flag fl PAGE_STATUS_PINNED) page
                    else page)).
  { intros j page Hj. by apply alter_flags_lookup. }
  assert (Hp2 : forall j page, pool_pages pool !! j = Some page ->
            pool_pages pool2 !! j
            = Some (if (j =? pi)%nat
                    then alter_page_flags
                           (fun fl => clear_flag (set_flag fl PAGE_STATUS_PINNED)
                                                 PAGE_STATUS_PINNED) page
                    else page)).
  { intros j page Hj. unfold pool2.
    rewrite (alter_flags_lookup _ _ _ _ _ (Hp1 j page Hj)).
    by destruct (j =? pi)%nat. }
  exists pool1, pool2. split; [unfold page_cache_pin; by rewrite Hget|]. split.
  { rewrite Hget1. unfold page_is_pinned. rewrite (Hp1 pi p Hp), Nat.eqb_refl.
    cbn [alter_page_flags pg_flags]. by apply has_flag_set. }
  split; [unfold page_cache_unpin; by rewrite Hget1|]. split.
  { rewrite Hget2. unfold page_is_pinned. rewrite (Hp2 pi p Hp), Nat.eqb_refl.
    cbn [alter_page_flags pg_flags]. apply has_flag_clear. }
  split; [done|].
  intros j page Hj. eexists. split; [by apply Hp2|].
  destruct (Nat.eqb_spec j pi) as [->|Hne].
  - split; [by destruct page|]. split; [done|]. intros flag Hflag.
    cbn [alter_page_flags pg_flags].
    by rewrite has_flag_clear_other, has_flag_set_other.
  - split; [by destruct page|]. done.
Qed.

(** X19.  [page_cache_flush] succeeds and leaves no page dirty; it changes
    nothing but the DIRTY bit of the pages' flags. *)
Theorem page_cache_flush_clears_dirty (pool : PagePool) :
  exists pool' : PagePool,
    page_cache_flush pool = (PAGE_OK, pool') /\
    pool_tracks pool' = pool_tracks pool /\
    pool_pages pool'
    = map (alter_page_flags (fun fl => clear_flag fl PAGE_STATUS_DIRTY))
          (pool_pages pool) /\
    forall page' : Page, page' ∈ pool_pages pool' ->
      has_flag (pg_flags page') PAGE_STATUS_DIRTY = false.
Proof.
  eexists. split; [reflexivity|]. cbn [pool_tracks pool_pages]. split; [done|].
  assert (H : forall page,
            (if has_flag (pg_flags page) PAGE_STATUS_DIRTY
             then alter_page_flags (fun fl => clear_flag fl PAGE_STATUS_DIRTY) page
             else page)
            = alter_page_flags (fun fl => clear_flag fl PAGE_STATUS_DIRTY) page).
  { intros page. destruct (has_flag _ _) eqn:E; [done|].
    unfold alter_page_flags. rewrite (clear_flag_unset _ _ E). by destruct page. }
  split.
  - apply map_ext. exact H.
  - intros page' Hin. change (map ?f ?l) with (f <$> l) in Hin.
    apply list_elem_of_fmap in Hin as (page & -> & _). rewrite H.
    apply has_flag_clear.
Qed.

(** Pinning and unpinning page 1 of the example pool. *)
Lemma page_cache_pin_unpin_witness :
  page_pool_get example_pool 1 = Some 0%nat /\
  exists pool1 pool2 : PagePool,
    page_cache_pin example_pool 1 = (PAGE_OK, pool1) /\
    page_is_pinned pool1 (page_pool_get pool1 1) = true /\
    page_cache_unpin pool1 1 = (PAGE_OK, pool2) /\
    page_is_pinned pool2 (page_pool_get pool2 1) = false /\
    pool_tracks pool2 = pool_tracks example_pool /\
    forall (j : nat) (page : Page),
      pool_pages example_pool !! j = Some page ->
      exists page2 : Page,
        pool_pages pool2 !! j = Some page2 /\
        alter_page_flags (fun _ => pg_flags page2) page = page2 /\
        (j <> 0%nat -> page2 = page) /\
        forall flag : Z, Z.land PAGE_STATUS_PINNED flag = 0%Z ->
          has_flag (pg_flags page2) flag = has_flag (pg_flags page) flag.
Proof.
  assert (H : page_pool_get example_pool 1 = Some 0%nat) by reflexivity.
  split; [exact H|].
  exact (page_cache_pin_unpin example_pool 1 0 H).
Defined.

(** ** The spatial index: objects by id *)

Lemma find_object_index_Some (objs : list SpatialObject) (id : Z) (j : nat) :
  find_object_index objs id = Some j ->
  exists obj, objs !! j = Some obj /\ so_id obj = id /\
              find_object_index (take j objs) id = None.
Proof.
  revert j. induction objs as [|o objs IH]; intros j; simpl; [done|].
  destruct (Z.eqb_spec (so_id o) id) as [He|Hne].
  - intros [= <-]. by exists o.
  - destruct (find_object_index objs id) as [k|]; [|done]. simpl. intros [= <-].
    destruct (IH k eq_refl) as (obj & Hobj & Hid & Hnone). exists obj.
    split; [done|]. split; [done|]. simpl.
    destruct (Z.eqb_spec (so_id o) id); [done|]. by rewrite Hnone.
Qed.

Lemma find_object_index_None (objs : list SpatialObject) (id : Z) :
  find_object_index objs id = None <-> Forall (fun obj => so_id obj <> id) objs.
Proof.
  induction objs as [|o objs IH]; simpl.
  - split; [constructor|done].
  - destruct (Z.eqb_spec (so_id o) id) as [He|Hne].
    + split; [done|]. intros H. by apply list.Forall_cons in H as [? _].
    + destruct (find_object_index objs id) as [k|] eqn:Hk; simpl.
      * split; [done|]. intros H. apply list.Forall_cons in H as [_ H].
        by apply IH in H.
      * split; [|done]. intros _. apply list.Forall_cons. split; [done|]. by apply IH.
Qed.

Lemma find_object_index_app_l (l1 l2 : list SpatialObject) (id : Z) :
  find_object_index (l1 ++ l2) id
  = match find_object_index l1 id with
    | Some j => Some j
    | None => option_map (Nat.add (length l1)) (find_object_index l2 id)
    end.
Proof.
  induction l1 as [|o l1 IH]; simpl.
  - by destruct (find_object_index l2 id).
  - destruct (so_id o =? id)%Z; [done|]. rewrite IH.
    destruct (find_object_index l1 id); [done|].
    by destruct (find_object_index l2 id).
Qed.

(** The first page holding an object with the given id, and the slot of
    the first such object in the concatenation of all pages. *)
Lemma find_page_concat (pages : list Page) (id : Z) :
  match find_index (fun page => bool_decide (is_Some (page_find_object page id)))
                   pages with
  | None => find_object_index (concat (map pg_objects pages)) id = None
  | Some pi =>
      exists page j,
        pages !! pi = Some page /\ page_find_object page id = Some j /\
        find_object_index (concat (map pg_objects pages)) id
        = Some (length (concat (map pg_objects (take pi pages))) + j)%nat
  end.
Proof.
  induction pages as [|page pages IH]; simpl; [done|].
  rewrite find_object_index_app_l.
  destruct (find_object_index (pg_objects page) id) as [j|] eqn:Hj.
  - rewrite bool_decide_eq_true_2 by (unfold page_find_object; rewrite Hj; by eexists).
    exists page, j. done.
  - rewrite bool_decide_eq_false_2
      by (unfold page_find_object; rewrite Hj; by intros [? ?]).
    destruct (find_index _ pages) as [pi|]; simpl.
    + destruct IH as (p & j & Hp & Hfind & ->). exists p, j.
      split; [done|]. split; [done|]. simpl. rewrite length_app. f_equal. lia.
    + by rewrite IH.
Qed.

Lemma delete_app_l {A : Type} (l r : list A) (j : nat) :
  (j < length l)%nat -> delete j (l ++ r) = delete j l ++ r.
Proof.
  revert j. induction l as [|a l IH]; intros j Hj; simpl in *; [lia|].
  destruct j; simpl; [done|]. f_equal. apply IH. lia.
Qed.

Lemma delete_app_r {A : Type} (l r : list A) (n : nat) :
  delete (length l + n)%nat (l ++ r) = l ++ delete n r.
Proof. induction l as [|a l IH]; simpl; [done|]. by rewrite IH. Qed.

Lemma concat_alter_delete (pages : list Page) (pi j : nat) (page page' : Page) :
  pages !! pi = Some page ->
  pg_objects page' = delete j (pg_objects page) ->
  (j < length (pg_objects page))%nat ->
  concat (map pg_objects (alter (fun _ => page') pi pages))
  = delete (length (concat (map pg_objects (take pi pages))) + j)%nat
           (concat (map pg_objects pages)).
Proof.
  revert pi. induction pages as [|p pages IH]; intros pi Hp Hobjs Hj; [done|].
  destruct pi as [|pi]; simpl in *.
  - injection Hp as ->. rewrite Hobjs. symmetry. by apply delete_app_l.
  - rewrite length_app, <- Nat.add_assoc, delete_app_r. f_equal. by apply IH.
Qed.

Lemma delete_take_drop {A : Type} (l : list A) (i : nat) :
  take i l ++ drop (i + 1) l = delete i l.
Proof.
  revert i. induction l as [|a l IH]; intros [|i]; simpl; try done.
  f_equal. apply IH.
Qed.

(** What a removal does to the stored objects. *)
Lemma spatial_index_remove_stored (double_bits : Qc -> Z) (idx : SpatialIndex)
  (object_id : Z) :
  match find_object_index (stored_objects idx) object_id with
  | None => spatial_index_remove double_bits idx object_id = (SI_ERR_NOT_FOUND, idx)
  | Some i =>
      exists idx',
        spatial_index_remove double_bits idx object_id = (SI_OK, idx') /\
        stored_objects idx' = delete i (stored_objects idx) /\
        si_is_built idx' = false
  end.
Proof.
  unfold spatial_index_remove, find_page_for_object, stored_objects.
  pose proof (find_page_concat (si_pages idx) object_id) as H.
  destruct (find_index _ (si_pages idx)) as [pi|].
  - destruct H as (page & j & Hpage & Hfind & ->). rewrite Hpage.
    unfold page_remove_object. unfold page_find_object in Hfind. rewrite Hfind.
    eexists. split; [reflexivity|]. split; [|done].
    change (concat (map pg_objects
              (alter (page_update_derived double_bits) pi
                 (alter (fun _ => page_update_derived double_bits
                      (mkPage (pg_page_id page) (pg_track_id page)
                         (clear_flag (set_flag (pg_flags page) PAGE_STATUS_DIRTY)
                                     PAGE_STATUS_FULL)
                         (pg_extent page) (pg_centroid page) (pg_checksum page)
                         (take j (pg_objects page) ++ drop (j + 1) (pg_objects page))
                         (pg_object_capacity page) (pg_in_memory page)))
                    pi (si_pages idx))))
            = delete (length (concat (map pg_objects (take pi (si_pages idx)))) + j)%nat
                     (concat (map pg_objects (si_pages idx)))).
    rewrite list_alter_alter_eq.
    apply find_object_index_Some in Hfind as (obj & Hobj & _).
    match goal with
    | |- concat (map pg_objects (alter (_ ∘ (fun _ => ?q)) _ _)) = _ =>
        apply (concat_alter_delete _ _ _ page (page_update_derived double_bits q));
          [done| |by eapply lookup_lt_Some]
    end.
    rewrite !page_update_derived_objects. cbn [pg_objects].
    apply delete_take_drop.
  - by rewrite H.
Qed.

Lemma concat_insert_snoc (pages : list Page) (pi : nat) (page q : Page)
  (obj : SpatialObject) :
  pages !! pi = Some page ->
  pg_objects q = pg_objects page ++ [obj] ->
  concat (map pg_objects (<[pi := q]> pages))
  ≡ₚ concat (map pg_objects pages) ++ [obj].
Proof.
  revert pi. induction pages as [|p pages IH]; intros pi Hp Hq; [done|].
  destruct pi as [|pi]; simpl in *.
  - injection Hp as ->. rewrite Hq, <- !app_assoc. apply Permutation_app_head.
    apply Permutation_app_comm.
  - rewrite (IH pi Hp Hq). by rewrite app_assoc.
Qed.

Lemma update_derived_id (sqrt : Qc -> Qc) (obj : SpatialObject) :
  so_id (snd (spatial_object_update_derived sqrt obj)) = so_id obj.
Proof.
  unfold spatial_object_update_derived.
  destruct (so_geom obj) as [p|ls|ext holes]; [done| |].
  - destruct (linestring_centroid sqrt ls (so_centroid obj)) as [[] c]; try done.
    by destruct (linestring_mbr ls (so_mbr obj)).
  - destruct (polygon_centroid ext (so_centroid obj)) as [[] c]; try done.
    by destruct (polygon_mbr ext (so_mbr obj)).
Qed.

Lemma spatial_index_insert_object (sqrt : Qc -> Qc) (double_bits : Qc -> Z)
  (idx : SpatialIndex) (obj : SpatialObject) :
  snd (spatial_index_insert sqrt double_bits idx obj)
  = snd (spatial_object_update_derived sqrt
           (if (so_id obj =? 0)%Z then set_id obj (si_next_object_id idx) else obj)).
Proof.
  unfold spatial_index_insert.
  destruct (so_id obj =? 0)%Z.
  all: destruct (get_page_for_insert _ _ _) as [idx2 pi];
    destruct (si_page_add_object _ _ _) as [[] idx3]; try done;
    destruct (disk_manager_alloc_page _ _ _) as [disk4 pi'];
    by destruct (si_page_add_object _ _ _) as [[] idx5].
Qed.

Lemma spatial_index_insert_stored (sqrt : Qc -> Qc) (double_bits : Qc -> Z)
  (idx : SpatialIndex) (obj : SpatialObject) :
  exists idx' obj',
    spatial_index_insert sqrt double_bits idx obj = (SI_OK, idx', obj') /\
    so_id obj' = (if (so_id obj =? 0)%Z then si_next_object_id idx else so_id obj) /\
    stored_objects idx' ≡ₚ stored_objects idx ++ [obj'].
Proof.
  pose proof (spatial_index_insert_object sqrt double_bits idx obj) as Hobj.
  destruct (spatial_index_insert_spec sqrt double_bits idx obj)
    as (idx' & obj' & pages2 & pi & page & page' & Heq & _ & Hp2 & Hpage & Hobjs
        & Hpages & _).
  rewrite Heq in Hobj. cbn [snd] in Hobj.
  exists idx', obj'. split; [done|]. split.
  - rewrite Hobj, update_derived_id. by destruct (so_id obj =? 0)%Z.
  - unfold stored_objects. rewrite Hpages.
    rewrite (concat_insert_snoc pages2 pi page _ obj' Hpage)
      by (by rewrite page_update_derived_objects).
    apply Permutation_app_tail.
    destruct Hp2 as [->|(_ & p & -> & Hfresh & _)]; [done|].
    rewrite map_app, concat_app. simpl. rewrite Hfresh. by rewrite !app_nil_r.
Qed.

(** X21.  [spatial_index_insert] returns [SI_OK]: the page it picks or
    allocates always has room.  The object keeps its id, or gets the index's
    next id when its id is 0; it is added to the stored objects, and
    [spatial_index_get] with its id then returns a stored object with that
    id, which is the inserted one when no object stored before had it. *)
Theorem spatial_index_insert_get (sqrt : Qc -> Qc) (double_bits : Qc -> Z)
  (idx : SpatialIndex) (obj : SpatialObject) :
  exists idx' obj',
    spatial_index_insert sqrt double_bits idx obj = (SI_OK, idx', obj') /\
    so_id obj' = (if (so_id obj =? 0)%Z then si_next_object_id idx else so_id obj) /\
    stored_objects idx' ≡ₚ stored_objects idx ++ [obj'] /\
    exists ptr found,
      spatial_index_get idx' (so_id obj') = Some ptr /\
      deref_object idx' ptr = Some found /\
      so_id found = so_id obj' /\
      (Forall (fun o => so_id o <> so_id obj') (stored_objects idx) ->
       found = obj').
Proof.
  destruct (spatial_index_insert_stored sqrt double_bits idx obj)
    as (idx' & obj' & Heq & Hid & Hperm).
  exists idx', obj'. split; [done|]. split; [done|]. split; [done|].
  unfold spatial_index_get, find_page_for_object, deref_object.
  pose proof (find_page_concat (si_pages idx') (so_id obj')) as H.
  destruct (find_index _ (si_pages idx')) as [pi|].
  - destruct H as (page & j & Hpage & Hfind & _). rewrite Hpage, Hfind.
    unfold page_find_object in Hfind.
    apply find_object_index_Some in Hfind as (found & Hfound & Hfid & _).
    exists (pi, j), found. cbn [fst snd]. rewrite Hpage.
    split; [done|]. split; [done|]. split; [done|]. intros Hfresh.
    assert (Hin : found ∈ stored_objects idx').
    { unfold stored_objects. apply elem_of_concat. exists (pg_objects page). split.
      - by eapply list_elem_of_lookup_2.
      - apply list_elem_of_fmap. exists page. split; [done|].
        by eapply list_elem_of_lookup_2. }
    rewrite Hperm in Hin. apply elem_of_app in Hin as [Hin|Hin].
    + rewrite list.Forall_forall in Hfresh. by destruct (Hfresh found Hin).
    + by apply list_elem_of_singleton in Hin.
  - exfalso. fold (stored_objects idx') in H.
    apply find_object_index_None in H. rewrite Hperm in H.
    apply Forall_app in H as [_ H]. by apply list.Forall_cons in H as [? _].
Qed.

(** ** The ids an index hands out *)

Section ObjectIds.
Variable sqrt : Qc -> Qc.
Variable double_bits : Qc -> Z.

Lemma get_page_for_insert_next_id (idx : SpatialIndex) (obj : SpatialObject) :
  si_next_object_id (fst (get_page_for_insert sqrt idx obj)) = si_next_object_id idx.
Proof.
  unfold get_page_for_insert.
  destruct (disk_manager_alloc_page sqrt (si_disk idx) (so_centroid obj)) as [d pi].
  destruct (0 <? kd_size (dm_allocation_tree (si_disk idx)))%nat; [|done].
  destruct (kdtree_nearest _ _) as [[] [[[? ?] [pi'|]]|]]; try done.
  destruct (si_pages idx !! pi') as [page|]; [|done].
  by destruct (negb (page_is_full page)).
Qed.

Lemma si_page_add_object_next_id (idx : SpatialIndex) (pi : nat)
  (obj : SpatialObject) :
  si_next_object_id (snd (si_page_add_object idx pi obj)) = si_next_object_id idx.
Proof.
  unfold si_page_add_object. destruct (si_pages idx !! pi) as [page|]; [|done].
  by destruct (page_add_object page obj).
Qed.

Lemma spatial_index_insert_next_id (idx : SpatialIndex) (obj : SpatialObject) :
  si_next_object_id (snd (fst (spatial_index_insert sqrt double_bits idx obj)))
  = if (so_id obj =? 0)%Z then u64_wrap (si_next_object_id idx + 1)
    else si_next_object_id idx.
Proof.
  unfold spatial_index_insert.
  set (p1 := if (so_id obj =? 0)%Z then _ else (idx, obj)).
  assert (H1 : si_next_object_id (fst p1)
               = if (so_id obj =? 0)%Z then u64_wrap (si_next_object_id idx + 1)
                 else si_next_object_id idx).
  { unfold p1. by destruct (so_id obj =? 0)%Z. }
  destruct p1 as [idx1 obj1]. cbn [fst] in H1. rewrite <- H1.
  set (obj2 := snd (spatial_object_update_derived sqrt obj1)).
  pose proof (get_page_for_insert_next_id idx1 obj2) as H2.
  destruct (get_page_for_insert sqrt idx1 obj2) as [idx2 pi]. cbn [fst] in H2.
  pose proof (si_page_add_object_next_id idx2 pi obj2) as H3.
  destruct (si_page_add_object idx2 pi obj2) as [err idx3]. cbn [snd] in H3.
  assert (H4 : forall idx4 pi4,
             si_next_object_id (insert_finish double_bits idx4 pi4 obj2)
             = si_next_object_id idx4) by done.
  destruct err; cbn [fst snd]; rewrite ?H4; try congruence.
  all: destruct (disk_manager_alloc_page sqrt (si_disk idx3) (so_centroid obj2))
         as [disk4 pi'];
    pose proof (si_page_add_object_next_id (si_set_disk idx3 disk4) pi' obj2) as H5;
    destruct (si_page_add_object (si_set_disk idx3 disk4) pi' obj2) as [err5 idx5];
    cbn [snd] in H5; destruct err5; cbn [fst snd]; rewrite ?H4; rewrite H5;
    cbn [si_set_disk si_next_object_id]; congruence.
Qed.

Lemma spatial_index_remove_next_id (idx : SpatialIndex) (object_id : Z) :
  si_next_object_id (snd (spatial_index_remove double_bits idx object_id))
  = si_next_object_id idx.
Proof.
  unfold spatial_index_remove.
  destruct (find_page_for_object idx object_id) as [pi|]; [|done].
  destruct (si_pages idx !! pi) as [page|]; [|done].
  by destruct (page_remove_object double_bits page object_id) as [[] page'].
Qed.

Lemma fold_create_block_next_id (bs : list MBR) (idx : SpatialIndex) :
  si_next_object_id (fold_left create_block bs idx) = si_next_object_id idx.
Proof.
  revert idx. induction bs as [|b bs IH]; intros idx; [done|].
  cbn [fold_left]. by rewrite IH.
Qed.

Lemma build_page_quadtree_next_id (idx idx' : SpatialIndex) (err : SIError) :
  build_page_quadtree idx = Some (err, idx') ->
  si_next_object_id idx' = si_next_object_id idx.
Proof.
  unfold build_page_quadtree.
  destruct (negb (sic_build_quadtree (si_config idx))); [by intros [= _ <-]|].
  destruct (length (si_pages (si_set_page_tree idx None)) =? 0)%nat;
    [by intros [= _ <-]|].
  unfold quadtree_create. destruct (fold_left _ _ _) as [qt|]; [|done].
  by intros [= _ <-].
Qed.

Lemma spatial_index_build_next_id (idx idx' : SpatialIndex) (err : SIError) :
  spatial_index_build idx = Some (err, idx') ->
  si_next_object_id idx' = si_next_object_id idx.
Proof.
  unfold spatial_index_build.
  destruct (page_pool_total_objects (dm_pool (si_disk idx)) =? 0)%nat;
    [by intros [= _ <-]|].
  destruct (kdtree_bulk_load kdtree_init (collect_points (si_pages idx)))
    as [e tree].
  destruct (kdtree_partition tree (sic_block_size (si_config idx))) as [e' bs].
  set (idx1 := mkSpatialIndex _ tree _ _ [] _ _ _ _).
  pose proof (fold_create_block_next_id bs idx1) as H1.
  destruct (build_page_quadtree (fold_left create_block bs idx1))
    as [[err3 idx3]|] eqn:Hq; [|done].
  apply build_page_quadtree_next_id in Hq.
  destruct err3; intros [= _ <-]; cbn [si_set_is_built si_next_object_id];
    by rewrite Hq, H1.
Qed.

Lemma spatial_index_find_adjacent_pages_next_id (idx idx' : SpatialIndex)
  (region : MBR) (err : SIError) (res : AdjacentPagesResult) :
  spatial_index_find_adjacent_pages idx region = Some (err, idx', res) ->
  si_next_object_id idx' = si_next_object_id idx.
Proof.
  unfold spatial_index_find_adjacent_pages.
  assert (Hb : forall e idx1,
             match si_page_tree idx with
             | None => build_page_quadtree idx
             | Some _ => Some (SI_OK, idx)
             end = Some (e, idx1) ->
             si_next_object_id idx1 = si_next_object_id idx).
  { intros e idx1. destruct (si_page_tree idx); [by intros [= _ <-]|].
    apply build_page_quadtree_next_id. }
  destruct (match si_page_tree idx with None => _ | Some _ => _ end)
    as [[e idx1]|]; [|done].
  specialize (Hb e idx1 eq_refl).
  destruct e; try (by intros [= _ <- _]).
  destruct (si_page_tree idx1) as [qt|]; [|by intros [= _ <- _]].
  destruct (quadtree_find_adjacent_to_region qt region []) as [e qr].
  destruct (length qr =? 0)%nat; by intros [= _ <- _].
Qed.


(** The ids in use are positive, below the next id to hand out, and pairwise
    different. *)
Lemma ids_ok_insert (idx : SpatialIndex) (obj : SpatialObject) :
  so_id obj = 0%Z ->
  (0 < si_next_object_id idx < 2 ^ 64 - 1)%Z ->
  Forall (fun o => (0 < so_id o < si_next_object_id idx)%Z) (stored_objects idx) ->
  NoDup (map so_id (stored_objects idx)) ->
  let idx' := snd (fst (spatial_index_insert sqrt double_bits idx obj)) in
  si_next_object_id idx' = (si_next_object_id idx + 1)%Z /\
  Forall (fun o => (0 < so_id o < si_next_object_id idx')%Z) (stored_objects idx') /\
  NoDup (map so_id (stored_objects idx')).
Proof.
  intros Hid Hnext Hall Hnd idx'.
  pose proof (spatial_index_insert_next_id idx obj) as Hn. fold idx' in Hn.
  destruct (spatial_index_insert_stored sqrt double_bits idx obj)
    as (idx1 & obj' & Heq & Hid' & Hperm).
  unfold idx' in *. clear idx'. rewrite Heq in *. cbn [fst snd] in *.
  rewrite Hid in *. cbn in Hn, Hid'.
  unfold u64_wrap in Hn. rewrite Z.mod_small in Hn by lia.
  split; [done|]. rewrite Hperm, Hn. split.
  - apply Forall_app. split.
    + eapply Forall_impl; [exact Hall|]. cbn. intros o Ho. lia.
    + apply list.Forall_cons. split; [lia|constructor].
  - rewrite map_app. apply list.NoDup_app. split; [done|]. split.
    + intros id Hin Hin'. apply list_elem_of_singleton in Hin'. subst id.
      change (map so_id (stored_objects idx)) with (so_id <$> stored_objects idx) in Hin.
      apply list_elem_of_fmap in Hin as (o & Ho & Hin).
      rewrite list.Forall_forall in Hall. specialize (Hall o Hin). lia.
    + apply NoDup_singleton.
Qed.

Lemma ids_ok_remove (idx : SpatialIndex) (object_id : Z) :
  Forall (fun o => (0 < so_id o < si_next_object_id idx)%Z) (stored_objects idx) ->
  NoDup (map so_id (stored_objects idx)) ->
  let idx' := snd (spatial_index_remove double_bits idx object_id) in
  si_next_object_id idx' = si_next_object_id idx /\
  Forall (fun o => (0 < so_id o < si_next_object_id idx')%Z) (stored_objects idx') /\
  NoDup (map so_id (stored_objects idx')).
Proof.
  intros Hall Hnd idx'. split; [apply spatial_index_remove_next_id|].
  unfold idx'. rewrite spatial_index_remove_next_id.
  pose proof (spatial_index_remove_stored double_bits idx object_id) as H.
  destruct (find_object_index (stored_objects idx) object_id) as [i|].
  - destruct H as (idx1 & -> & Hs & _). cbn [snd]. rewrite Hs. split.
    + by apply Forall_delete.
    + change (map so_id (delete i (stored_objects idx)))
        with (so_id <$> delete i (stored_objects idx)).
      rewrite list_fmap_delete. exact (sublist_NoDup _ _ Hnd (sublist_delete _ _)).
  - by rewrite H.
Qed.

Lemma ids_ok_bulk_insert (objects : list SpatialObject) (idx : SpatialIndex) :
  Forall (fun o => so_id o = 0%Z) objects ->
  (0 < si_next_object_id idx)%Z ->
  (si_next_object_id idx + Z.of_nat (length objects) < 2 ^ 64)%Z ->
  Forall (fun o => (0 < so_id o < si_next_object_id idx)%Z) (stored_objects idx) ->
  NoDup (map so_id (stored_objects idx)) ->
  let idx' := snd (fst (spatial_index_bulk_insert sqrt double_bits idx objects)) in
  si_next_object_id idx'
  = (si_next_object_id idx + Z.of_nat (length objects))%Z /\
  Forall (fun o => (0 < so_id o < si_next_object_id idx')%Z) (stored_objects idx') /\
  NoDup (map so_id (stored_objects idx')).
Proof.
  revert idx. induction objects as [|obj rest IH]; intros idx Hz Hpos Hlt Hall Hnd.
  - cbn. split; [lia|done].
  - apply list.Forall_cons in Hz as [Hz1 Hz2]. cbn [length] in Hlt.
    cbn [spatial_index_bulk_insert].
    pose proof (spatial_index_insert_returns_ok sqrt double_bits idx obj) as Hok.
    destruct (ids_ok_insert idx obj Hz1 ltac:(lia) Hall Hnd) as (Hn1 & Hall1 & Hnd1).
    destruct (spatial_index_insert sqrt double_bits idx obj) as [[err idx1] obj1].
    cbn [fst snd] in *. subst err.
    specialize (IH idx1 Hz2 ltac:(lia) ltac:(lia) Hall1 Hnd1). cbn zeta in IH.
    destruct (spatial_index_bulk_insert sqrt double_bits idx1 rest)
      as [[err2 idx2] rest'].
    cbn [fst snd] in *. destruct IH as (-> & IH2 & IH3).
    cbn [length]. split; [lia|done].
Qed.

Lemma ids_ok_run_op (op : Op) (idx idx' : SpatialIndex) :
  run_op sqrt double_bits idx op = Some idx' ->
  Forall (fun o => so_id o = 0%Z) (op_objects op) ->
  (0 < si_next_object_id idx)%Z ->
  (si_next_object_id idx + Z.of_nat (length (op_objects op)) < 2 ^ 64)%Z ->
  Forall (fun o => (0 < so_id o < si_next_object_id idx)%Z) (stored_objects idx) ->
  NoDup (map so_id (stored_objects idx)) ->
  si_next_object_id idx'
  = (si_next_object_id idx + Z.of_nat (length (op_objects op)))%Z /\
  Forall (fun o => (0 < so_id o < si_next_object_id idx')%Z) (stored_objects idx') /\
  NoDup (map so_id (stored_objects idx')).
Proof.
  intros Hrun Hz Hpos Hlt Hall Hnd.
  assert (Hframe : si_next_object_id idx' = si_next_object_id idx ->
                   si_pages idx' = si_pages idx ->
                   op_objects op = [] ->
                   si_next_object_id idx'
                   = (si_next_object_id idx + Z.of_nat (length (op_objects op)))%Z /\
                   Forall (fun o => (0 < so_id o < si_next_object_id idx')%Z)
                          (stored_objects idx') /\
                   NoDup (map so_id (stored_objects idx'))).
  { intros Hn Hp ->. unfold stored_objects. rewrite Hp, Hn. cbn.
    split; [lia|done]. }
  destruct op as [obj|objs|id| |r|p|p k|r]; cbn [run_op op_objects] in *.
  - injection Hrun as <-. apply list.Forall_cons in Hz as [Hz _].
    cbn [length] in *. by apply ids_ok_insert; [|lia|..].
  - injection Hrun as <-. by apply ids_ok_bulk_insert.
  - injection Hrun as <-.
    destruct (ids_ok_remove idx id Hall Hnd) as (Hn & H2 & H3).
    cbn [length]. split; [lia|done].
  - destruct (spatial_index_build idx) as [[err idx1]|] eqn:Hb; [|done].
    cbn in Hrun. injection Hrun as <-.
    destruct (spatial_index_build_spec idx) as (e & i & He & Hp & _).
    rewrite Hb in He. injection He as <- <-.
    apply Hframe; [by eapply spatial_index_build_next_id|done|done].
  - injection Hrun as <-. by apply Hframe.
  - injection Hrun as <-. by apply Hframe.
  - injection Hrun as <-. by apply Hframe.
  - destruct (spatial_index_find_adjacent_pages idx r) as [[[err idx1] res]|] eqn:Hb;
      [|done].
    cbn in Hrun. injection Hrun as <-.
    destruct (spatial_index_find_adjacent_pages_spec idx r) as (e & i & rs & He & Hp & _).
    rewrite Hb in He. injection He as <- <- <-.
    apply Hframe; [by eapply spatial_index_find_adjacent_pages_next_id|done|done].
Qed.

Lemma ids_ok_run_ops (ops : list Op) (idx idx' : SpatialIndex) :
  run_ops sqrt double_bits idx ops = Some idx' ->
  Forall (fun o => so_id o = 0%Z) (concat (map op_objects ops)) ->
  (0 < si_next_object_id idx)%Z ->
  (si_next_object_id idx + Z.of_nat (length (concat (map op_objects ops))) < 2 ^ 64)%Z ->
  Forall (fun o => (0 < so_id o < si_next_object_id idx)%Z) (stored_objects idx) ->
  NoDup (map so_id (stored_objects idx)) ->
  si_next_object_id idx'
  = (si_next_object_id idx + Z.of_nat (length (concat (map op_objects ops))))%Z /\
  Forall (fun o => (0 < so_id o < si_next_object_id idx')%Z) (stored_objects idx') /\
  NoDup (map so_id (stored_objects idx')).
Proof.
  revert idx. induction ops as [|op ops IH]; intros idx Hrun Hz Hpos Hlt Hall Hnd.
  - injection Hrun as <-. cbn. split; [lia|done].
  - cbn [run_ops map concat] in *. rewrite length_app in *.
    apply Forall_app in Hz as [Hz1 Hz2].
    destruct (run_op sqrt double_bits idx op) as [idx1|] eqn:Hop; [|done].
    destruct (ids_ok_run_op op idx idx1 Hop Hz1 Hpos ltac:(lia) Hall Hnd)
      as (Hn1 & Hall1 & Hnd1).
    destruct (IH idx1 Hrun Hz2 ltac:(lia) ltac:(lia) Hall1 Hnd1) as (Hn & H2 & H3).
    split; [lia|done].
Qed.

End ObjectIds.

(** X20.  [spatial_index_remove] looks for the first stored object with the
    given id, pages in pool order and slots in order.  If there is none it
    returns [SI_ERR_NOT_FOUND] and leaves the index as it was; otherwise it
    returns [SI_OK], deletes exactly that object from the stored objects,
    keeping the order of the others, and marks the index as not built.  The
    bounds of the index and the next id to hand out stay as they are. *)
Theorem spatial_index_remove_result (double_bits : Qc -> Z) (idx : SpatialIndex)
  (object_id : Z) :
  match find_object_index (stored_objects idx) object_id with
  | None => spatial_index_remove double_bits idx object_id = (SI_ERR_NOT_FOUND, idx)
  | Some i =>
      exists idx',
        spatial_index_remove double_bits idx object_id = (SI_OK, idx') /\
        stored_objects idx' = delete i (stored_objects idx) /\
        si_is_built idx' = false /\
        si_bounds idx' = si_bounds idx /\
        si_next_object_id idx' = si_next_object_id idx
  end.
Proof.
  pose proof (spatial_index_remove_stored double_bits idx object_id) as Hrem.
  pose proof (spatial_index_remove_spec double_bits idx object_id) as [Hbounds _].
  pose proof (spatial_index_remove_next_id double_bits idx object_id) as Hnext.
  destruct (find_object_index (stored_objects idx) object_id) as [i|]; [|done].
  destruct Hrem as (idx' & Hrem & Hstored & Hbuilt).
  rewrite Hrem in Hbounds, Hnext. cbn [snd] in Hbounds, Hnext.
  by exists idx'.
Qed.

(** X22.  Start from a fresh index and run any sequence of public
    operations whose inserted objects all come with id 0, fewer than
    2^64 - 1 of them.  Then the stored objects have pairwise different ids,
    each between 1 and the number of objects inserted so far, and the next
    id to hand out is one more than that number: removals never free an id
    for reuse. *)
Theorem assigned_ids_unique (sqrt : Qc -> Qc) (double_bits : Qc -> Z)
  (ops : list Op) :
  Forall (fun o => so_id o = 0%Z) (concat (map op_objects ops)) ->
  (Z.of_nat (length (concat (map op_objects ops))) < 2 ^ 64 - 1)%Z ->
  exists idx,
    run_ops sqrt double_bits (snd (spatial_index_init None)) ops = Some idx /\
    si_next_object_id idx
    = (1 + Z.of_nat (length (concat (map op_objects ops))))%Z /\
    NoDup (map so_id (stored_objects idx)) /\
    Forall (fun o => (0 < so_id o
                      <= Z.of_nat (length (concat (map op_objects ops))))%Z)
           (stored_objects idx).
Proof.
  intros Hz Hlt.
  destruct (run_ops_spec sqrt double_bits ops (snd (spatial_index_init None)))
    as (idx & Hrun & _).
  exists idx. split; [done|].
  destruct (ids_ok_run_ops sqrt double_bits ops _ idx Hrun Hz) as (Hn & Hall & Hnd).
  - cbn. lia.
  - cbn [spatial_index_init snd si_next_object_id]. lia.
  - constructor.
  - constructor.
  - cbn [spatial_index_init snd si_next_object_id] in Hn. split; [done|].
    split; [done|]. eapply Forall_impl; [exact Hall|]. cbn beta. intros o Ho. lia.
Qed.

Lemma assigned_ids_unique_witness :
  Forall (fun o => so_id o = 0%Z) (concat (map op_objects example_ops)) /\
  (Z.of_nat (length (concat (map op_objects example_ops))) < 2 ^ 64 - 1)%Z /\
  exists idx,
    run_ops example_sqrt example_double_bits (snd (spatial_index_init None))
            example_ops = Some idx /\
    si_next_object_id idx
    = (1 + Z.of_nat (length (concat (map op_objects example_ops))))%Z /\
    NoDup (map so_id (stored_objects idx)) /\
    Forall (fun o => (0 < so_id o
                      <= Z.of_nat (length (concat (map op_objects example_ops))))%Z)
           (stored_objects idx).
Proof.
  assert (H1 : Forall (fun o => so_id o = 0%Z) (concat (map op_objects example_ops))).
  { cbn [example_ops map concat op_objects app]. forall_list; reflexivity. }
  assert (H2 : (Z.of_nat (length (concat (map op_objects example_ops)))
                < 2 ^ 64 - 1)%Z) by (cbn; lia).
  split; [exact H1|]. split; [exact H2|].
  exact (assigned_ids_unique example_sqrt example_double_bits example_ops H1 H2).
Defined.

(** ** Point queries on an index *)





Lemma spatial_index_insert_built (sqrt : Qc -> Qc) (double_bits : Qc -> Z)
  (idx : SpatialIndex) (obj : SpatialObject) :
  si_is_built (snd (fst (spatial_index_insert sqrt double_bits idx obj))) = false.
Proof.
  pose proof (spatial_index_insert_returns_ok sqrt double_bits idx obj) as Hok.
  revert Hok. unfold spatial_index_insert.
  destruct (so_id obj =? 0)%Z.
  all: destruct (get_page_for_insert _ _ _) as [idx2 pi];
    destruct (si_page_add_object _ _ _) as [[] idx3]; try done;
    destruct (disk_manager_alloc_page _ _ _) as [disk4 pi'];
    by destruct (si_page_add_object _ _ _) as [[] idx5].
Qed.


(** X24.  [spatial_index_update] with an id that no stored object has
    returns [SI_ERR_NOT_FOUND] and leaves the index as it was.  Otherwise it
    returns [SI_OK]: the first stored object with that id is deleted and the
    new object is stored in its place among the objects, not necessarily in
    the same page or slot, carrying the id that was asked for (an id of 0 is
    replaced by the index's next id, as in any insertion). *)
Theorem spatial_index_update_result (sqrt : Qc -> Qc) (double_bits : Qc -> Z)
  (idx : SpatialIndex) (object_id : Z) (new_obj : SpatialObject) :
  match find_object_index (stored_objects idx) object_id with
  | None =>
      spatial_index_update sqrt double_bits idx object_id new_obj
      = (SI_ERR_NOT_FOUND, idx)
  | Some i =>
      exists idx' obj',
        spatial_index_update sqrt double_bits idx object_id new_obj = (SI_OK, idx') /\
        obj' = snd (spatial_object_update_derived sqrt
                      (set_id new_obj
                         (if (object_id =? 0)%Z then si_next_object_id idx
                          else object_id))) /\
        stored_objects idx' ≡ₚ delete i (stored_objects idx) ++ [obj'] /\
        si_is_built idx' = false
  end.
Proof.
  unfold spatial_index_update.
  pose proof (spatial_index_remove_stored double_bits idx object_id) as Hrem.
  pose proof (spatial_index_remove_next_id double_bits idx object_id) as Hnext.
  destruct (find_object_index (stored_objects idx) object_id) as [i|].
  - destruct Hrem as (idx1 & Hrem & Hstored & _). rewrite Hrem in *.
    cbn [snd] in Hnext.
    set (obj_copy := set_id (spatial_object_copy new_obj) object_id).
    pose proof (spatial_index_insert_object sqrt double_bits idx1 obj_copy) as Hobj.
    pose proof (spatial_index_insert_built sqrt double_bits idx1 obj_copy) as Hb.
    destruct (spatial_index_insert_stored sqrt double_bits idx1 obj_copy)
      as (idx2 & obj2 & Hins & _ & Hperm).
    rewrite Hins in *. cbn [fst snd] in *.
    exists idx2, obj2. split; [done|]. split; [|split; [by rewrite Hperm, Hstored|done]].
    rewrite Hobj, Hnext. unfold obj_copy, spatial_object_copy.
    cbn [set_id so_id so_geom so_centroid so_mbr so_properties].
    by destruct (object_id =? 0)%Z.
  - by rewrite Hrem.
Qed.

(** ** Quadtrees: updating an item *)

Lemma qtnode_remove_bounds {D : Type} (node : QTNode D) (id : Z) :
  qtnode_bounds (snd (qtnode_remove node id)) = qtnode_bounds node /\
  qtnode_is_null (snd (qtnode_remove node id)) = qtnode_is_null node.
Proof.
  destruct node as [|b items cap nw ne sw se depth leaf]; [done|].
  cbn [qtnode_remove]. destruct (find_item_index items id); [done|].
  destruct leaf; cbn [negb]; [done|].
  destruct (qtnode_remove nw id) as [[] ?]; [done|].
  destruct (qtnode_remove ne id) as [[] ?]; [done|].
  destruct (qtnode_remove sw id) as [[] ?]; [done|].
  by destruct (qtnode_remove se id) as [[] ?].
Qed.

(** X25.  [quadtree_update] on an initialised quadtree with an id that no
    stored item has returns [QT_ERR_NOT_FOUND] and leaves the tree
    unchanged.  Otherwise the first item with that id is taken out and an
    item with the same id and data and the new bounds is inserted: when the
    new bounds meet the bounds of the root this succeeds and the new item is
    stored; when they miss them the call returns [QT_ERR_BOUNDS] and the old
    item is gone: the removal is not undone. *)
Theorem quadtree_update_result {D : Type} (qt : QuadTree D) (id : Z)
  (new_bounds : MBR) :
  qtnode_is_null (qt_root qt) = false ->
  match List.find (fun it => (qi_id it =? id)%Z) (snd (quadtree_get_all qt [])) with
  | None => quadtree_update qt id new_bounds = Some (QT_ERR_NOT_FOUND, qt)
  | Some it =>
      exists (err : QTError) (qt' : QuadTree D),
        quadtree_update qt id new_bounds = Some (err, qt') /\
        if mbr_intersects (qtnode_bounds (qt_root qt)) new_bounds
        then err = QT_OK /\
             mkQTItem id new_bounds (mbr_centroid new_bounds) (qi_data it)
               ∈ snd (quadtree_get_all qt' [])
        else err = QT_ERR_BOUNDS /\
             snd (quadtree_get_all qt' [])
             = remove_first_id id (snd (quadtree_get_all qt []))
  end.
Proof.
  intros Hroot. unfold quadtree_update, quadtree_get_all, quadtree_remove.
  rewrite Hroot. unfold qtresult_clear. cbn [snd].
  rewrite qtnode_collect_all_items, qtnode_find_items. cbn [app].
  pose proof (qtnode_remove_items (qt_root qt) id) as Hr.
  pose proof (qtnode_remove_bounds (qt_root qt) id) as [Hb Hn].
  destruct (List.find _ (qt_items (qt_root qt))) as [it|]; [|done].
  destruct (qtnode_remove (qt_root qt) id) as [r root'].
  destruct Hr as [Hr Hitems]. cbn [fst snd] in *. subst r.
  set (qt1 := mkQuadTree root' _ _ _).
  unfold quadtree_insert.
  destruct (quadtree_insert_with_centroid_total qt1 id new_bounds
              (mbr_centroid new_bounds) (qi_data it)) as [[err qt'] Hins].
  rewrite Hins. exists err, qt'. split; [done|].
  unfold quadtree_insert_with_centroid in Hins. cbn [qt1 qt_root] in Hins.
  rewrite Hn, Hroot in Hins.
  destruct (qtnode_insert _ _ _ _ _) as [[e root'']|] eqn:E; [|done].
  apply qtnode_insert_result in E; [|intros ->; cbn in Hn; congruence].
  cbn [qi_bounds] in E. rewrite Hb in E. simplify_eq.
  destruct (mbr_intersects _ new_bounds).
  - destruct E as [-> Hin]. split; [done|]. cbn [qt_root].
    by rewrite qtnode_collect_all_items.
  - destruct E as [-> ->]. split; [done|]. cbn [qt_root].
    by rewrite qtnode_collect_all_items.
Qed.

(** Moving the third example item, first inside the tree and then out of
    it. *)
Lemma quadtree_update_result_witness :
  qtnode_is_null (qt_root example_quadtree_filled) = false /\
  match List.find (fun it => (qi_id it =? 3)%Z)
                  (snd (quadtree_get_all example_quadtree_filled [])) with
  | None =>
      quadtree_update example_quadtree_filled 3 (example_box 200 200 300 300)
      = Some (QT_ERR_NOT_FOUND, example_quadtree_filled)
  | Some it =>
      exists (err : QTError) (qt' : QuadTree nat),
        quadtree_update example_quadtree_filled 3 (example_box 200 200 300 300)
        = Some (err, qt') /\
        if mbr_intersects (qtnode_bounds (qt_root example_quadtree_filled))
                          (example_box 200 200 300 300)
        then err = QT_OK /\
             mkQTItem 3 (example_box 200 200 300 300)
                      (mbr_centroid (example_box 200 200 300 300)) (qi_data it)
               ∈ snd (quadtree_get_all qt' [])
        else err = QT_ERR_BOUNDS /\
             snd (quadtree_get_all qt' [])
             = remove_first_id 3 (snd (quadtree_get_all example_quadtree_filled []))
  end.
Proof.
  assert (H : qtnode_is_null (qt_root example_quadtree_filled) = false)
    by (vm_compute; reflexivity).
  split; [exact H|].
  exact (quadtree_update_result example_quadtree_filled 3
           (example_box 200 200 300 300) H).
Defined.

(** ** The disk manager: choosing a track *)

Lemma best_track_scan_spec (score : DiskTrack -> Qc) (tracks : list DiskTrack) :
  match best_track_scan score tracks with
  | Some ti =>
      exists track,
        tracks !! ti = Some track /\ track_has_space track = true /\
        score track < DBL_MAX /\
        forall tj track',
          tracks !! tj = Some track' -> track_has_space track' = true ->
          score track <= score track' /\ ((tj < ti)%nat -> score track < score track')
  | None =>
      forall track, track ∈ tracks -> track_has_space track = true ->
                    DBL_MAX <= score track
  end.
Proof.
  unfold best_track_scan.
  set (step := fun '(best, best_value) '(ti, track) => _).
  assert (H : forall l,
    let r := fold_left step (imap (fun ti track => (ti, track)) l) (None, DBL_MAX) in
    match fst r with
    | Some ti =>
        exists track,
          l !! ti = Some track /\ track_has_space track = true /\
          score track = snd r /\ snd r < DBL_MAX /\
          forall tj track',
            l !! tj = Some track' -> track_has_space track' = true ->
            snd r <= score track' /\ ((tj < ti)%nat -> snd r < score track')
    | None =>
        snd r = DBL_MAX /\
        forall track, track ∈ l -> track_has_space track = true ->
                      DBL_MAX <= score track
    end).
  { induction l as [|t l IH] using rev_ind.
    - cbn. split; [done|]. intros track Hin. by apply elem_of_nil in Hin.
    - cbn zeta in *. rewrite imap_app, fold_left_app. cbn [imap fold_left].
      destruct (fold_left step (imap _ l) (None, DBL_MAX)) as [best bv].
      cbn [fst snd] in IH.
      replace (length l + 0)%nat with (length l) by lia.
      assert (Hstep : step (best, bv) (length l, t)
                      = if negb (track_has_space t) then (best, bv)
                        else if Qcltb (score t) bv then (Some (length l), score t)
                             else (best, bv)) by reflexivity.
      rewrite Hstep. clear Hstep.
      destruct (track_has_space t) eqn:Hsp; cbn [negb].
      + destruct (Qcltb_spec (score t) bv) as [q|n]; cbn [fst snd].
        * exists t. split; [by rewrite lookup_app_r, Nat.sub_diag by lia|].
          split; [done|]. split; [done|].
          assert (Hbv : bv <= DBL_MAX).
          { destruct best as [ti|]; [|destruct IH as [-> _]; qc_order].
            destruct IH as (tr & _ & _ & _ & Hb & _). qc_order. }
          split; [qc_order|]. intros tj t' Hj Hsp'.
          destruct (decide (tj < length l)%nat) as [Hlt'|Hge].
          -- rewrite lookup_app_l in Hj by done.
             assert (Hle : bv <= score t').
             { destruct best as [ti|].
               - destruct IH as (tr & _ & _ & _ & _ & Hmin).
                 by destruct (Hmin tj t' Hj Hsp').
               - destruct IH as [-> Hall]. apply Hall; [|done].
                 by eapply list_elem_of_lookup_2. }
             split; [qc_order|]. intros _. qc_order.
          -- assert (tj = length l) as ->.
             { apply lookup_lt_Some in Hj. rewrite length_app in Hj. cbn in Hj. lia. }
             rewrite lookup_app_r, Nat.sub_diag in Hj by lia. injection Hj as <-.
             split; [qc_order|]. lia.
        * destruct best as [ti|].
          -- destruct IH as (tr & Hti & Hs & Hsc & Hb & Hmin). exists tr.
             split; [by apply lookup_app_l_Some|]. split; [done|]. split; [done|].
             split; [done|]. intros tj t' Hj Hsp'.
             destruct (decide (tj < length l)%nat) as [Hlt'|Hge].
             ++ rewrite lookup_app_l in Hj by done. by apply Hmin.
             ++ assert (tj = length l) as ->.
                { apply lookup_lt_Some in Hj. rewrite length_app in Hj. cbn in Hj.
                  lia. }
                rewrite lookup_app_r, Nat.sub_diag in Hj by lia. injection Hj as <-.
                split; [qc_order|]. apply lookup_lt_Some in Hti. lia.
          -- destruct IH as [-> Hall]. split; [done|]. intros track Hin Hsp'.
             apply elem_of_app in Hin as [Hin|Hin]; [by apply Hall|].
             apply list_elem_of_singleton in Hin as ->. qc_order.
      + cbn [fst snd]. destruct best as [ti|].
        * destruct IH as (tr & Hti & Hs & Hsc & Hb & Hmin). exists tr.
          split; [by apply lookup_app_l_Some|]. split; [done|]. split; [done|].
          split; [done|]. intros tj t' Hj Hsp'.
          destruct (decide (tj < length l)%nat) as [Hlt'|Hge].
          -- rewrite lookup_app_l in Hj by done. by apply Hmin.
          -- assert (tj = length l) as ->.
             { apply lookup_lt_Some in Hj. rewrite length_app in Hj. cbn in Hj. lia. }
             rewrite lookup_app_r, Nat.sub_diag in Hj by lia. injection Hj as <-.
             congruence.
        * destruct IH as [-> Hall]. split; [done|]. intros track Hin Hsp'.
          apply elem_of_app in Hin as [Hin|Hin]; [by apply Hall|].
          apply list_elem_of_singleton in Hin as ->. congruence. }
  specialize (H tracks). cbn zeta in H.
  destruct (fold_left step _ _) as [best bv]. cbn [fst snd] in *.
  destruct best as [ti|].
  - destruct H as (tr & Hti & Hs & <- & Hb & Hmin). by exists tr.
  - by destruct H.
Qed.

(** X26.  When the score the code computes for a track (the distance to
    the track's centroid, or the growth in area of its extent, in double
    arithmetic) is a NaN for no track of the pool,
    [disk_manager_find_best_track] under the nearest-track and the best-fit
    strategies returns, among the tracks that have room and whose computed
    score is below [DBL_MAX], the first one of least computed score; it
    returns no track when there is none.  Under the sequential strategy it
    returns the last track if that has room, and under the new-track
    strategy it never returns a track. *)
Theorem find_best_track_least (sqrt : Qc -> Qc) (dm : DiskManager)
  (centroid : Point) :
  let tracks := pool_tracks (dm_pool dm) in
  let score := track_score sqrt (dmc_strategy (dm_config dm)) centroid in
  Forall (fun track => is_nan (score track) = false) tracks ->
  match dmc_strategy (dm_config dm) with
  | ALLOC_SEQUENTIAL =>
      disk_manager_find_best_track sqrt dm centroid
      = match last tracks with
        | Some track =>
            if track_has_space track then Some (length tracks - 1)%nat else None
        | None => None
        end
  | ALLOC_NEW_TRACK => disk_manager_find_best_track sqrt dm centroid = None
  | _ =>
      match disk_manager_find_best_track sqrt dm centroid with
      | Some ti =>
          exists track,
            tracks !! ti = Some track /\ track_has_space track = true /\
            score track < DBL_MAX /\
            forall tj track',
              tracks !! tj = Some track' -> track_has_space track' = true ->
              score track <= score track' /\
              ((tj < ti)%nat -> score track < score track')
      | None =>
          forall track, track ∈ tracks -> track_has_space track = true ->
                        DBL_MAX <= score track
      end
  end.
Proof.
  intros tracks score _. unfold disk_manager_find_best_track. fold tracks.
  subst score. destruct (dmc_strategy (dm_config dm)); cbn [track_score].
  - apply (best_track_scan_spec
             (fun track => point_distance sqrt centroid (tr_centroid track))).
  - done.
  - apply (best_track_scan_spec
             (fun track =>
                fsub (mbr_area (mbr_expand_point (tr_extent track) centroid))
                     (mbr_area (tr_extent track)))).
  - rewrite last_lookup. destruct tracks as [|t l]; [done|].
    cbn [length Nat.ltb Nat.leb]. replace (S (length l) - 1)%nat with (length l) by lia.
    cbn [Nat.pred]. by destruct ((t :: l) !! length l).
Qed.

(** Three tracks with room under the best-fit strategy: the extents of the
    second and of the third contain the point, and the second is
    returned. *)
Lemma find_best_track_least_witness :
  Forall (fun track =>
            is_nan (track_score example_sqrt ALLOC_BEST_FIT example_target track)
            = false)
         (pool_tracks (dm_pool example_tracks_dm)) /\
  disk_manager_find_best_track example_sqrt example_tracks_dm example_target
  = Some 1%nat /\
  match disk_manager_find_best_track example_sqrt example_tracks_dm
                                     example_target with
  | Some ti =>
      exists track,
        pool_tracks (dm_pool example_tracks_dm) !! ti = Some track /\
        track_has_space track = true /\
        track_score example_sqrt ALLOC_BEST_FIT example_target track < DBL_MAX /\
        forall tj track',
          pool_tracks (dm_pool example_tracks_dm) !! tj = Some track' ->
          track_has_space track' = true ->
          track_score example_sqrt ALLOC_BEST_FIT example_target track
          <= track_score example_sqrt ALLOC_BEST_FIT example_target track' /\
          ((tj < ti)%nat ->
           track_score example_sqrt ALLOC_BEST_FIT example_target track
           < track_score example_sqrt ALLOC_BEST_FIT example_target track')
  | None =>
      forall track, track ∈ pool_tracks (dm_pool example_tracks_dm) ->
                    track_has_space track = true ->
                    DBL_MAX <= track_score example_sqrt ALLOC_BEST_FIT
                                           example_target track
  end.
Proof.
  assert (H : Forall (fun track =>
                        is_nan (track_score example_sqrt ALLOC_BEST_FIT
                                            example_target track) = false)
                     (pool_tracks (dm_pool example_tracks_dm)))
    by (apply Forall_fold_right; vm_compute; tauto).
  split; [exact H|]. split; [vm_compute; reflexivity|].
  exact (find_best_track_least example_sqrt example_tracks_dm example_target H).
Defined.

(** ** The disk manager: pages and their tracks *)

Lemma track_add_page_track (pool : PagePool) (ti pi : nat) (track : DiskTrack) :
  pool_tracks pool !! ti = Some track ->
  (length (tr_pages track) < tr_page_capacity track)%nat ->
  exists track',
    pool_tracks (snd (track_add_page pool ti pi)) = <[ti := track']> (pool_tracks pool) /\
    tr_track_id track' = tr_track_id track /\
    tr_page_capacity track' = tr_page_capacity track /\
    tr_pages track' = tr_pages track ++ [pi] /\
    length (pool_pages (snd (track_add_page pool ti pi))) = length (pool_pages pool) /\
    pool_next_track_id (snd (track_add_page pool ti pi)) = pool_next_track_id pool.
Proof.
  intros Ht Hlt. unfold track_add_page. rewrite Ht.
  replace (tr_page_capacity track <=? length (tr_pages track))%nat with false
    by (symmetry; apply Nat.leb_gt; lia).
  cbn [snd track_update_derived pool_pages pool_tracks pool_next_track_id].
  eexists. split.
  - apply list_eq. intros i. rewrite list_lookup_alter.
    destruct (decide (i = ti)) as [->|Hne].
    + rewrite decide_True by done.
      rewrite !list_lookup_insert_eq by (by eapply lookup_lt_Some). reflexivity.
    + rewrite decide_False by done. by rewrite !list_lookup_insert_ne by done.
  - unfold track_update_derived_on.
    destruct (fold_left _ _ _) as [[[? ?] ?] ?]. cbn.
    by rewrite length_alter.
Qed.

Lemma concat_insert_app {A B : Type} (f : A -> list B) (l : list A) (i : nat)
  (a b : A) (x : list B) :
  l !! i = Some a -> f b = f a ++ x ->
  concat (map f (<[i := b]> l)) ≡ₚ concat (map f l) ++ x.
Proof.
  revert i. induction l as [|c l IH]; intros i Hi Hb; [done|].
  destruct i as [|i]; simpl in *.
  - injection Hi as ->. rewrite Hb, <- !app_assoc. apply Permutation_app_head.
    apply Permutation_app_comm.
  - rewrite (IH i Hi Hb). by rewrite app_assoc.
Qed.

Lemma twice_snoc {A : Type} (l : list A) (a : A) : twice (l ++ [a]) = twice l ++ [a; a].
Proof. unfold twice. rewrite map_app, concat_app. done. Qed.

Lemma twice_length {A : Type} (l : list A) : length (twice l) = (2 * length l)%nat.
Proof. unfold twice. induction l as [|a l IH]; simpl in *; [done|]. rewrite IH. lia. Qed.

Lemma track_id_consecutive (tracks : list DiskTrack) (ti : nat) (track : DiskTrack) :
  map tr_track_id tracks = map Z.of_nat (seq 1 (length tracks)) ->
  tracks !! ti = Some track ->
  tr_track_id track = Z.of_nat (ti + 1) /\
  find_index (fun t => (tr_track_id t =? Z.of_nat (ti + 1))%Z) tracks = Some ti.
Proof.
  intros Hids Ht.
  assert (Hid : tr_track_id track = Z.of_nat (ti + 1)).
  { assert (H : map tr_track_id tracks !! ti = Some (tr_track_id track))
      by (by rewrite list_lookup_fmap, Ht).
    rewrite Hids, list_lookup_fmap in H.
    rewrite lookup_seq_lt in H by (by eapply lookup_lt_Some).
    cbn in H. injection H as H. rewrite <- H. f_equal. lia. }
  split; [done|].
  rewrite (find_index_map tr_track_id (fun k => (k =? Z.of_nat (ti + 1))%Z)), Hids.
  rewrite find_index_consecutive. apply lookup_lt_Some in Ht.
  destruct (Z.leb_spec (Z.of_nat 1) (Z.of_nat (ti + 1))); [|lia].
  destruct (Z.ltb_spec (Z.of_nat (ti + 1)) (Z.of_nat (1 + length tracks))); [|lia].
  cbn. f_equal. lia.
Qed.

Lemma alloc_page_tracked (sqrt : Qc -> Qc) (dm : DiskManager) (centroid : Point) :
  pool_tracked (dm_pool dm) ->
  (Z.of_nat (length (pool_tracks (dm_pool dm))) + 2 < 2 ^ 32)%Z ->
  pool_tracked (dm_pool (fst (disk_manager_alloc_page sqrt dm centroid))) /\
  length (pool_pages (dm_pool (fst (disk_manager_alloc_page sqrt dm centroid))))
  = S (length (pool_pages (dm_pool dm))).
Proof.
  intros (Hids & Hnext & Hall & Hperm & Hle) Hlen. unfold disk_manager_alloc_page.
  set (usable := match disk_manager_find_best_track sqrt dm centroid with
                 | Some ti => _ | None => None end).
  assert (Hus : forall ti, usable = Some ti ->
                  exists track, pool_tracks (dm_pool dm) !! ti = Some track /\
                                track_has_space track = true).
  { unfold usable. intros ti.
    destruct (disk_manager_find_best_track sqrt dm centroid) as [tj|]; [|done].
    destruct (pool_tracks (dm_pool dm) !! tj) as [track|] eqn:Ht; [|done].
    destruct (track_has_space track) eqn:Hsp; [|done].
    intros [= <-]. by exists track. }
  assert (Hdm1 : exists dm1 ti track,
             match usable with
             | Some ti => (dm, ti)
             | None => disk_manager_create_track dm
             end = (dm1, ti) /\
             pool_pages (dm_pool dm1) = pool_pages (dm_pool dm) /\
             map tr_track_id (pool_tracks (dm_pool dm1))
             = map Z.of_nat (seq 1 (length (pool_tracks (dm_pool dm1)))) /\
             pool_next_track_id (dm_pool dm1)
             = Z.of_nat (length (pool_tracks (dm_pool dm1)) + 1) /\
             Forall (fun track =>
                       tr_page_capacity track = PAGES_PER_TRACK /\
                       (length (tr_pages track) <= PAGES_PER_TRACK)%nat /\
                       exists ps, tr_pages track = twice ps)
                    (pool_tracks (dm_pool dm1)) /\
             concat (map tr_pages (pool_tracks (dm_pool dm1)))
             ≡ₚ twice (seq 0 (length (pool_pages (dm_pool dm)))) /\
             (length (pool_tracks (dm_pool dm1))
              <= S (length (pool_pages (dm_pool dm))))%nat /\
             pool_tracks (dm_pool dm1) !! ti = Some track /\
             track_has_space track = true).
  { destruct usable as [ti|].
    - destruct (Hus ti eq_refl) as (track & Ht & Hsp).
      exists dm, ti, track. repeat split; try done. lia.
    - exists (fst (disk_manager_create_track dm)), (length (pool_tracks (dm_pool dm))),
             (track_create (pool_next_track_id (dm_pool dm))).
      unfold disk_manager_create_track, page_pool_create_track.
      cbn [fst snd dm_pool pool_pages pool_tracks pool_next_track_id].
      split; [done|]. split; [done|]. split.
      { rewrite length_app, map_app, seq_app, map_app, Hids, Hnext. simpl.
        do 3 f_equal. lia. }
      split.
      { rewrite length_app. simpl. unfold u32_wrap. rewrite Hnext.
        rewrite Z.mod_small by lia. lia. }
      split.
      { apply Forall_app. split; [done|]. apply list.Forall_cons. split; [|constructor].
        cbn. split; [done|]. split; [lia|]. by exists []. }
      split.
      { rewrite map_app, concat_app. simpl. by rewrite app_nil_r. }
      split.
      { rewrite length_app. simpl. lia. }
      split.
      { by rewrite lookup_app_r, Nat.sub_diag by lia. }
      done. }
  clear Hids Hnext Hall Hperm Hus.
  destruct Hdm1 as (dm1 & ti & track & -> & Hp1 & Hids & Hnext & Hall & Hperm & Hle1
                    & Hti & Hsp).
  destruct (track_id_consecutive _ _ _ Hids Hti) as [Hid Hfind].
  rewrite Hti, Hid.
  rewrite list.Forall_forall in Hall.
  destruct (Hall track) as (Hcap & Hlen16 & ps & Hps); [by eapply list_elem_of_lookup_2|].
  unfold track_has_space in Hsp. apply Nat.ltb_lt in Hsp.
  assert (Heven : length (tr_pages track) = (2 * length ps)%nat)
    by (by rewrite Hps, twice_length).
  (* page_pool_alloc *)
  unfold page_pool_alloc.
  set (P := length (pool_pages (dm_pool dm1))).
  set (pool1 := mkPagePool (pool_pages (dm_pool dm1) ++ [_]) _ _ _).
  replace (0 <? Z.of_nat (ti + 1))%Z with true by (symmetry; apply Z.ltb_lt; lia).
  assert (Hget : page_pool_get_track pool1 (Z.of_nat (ti + 1)) = Some ti) by exact Hfind.
  rewrite Hget.
  destruct (track_add_page_track pool1 ti P track Hti Hsp)
    as (t1 & Ht1 & Hid1 & Hcap1 & Hpg1 & Hl1 & Hn1).
  set (pool2 := snd (track_add_page pool1 ti P)) in *.
  cbn [fst snd].
  set (pool3 := pool_alter_page (set_page_centroid centroid) P pool2).
  assert (Hti3 : pool_tracks pool3 !! ti = Some t1).
  { cbn [pool3 pool_alter_page pool_tracks]. rewrite Ht1.
    apply list_lookup_insert_eq. by eapply lookup_lt_Some. }
  assert (Hsp3 : (length (tr_pages t1) < tr_page_capacity t1)%nat).
  { rewrite Hpg1, Hcap1, length_app. cbn [length]. unfold PAGES_PER_TRACK in Hcap. lia. }
  destruct (track_add_page_track pool3 ti P t1 Hti3 Hsp3)
    as (t2 & Ht2 & Hid2 & Hcap2 & Hpg2 & Hl2 & Hn2).
  set (pool4 := snd (track_add_page pool3 ti P)) in *.
  rewrite update_allocation_tree_pool. cbn [dm_pool dm_set_pool].
  assert (Htracks : pool_tracks pool4 = <[ti := t2]> (pool_tracks (dm_pool dm1))).
  { rewrite Ht2. cbn [pool3 pool_alter_page pool_tracks]. rewrite Ht1.
    apply list_insert_insert_eq. }
  assert (Hpages : length (pool_pages pool4) = S P).
  { rewrite Hl2. cbn [pool3 pool_alter_page pool_pages]. rewrite length_alter, Hl1.
    cbn [pool1 pool_pages]. rewrite length_app. cbn [length]. unfold P. lia. }
  assert (Hpg : tr_pages t2 = tr_pages track ++ [P; P]).
  { by rewrite Hpg2, Hpg1, <- app_assoc. }
  split; [|by rewrite Hpages, <- Hp1].
  unfold pool_tracked. rewrite Htracks, Hpages, length_insert.
  split.
  { rewrite (map_insert_same tr_track_id ti track); [done|done|congruence]. }
  split.
  { rewrite Hn2. cbn [pool3 pool_alter_page pool_next_track_id]. by rewrite Hn1. }
  split.
  { apply Forall_insert; [by apply list.Forall_forall|].
    split; [congruence|]. split.
    - rewrite Hpg, length_app. cbn [length]. unfold PAGES_PER_TRACK in *. lia.
    - exists (ps ++ [P]). by rewrite twice_snoc, Hpg, Hps. }
  split.
  { rewrite (concat_insert_app tr_pages _ ti track t2 [P; P] Hti Hpg).
    rewrite seq_S, twice_snoc. cbn [Nat.add]. apply Permutation_app_tail.
    by rewrite Hperm, <- Hp1. }
  unfold P. rewrite Hp1. lia.
Qed.

Lemma dm_alloc_run_tracked (sqrt : Qc -> Qc) (config : option DiskManagerConfig)
  (centroids : list Point) :
  (Z.of_nat (length centroids) < 2 ^ 32 - 1)%Z ->
  pool_tracked (dm_pool (dm_alloc_run sqrt config centroids)) /\
  length (pool_pages (dm_pool (dm_alloc_run sqrt config centroids)))
  = length centroids.
Proof.
  induction centroids as [|c cs IH] using rev_ind; intros Hlen.
  - split; [|done]. repeat split; done.
  - rewrite length_app in *. cbn [length] in *.
    destruct IH as [Hinv Hpages]; [lia|].
    unfold dm_alloc_run in *. rewrite fold_left_app. cbn [fold_left].
    set (dm := fold_left _ cs _) in *.
    destruct (alloc_page_tracked sqrt dm c Hinv) as [Hinv' Hpages'].
    + destruct Hinv as (_ & _ & _ & _ & Hle). lia.
    + split; [done|]. rewrite Hpages'. lia.
Qed.

(** X27.  In a disk manager that starts fresh and allocates pages through
    [disk_manager_alloc_page] (fewer than 2^32 - 1 of them), every
    allocation adds one page to the pool, and the page ends up listed twice
    in a row in the page array of one track and in no other: once by
    [page_pool_alloc] and once more by [disk_manager_alloc_page] itself.  A
    track of [PAGES_PER_TRACK] = 16 slots therefore takes at most 8
    pages. *)
Theorem tracks_list_pages_twice (sqrt : Qc -> Qc)
  (config : option DiskManagerConfig) (centroids : list Point) :
  (Z.of_nat (length centroids) < 2 ^ 32 - 1)%Z ->
  let pool := dm_pool (dm_alloc_run sqrt config centroids) in
  length (pool_pages pool) = length centroids /\
  Forall (fun track => exists ps, tr_pages track = twice ps /\ (length ps <= 8)%nat)
         (pool_tracks pool) /\
  concat (map tr_pages (pool_tracks pool)) ≡ₚ twice (seq 0 (length centroids)).
Proof.
  intros Hlen pool.
  destruct (dm_alloc_run_tracked sqrt config centroids Hlen)
    as [(_ & _ & Hall & Hperm & _) Hpages].
  fold pool in Hall, Hperm, Hpages. split; [done|]. split.
  - eapply Forall_impl; [exact Hall|]. cbn beta.
    intros track (_ & Hl & ps & Hps). exists ps. split; [done|].
    rewrite Hps, twice_length in Hl. unfold PAGES_PER_TRACK in Hl. lia.
  - by rewrite Hperm, Hpages.
Qed.

(** Three allocations near the origin. *)
Lemma tracks_list_pages_twice_witness :
  (Z.of_nat (length example_centroids) < 2 ^ 32 - 1)%Z /\
  length (pool_pages (dm_pool (dm_alloc_run example_sqrt None example_centroids)))
  = length example_centroids /\
  Forall (fun track => exists ps, tr_pages track = twice ps /\ (length ps <= 8)%nat)
         (pool_tracks (dm_pool (dm_alloc_run example_sqrt None example_centroids))) /\
  concat (map tr_pages
            (pool_tracks (dm_pool (dm_alloc_run example_sqrt None example_centroids))))
  ≡ₚ twice (seq 0 (length example_centroids)).
Proof.
  assert (H : (Z.of_nat (length example_centroids) < 2 ^ 32 - 1)%Z) by (cbn; lia).
  split; [exact H|].
  exact (tracks_list_pages_twice example_sqrt None example_centroids H).
Defined.

(** ** The page format *)

(** X28.  [page_serialize] into a buffer of at least [PAGE_SIZE] bytes, for
    a page that counts at most [MAX_OBJECTS_PER_PAGE] objects and has their
    slots, returns [PAGE_OK] and leaves in the buffer the 72 bytes of the
    header, then 60 bytes for each counted object in order (id, type,
    centroid, MBR), then zeros up to the length of the buffer: nothing of
    the buffer's previous contents survives and its length is unchanged. *)
Theorem page_serialize_layout (page : PageImage) (buffer : list Z) :
  (hb_object_count (pi_header page) <= Z.of_nat MAX_OBJECTS_PER_PAGE)%Z ->
  (Z.to_nat (hb_object_count (pi_header page)) <= length (pi_objects page))%nat ->
  (PAGE_SIZE <= length buffer)%nat ->
  let n := Z.to_nat (hb_object_count (pi_header page)) in
  exists image : list Z,
    page_serialize page buffer = (PAGE_OK, image) /\
    image = header_bytes (pi_header page)
            ++ concat (map object_bytes (take n (pi_objects page)))
            ++ replicate (length buffer - (sizeof_PageHeader + 60 * n)) 0%Z /\
    length (header_bytes (pi_header page)) = sizeof_PageHeader /\
    length (concat (map object_bytes (take n (pi_objects page)))) = (60 * n)%nat /\
    length image = length buffer.
Proof.
  intros Hmax Hslots Hbuf n.
  rewrite (page_serialize_buffer page buffer Hbuf). fold n.
  assert (Hn : (n <= 64)%nat) by (unfold MAX_OBJECTS_PER_PAGE in Hmax; lia).
  assert (Hlo : length (take n (pi_objects page)) = n) by (rewrite length_take; lia).
  rewrite Hlo, !drop_replicate.
  eexists. split; [reflexivity|]. split.
  - do 3 f_equal. lia.
  - split; [apply length_header_bytes|]. split.
    + by rewrite length_concat_object_bytes, Hlo.
    + rewrite !length_app, length_header_bytes, length_concat_object_bytes, Hlo,
        length_replicate.
      unfold sizeof_PageHeader, PAGE_SIZE in *. lia.
Qed.

(** The example page in a buffer of one page. *)
Lemma page_serialize_layout_witness :
  (hb_object_count (pi_header example_page_image) <= Z.of_nat MAX_OBJECTS_PER_PAGE)%Z /\
  (Z.to_nat (hb_object_count (pi_header example_page_image))
   <= length (pi_objects example_page_image))%nat /\
  (PAGE_SIZE <= length example_buffer)%nat /\
  exists image : list Z,
    page_serialize example_page_image example_buffer = (PAGE_OK, image) /\
    image = header_bytes (pi_header example_page_image)
            ++ concat (map object_bytes
                           (take (Z.to_nat (hb_object_count
                                              (pi_header example_page_image)))
                                 (pi_objects example_page_image)))
            ++ replicate (length example_buffer
                          - (sizeof_PageHeader
                             + 60 * Z.to_nat (hb_object_count
                                                (pi_header example_page_image))))
                         0%Z /\
    length (header_bytes (pi_header example_page_image)) = sizeof_PageHeader /\
    length (concat (map object_bytes
                        (take (Z.to_nat (hb_object_count
                                           (pi_header example_page_image)))
                              (pi_objects example_page_image))))
    = (60 * Z.to_nat (hb_object_count (pi_header example_page_image)))%nat /\
    length image = length example_buffer.
Proof.
  assert (H1 : (hb_object_count (pi_header example_page_image)
                <= Z.of_nat MAX_OBJECTS_PER_PAGE)%Z)
    by (unfold MAX_OBJECTS_PER_PAGE; simpl; lia).
  assert (H2 : (Z.to_nat (hb_object_count (pi_header example_page_image))
                <= length (pi_objects example_page_image))%nat) by (simpl; lia).
  assert (H3 : (PAGE_SIZE <= length example_buffer)%nat)
    by (unfold example_buffer; rewrite length_replicate; lia).
  split; [exact H1|]. split; [exact H2|]. split; [exact H3|].
  exact (page_serialize_layout example_page_image example_buffer H1 H2 H3).
Defined.

(** ** Building the index *)

Lemma build_page_quadtree_ok (idx : SpatialIndex) :
  exists idx',
    build_page_quadtree idx = Some (SI_OK, idx') /\
    si_pages idx' = si_pages idx /\ si_bounds idx' = si_bounds idx /\
    si_block_tree idx' = si_block_tree idx /\ si_blocks idx' = si_blocks idx.
Proof.
  unfold build_page_quadtree.
  destruct (negb (sic_build_quadtree (si_config idx))); [by eexists|].
  destruct (length (si_pages (si_set_page_tree idx None)) =? 0)%nat; [by eexists|].
  unfold quadtree_create.
  destruct (fold_quadtree_insert_total
              (imap (fun pi page => (pi, page)) (si_pages (si_set_page_tree idx None)))
              (snd (quadtree_init (D := nat) (si_bounds (si_set_page_tree idx None)) 8
                                  QT_MAX_DEPTH))) as [qt' ->].
  by eexists.
Qed.

Lemma fold_create_block_blocks (bs : list MBR) (idx : SpatialIndex) :
  map sb_bounds (si_blocks (fold_left create_block bs idx))
  = map sb_bounds (si_blocks idx) ++ bs.
Proof.
  revert idx. induction bs as [|b bs IH]; intros idx.
  - cbn. by rewrite app_nil_r.
  - cbn [fold_left]. rewrite IH. unfold create_block.
    destruct (disk_manager_create_track (si_disk idx)) as [disk' ti].
    cbn [si_blocks]. rewrite map_app. cbn. by rewrite <- app_assoc.
Qed.

(** X30.  [spatial_index_build] returns [SI_OK] and marks the index as
    built; the stored objects and the bounds are untouched.  When the index
    stores no object the block tree is left as it was, entries for removed
    objects included.  Otherwise the block tree is rebuilt with one entry
    per stored object (its centroid, its id and the pointer to it), and the
    blocks are the rectangles [kdtree_partition] cuts that tree into, for
    the configured block size. *)
Theorem spatial_index_build_result (idx : SpatialIndex) :
  exists idx' : SpatialIndex,
    spatial_index_build idx = Some (SI_OK, idx') /\
    si_is_built idx' = true /\
    stored_objects idx' = stored_objects idx /\
    si_bounds idx' = si_bounds idx /\
    match stored_objects idx with
    | [] => si_block_tree idx' = si_block_tree idx
    | _ :: _ =>
        kd_entries (kd_root (si_block_tree idx')) ≡ₚ collect_points (si_pages idx) /\
        kd_size (si_block_tree idx') = length (stored_objects idx) /\
        map sb_bounds (si_blocks idx')
        = snd (kdtree_partition (si_block_tree idx') (sic_block_size (si_config idx)))
    end.
Proof.
  unfold spatial_index_build. rewrite page_pool_total_objects_length.
  fold (si_pages idx). fold (stored_objects idx).
  destruct (stored_objects idx) as [|o objs] eqn:Hobjs.
  - cbn. by eexists.
  - cbn [length Nat.eqb].
    assert (Hne : collect_points (si_pages idx) <> []).
    { intros Hnil. pose proof (collect_points_length idx) as Hl.
      rewrite Hnil, Hobjs in Hl. done. }
    pose proof (bulk_load_tree (collect_points (si_pages idx)) Hne) as [_ Hperm].
    assert (Hsize : kd_size (kdtree_bulk_load kdtree_init
                               (collect_points (si_pages idx))).2
                    = length (collect_points (si_pages idx))).
    { unfold kdtree_bulk_load. by destruct (length _ =? 0)%nat eqn:E;
        [apply Nat.eqb_eq in E; rewrite E|]. }
    destruct (kdtree_bulk_load kdtree_init (collect_points (si_pages idx)))
      as [e tree]. cbn [snd] in *.
    pose proof (eq_refl (kdtree_partition tree (sic_block_size (si_config idx))))
      as Hpart.
    destruct (kdtree_partition tree (sic_block_size (si_config idx))) as [e' bs]
      in Hpart at 2 |- *.
    set (idx1 := mkSpatialIndex _ tree _ _ [] _ _ _ _).
    destruct (fold_create_block_frame bs idx1) as [Hp Hb].
    pose proof (fold_create_block_tree bs idx1) as Ht.
    pose proof (fold_create_block_blocks bs idx1) as Hbl.
    destruct (build_page_quadtree_ok (fold_left create_block bs idx1))
      as (idx3 & -> & Hp3 & Hb3 & Ht3 & Hbl3).
    eexists. split; [reflexivity|].
    cbn [si_set_is_built si_is_built si_bounds si_block_tree si_blocks].
    split; [done|]. split.
    { unfold stored_objects.
      change (si_pages (si_set_is_built idx3 true)) with (si_pages idx3).
      by rewrite Hp3, Hp. }
    split; [by rewrite Hb3, Hb|].
    rewrite Ht3, Ht, Hbl3, Hbl. cbn [idx1 si_block_tree si_blocks map app].
    split; [done|]. split.
    + by rewrite Hsize, collect_points_length, Hobjs.
    + by rewrite Hpart.
Qed.
